(** * QU-TRAX SDK: the dynamic multi-agent annealing scheduler

    A shallow embedding of [qtrax_sdk/models/{agent,problem,solution}.py],
    [qtrax_sdk/core/{annealer,neighbor,dynamic_annealer,optimizer}.py],
    [qtrax_sdk/services/{dynamic_runner,postprocessor}.py] and
    [qtrax_sdk/utils/event_bus.py], the properties the specification
    states about them, and further properties of the code.

    Conventions of the embedding.
    - Python [int] node ids are [Z]; agent ids ([str]) are [string].
    - Python [float] costs, weights and temperatures are idealised as exact
      rationals [Q] in the annealers and the scheduler: the statements about
      them compare costs or recompute the same sum, and none regroups a sum.
      What [tsp_total_cost] returns as a number does depend on the rounding
      of [float] additions: for that the evaluator is embedded once more
      over binary64 numbers ([Binary64]).  [math.exp] is a parameter of the
      annealing code.
    - Python exceptions are the constructors of [exn]; a fallible function
      returns [result].
    - Objects that the code mutates in place (agents, the graph, the
      dictionaries of a tick) are threaded through the functions that touch
      them.  The agents of a run are distinct objects.
    - The module-level generator of [random] is threaded explicitly as a tape
      of draws ([rng]).
    - [print] calls, node and edge attribute payloads and [Solution.meta]
      are left out: nothing in the core reads them. *)

From Stdlib Require Import String.
From Stdlib Require Import List ZArith NArith QArith Bool Lia Lqa.
From Stdlib Require Import Sorting.Permutation.
From Stdlib Require SpecFloat.
Import ListNotations.

Local Open Scope Z_scope.

(** ** Exceptions and results *)

Inductive exn : Type :=
| IndexError
| ValueError
| KeyError
| StopIteration
| ZeroDivisionError
| OverflowError
| NetworkXError
| NameError
| HookError (msg : string).

Inductive result (A : Type) : Type :=
| Ok (a : A)
| Raise (e : exn).
Arguments Ok {A} a.
Arguments Raise {A} e.

Definition bind {A B : Type} (m : result A) (k : A -> result B) : result B :=
  match m with
  | Ok a => k a
  | Raise e => Raise e
  end.

Notation "x <- m ;; k" := (bind m (fun x => k))
  (at level 61, m at next level, right associativity).
Notation "' p <- m ;; k" := (bind m (fun x => match x with p => k end))
  (at level 61, p pattern, m at next level, right associativity).

(** ** Python lists *)

Module PyList.

(** [l[i]] for a non-negative index. *)
Definition get {A : Type} (l : list A) (i : nat) : result A :=
  match nth_error l i with
  | Some x => Ok x
  | None => Raise IndexError
  end.

(** [l[-1]]. *)
Definition get_last {A : Type} (l : list A) : result A :=
  match l with
  | [] => Raise IndexError
  | x :: l' => Ok (last l' x)
  end.

(** [l[i] = v] for a non-negative index. *)
Fixpoint set {A : Type} (l : list A) (i : nat) (v : A) : result (list A) :=
  match l, i with
  | [], _ => Raise IndexError
  | _ :: l', O => Ok (v :: l')
  | x :: l', S i' => l'' <- set l' i' v ;; Ok (x :: l'')
  end.

(** [l[i], l[j] = l[j], l[i]]: the right-hand side is read first, then the
    two stores are done from left to right. *)
Definition swap {A : Type} (l : list A) (i j : nat) : result (list A) :=
  a <- get l j ;;
  b <- get l i ;;
  l1 <- set l i a ;;
  set l1 j b.

(** [l[i:j]] for [0 <= i], [0 <= j]. *)
Definition slice {A : Type} (l : list A) (i j : nat) : list A :=
  firstn (j - i) (skipn i l).

(** [l[i:j] = seg] for [0 <= i <= j]. *)
Definition slice_assign {A : Type} (l : list A) (i j : nat) (seg : list A)
  : list A :=
  firstn i l ++ seg ++ skipn j l.

(** [l.index(x)]: position of the first occurrence, [ValueError] if none. *)
Fixpoint index (l : list Z) (x : Z) : result nat :=
  match l with
  | [] => Raise ValueError
  | y :: l' => if Z.eqb y x then Ok O
               else i <- index l' x ;; Ok (S i)
  end.

End PyList.

(** ** The [random] module

    [random] is library code.  Its generator is modelled as a tape of raw
    draws that the operations consume from the left (an exhausted tape keeps
    answering 0).  Each operation turns raw draws into a value that meets the
    library's contract, with the algorithm CPython uses for it; the exact
    pseudo-random stream is not reproduced. *)

Module Random.

Definition rng := list N.

Definition next_draw (g : rng) : N * rng :=
  match g with
  | [] => (0%N, [])
  | d :: g' => (d, g')
  end.

(** [_randbelow(n)] for [n > 0]: an integer in [[0, n)]. *)
Definition randbelow (n : nat) (g : rng) : nat * rng :=
  let (d, g') := next_draw g in
  (N.to_nat (d mod N.of_nat n), g').

(** [random.random()]: a multiple of [2^-53] in [[0, 1)]. *)
Definition random (g : rng) : Q * rng :=
  let (d, g') := next_draw g in
  (Z.of_N (d mod 9007199254740992) # 9007199254740992, g').

(** The loop of [random.shuffle]:
    [for i in reversed(range(1, len(x))): j = randbelow(i + 1); swap]. *)
Fixpoint shuffle_from {A : Type} (i : nat) (x : list A) (g : rng)
  : result (list A * rng) :=
  match i with
  | O => Ok (x, g)
  | S i' =>
      let (j, g1) := randbelow (S i) g in
      x1 <- PyList.swap x i j ;;
      shuffle_from i' x1 g1
  end.

Definition shuffle {A : Type} (x : list A) (g : rng) : result (list A * rng) :=
  shuffle_from (length x - 1) x g.

(** [sorted(random.sample(range(lo, hi), 2))]: two distinct members of the
    range, smaller first.  [sample] raises [ValueError] when the population
    has fewer than two members.  Selection is CPython's pool variant: pick
    [pool[a]], move the last member of the pool into slot [a], pick again
    among the first [m - 1] slots. *)
Definition sorted_sample2 (lo hi : nat) (g : rng)
  : result ((nat * nat) * rng) :=
  let m := (hi - lo)%nat in
  if (m <? 2)%nat then Raise ValueError
  else
    let (a, g1) := randbelow m g in
    let (b, g2) := randbelow (m - 1) g1 in
    let x := (lo + a)%nat in
    let y := if (b =? a)%nat then (lo + (m - 1))%nat else (lo + b)%nat in
    Ok ((Nat.min x y, Nat.max x y), g2).

(** [random.choice(seq)]; [IndexError] on an empty sequence. *)
Definition choice {A : Type} (l : list A) (g : rng) : result (A * rng) :=
  match l with
  | [] => Raise IndexError
  | _ =>
      let (k, g') := randbelow (length l) g in
      x <- PyList.get l k ;; Ok (x, g')
  end.

End Random.

(** ** Data model *)

(** [models/problem.py].  A [Node] is reduced to its id and an [Edge] to
    source, target and weight: the attribute payloads are never read by the
    core.  The NetworkX digraph keeps its node set and, per edge
    [(source, target)], the weight; both in insertion order. *)

Record DiGraph : Type := mkDiGraph {
  g_nodes : list Z;
  g_edges : list ((Z * Z) * Q)
}.

Record Problem : Type := mkProblem {
  nodes : list Z;
  graph : DiGraph
}.

Definition edge_eqb (e1 e2 : Z * Z) : bool :=
  (fst e1 =? fst e2) && (snd e1 =? snd e2).

Fixpoint edge_lookup (es : list ((Z * Z) * Q)) (e : Z * Z) : option Q :=
  match es with
  | [] => None
  | (e', w) :: es' => if edge_eqb e' e then Some w else edge_lookup es' e
  end.

Definition mem_Z (x : Z) (l : list Z) : bool := existsb (Z.eqb x) l.

Definition has_edge (G : DiGraph) (u v : Z) : bool :=
  match edge_lookup (g_edges G) (u, v) with
  | Some _ => true
  | None => false
  end.

Definition add_node (G : DiGraph) (n : Z) : DiGraph :=
  if mem_Z n (g_nodes G) then G
  else mkDiGraph (g_nodes G ++ [n]) (g_edges G).

Fixpoint edge_store (es : list ((Z * Z) * Q)) (e : Z * Z) (w : Q)
  : list ((Z * Z) * Q) :=
  match es with
  | [] => [(e, w)]
  | (e', w') :: es' =>
      if edge_eqb e' e then (e', w) :: es' else (e', w') :: edge_store es' e w
  end.

Definition graph_add_edge (G : DiGraph) (u v : Z) (w : Q) : DiGraph :=
  let G1 := add_node (add_node G u) v in
  mkDiGraph (g_nodes G1) (edge_store (g_edges G1) (u, v) w).

Definition graph_remove_edge (G : DiGraph) (u v : Z) : DiGraph :=
  mkDiGraph (g_nodes G)
            (filter (fun p => negb (edge_eqb (fst p) (u, v))) (g_edges G)).

(** [Problem._build_graph] *)
Definition _build_graph (ns : list Z) (es : list ((Z * Z) * Q)) : DiGraph :=
  let G0 := fold_left add_node ns (mkDiGraph [] []) in
  fold_left (fun G e => graph_add_edge G (fst (fst e)) (snd (fst e)) (snd e))
            es G0.

Definition Problem_init (ns : list Z) (es : list ((Z * Z) * Q)) : Problem :=
  mkProblem ns (_build_graph ns es).

(** [Problem.get_neighbors]: [successors] raises for a node that is not in
    the graph. *)
Definition get_neighbors (p : Problem) (node_id : Z) : result (list Z) :=
  if mem_Z node_id (g_nodes (graph p)) then
    Ok (map (fun e => snd (fst e))
            (filter (fun e => fst (fst e) =? node_id) (g_edges (graph p))))
  else Raise NetworkXError.

(** [Problem.distance] *)
Definition distance (p : Problem) (source target : Z) : result Q :=
  match edge_lookup (g_edges (graph p)) (source, target) with
  | Some w => Ok w
  | None => Raise ValueError
  end.

Definition update_edge_weight (p : Problem) (source target : Z) (w : Q)
  : result Problem :=
  if has_edge (graph p) source target then
    Ok (mkProblem (nodes p)
          (mkDiGraph (g_nodes (graph p))
                     (edge_store (g_edges (graph p)) (source, target) w)))
  else Raise KeyError.

Definition remove_edge (p : Problem) (source target : Z) : Problem :=
  if has_edge (graph p) source target then
    mkProblem (nodes p) (graph_remove_edge (graph p) source target)
  else p.

Definition add_edge (p : Problem) (source target : Z) (w : Q) : Problem :=
  mkProblem (nodes p) (graph_add_edge (graph p) source target w).

(** [models/solution.py]: a route and its cost, [None] until evaluated.  The
    [meta] dictionary is carried around untouched and is left out. *)
Record Solution : Type := mkSolution {
  routes : list Z;
  total_cost : option Q
}.

(** [models/agent.py] *)
Inductive Status : Type := active | completed | blocked.

Definition status_eqb (s1 s2 : Status) : bool :=
  match s1, s2 with
  | active, active | completed, completed | blocked, blocked => true
  | _, _ => false
  end.

Record Agent : Type := mkAgent {
  id : string;
  start_node : Z;
  current_node : Z;
  goal_node : Z;
  route : list Z;
  status : Status
}.

(** [Agent.__init__] *)
Definition Agent_init (agent_id : string) (start goal : Z) : Agent :=
  mkAgent agent_id start start goal [start] active.

(** [Agent.step_to] *)
Definition step_to (a : Agent) (next_node : Z) : Agent :=
  let a1 := mkAgent (id a) (start_node a) next_node (goal_node a)
                    (route a ++ [next_node]) (status a) in
  if current_node a1 =? goal_node a1 then
    mkAgent (id a1) (start_node a1) (current_node a1) (goal_node a1)
            (route a1) completed
  else a1.

(** [Agent.reset] *)
Definition reset (a : Agent) (new_start new_goal : Z) : Agent :=
  mkAgent (id a) new_start new_start new_goal [new_start] active.

Definition set_status (a : Agent) (s : Status) : Agent :=
  mkAgent (id a) (start_node a) (current_node a) (goal_node a) (route a) s.

(** ** Route cost evaluator ([core/annealer.py]) *)

Definition penalty : Q := 1000000000.

(** The body of the loop of [tsp_total_cost] at index [i]. *)
Definition cost_step (problem : Problem) (rt : list Z) (total : Q) (i : nat)
  : result Q :=
  u <- PyList.get rt i ;;
  v <- PyList.get rt (S i) ;;
  match distance problem u v with
  | Ok w => Ok (total + w)%Q
  | Raise ValueError => Ok (total + penalty)%Q
  | Raise e => Raise e
  end.

Fixpoint cost_loop (problem : Problem) (rt : list Z) (total : Q)
  (idxs : list nat) : result Q :=
  match idxs with
  | [] => Ok total
  | i :: idxs' =>
      total' <- cost_step problem rt total i ;;
      cost_loop problem rt total' idxs'
  end.

(** [tsp_total_cost]: returns the total and the solution object with the
    total written to its [total_cost] field. *)
Definition tsp_total_cost (sol : Solution) (problem : Problem)
  : result (Solution * Q) :=
  let rt := routes sol in
  total <- cost_loop problem rt 0%Q (seq 0 (length rt - 1)) ;;
  Ok (mkSolution (routes sol) (Some total), total).

(** The reading of the specification: the cost of one hop, and the hops of a
    route in order. *)
Definition hop_cost (problem : Problem) (hop : Z * Z) : Q :=
  match edge_lookup (g_edges (graph problem)) hop with
  | Some w => w
  | None => penalty
  end.

Fixpoint hops (rt : list Z) : list (Z * Z) :=
  match rt with
  | u :: ((v :: _) as rt') => (u, v) :: hops rt'
  | _ => []
  end.

Definition spec_total_cost (problem : Problem) (rt : list Z) : Q :=
  fold_left (fun total hop => (total + hop_cost problem hop)%Q) (hops rt) 0%Q.

(** ** Perturbation operators ([core/neighbor.py]) *)

Definition Qltb (x y : Q) : bool := negb (Qle_bool y x).

(** [tsp_2opt_neighbor] *)
Definition tsp_2opt_neighbor (current_solution : Solution) (problem : Problem)
  (g : Random.rng) : result (Solution * Random.rng) :=
  let rt := routes current_solution in
  let n := length rt in
  if (n <? 4)%nat then
    Ok (mkSolution rt (total_cost current_solution), g)
  else
    '((i, j), g1) <- Random.sorted_sample2 1 (n - 1) g ;;
    Ok (mkSolution
          (PyList.slice_assign rt i j (rev (PyList.slice rt i j))) None, g1).

(** [quantum_jump_neighbor]; [n < 4 or random.random() >= jump_prob] draws
    only when the route has at least four entries. *)
Definition quantum_jump_neighbor (current_solution : Solution)
  (problem : Problem) (jump_prob : Q) (g : Random.rng)
  : result (Solution * Random.rng) :=
  let rt := routes current_solution in
  let n := length rt in
  if (n <? 4)%nat then tsp_2opt_neighbor current_solution problem g
  else
    let (u, g0) := Random.random g in
    if Qle_bool jump_prob u then tsp_2opt_neighbor current_solution problem g0
    else
      '((i, j), g1) <- Random.sorted_sample2 1 (n - 1) g0 ;;
      '(segment, g2) <- Random.shuffle (PyList.slice rt i j) g1 ;;
      Ok (mkSolution (PyList.slice_assign rt i j segment) None, g2).

(** ** The generic annealer ([core/annealer.py], class [Annealer])

    [DynamicAnnealer._local_sa] is a per-agent variant of this loop. *)

(** [tsp_initial_solution] *)
Definition tsp_initial_solution (problem : Problem) (g : Random.rng)
  : result (Solution * Random.rng) :=
  '(rt, g1) <- Random.shuffle (nodes problem) g ;;
  r0 <- PyList.get rt 0 ;;
  r_last <- PyList.get_last rt ;;
  let rt' := if negb (r0 =? r_last) then rt ++ [r0] else rt in
  '(_, total) <- tsp_total_cost (mkSolution rt' (Some 0%Q)) problem ;;
  Ok (mkSolution rt' (Some total), g1).

Module Annealer.

Record t : Type := mk {
  problem : Problem;
  initial_solution_fn : Problem -> Random.rng -> result (Solution * Random.rng);
  neighbor_fn :
    Solution -> Problem -> Random.rng -> result (Solution * Random.rng);
  cost_fn : Solution -> Problem -> result (Solution * Q);
  max_iter : Z;
  start_temp : Q;
  cooling_rate : Q;
  min_temp : Q
}.

(** What [run] has seen: the best candidate and its cost, the cost of the
    initial candidate, and the costs of the accepted candidates in order.
    Only [best] is returned by the code; the rest is kept for the
    statements. *)
Record Seen : Type := mkSeen {
  best : Solution;
  best_cost : Q;
  initial_cost : Q;
  accepted : list Q
}.

Section WithExp.

Variable math_exp : Q -> result Q.

(** [Annealer.acceptance_probability] *)
Definition acceptance_probability (old_cost new_cost temperature : Q)
  : result Q :=
  if Qltb new_cost old_cost then Ok 1%Q
  else
    let d := (temperature + (1 # 1000000000))%Q in
    if Qeq_bool d 0 then Raise ZeroDivisionError
    else math_exp ((old_cost - new_cost) / d)%Q.

(** The loop of [Annealer.run], [iters] iterations left. *)
Fixpoint loop (self : t) (iters : nat) (current : Solution)
  (current_cost temperature : Q) (seen : Seen) (g : Random.rng)
  : result (Seen * Random.rng) :=
  match iters with
  | O => Ok (seen, g)
  | S iters' =>
      '(neighbor0, g1) <- neighbor_fn self current (problem self) g ;;
      '(neighbor, neighbor_cost) <- cost_fn self neighbor0 (problem self) ;;
      ap <- acceptance_probability current_cost neighbor_cost temperature ;;
      let (u, g2) := Random.random g1 in
      let '(current', current_cost', seen') :=
        if Qltb u ap then
          (neighbor, neighbor_cost,
           if Qltb neighbor_cost (best_cost seen) then
             mkSeen neighbor neighbor_cost (initial_cost seen)
                    (accepted seen ++ [neighbor_cost])
           else
             mkSeen (best seen) (best_cost seen) (initial_cost seen)
                    (accepted seen ++ [neighbor_cost]))
        else (current, current_cost, seen) in
      let temperature' := (temperature * cooling_rate self)%Q in
      if Qltb temperature' (min_temp self) then Ok (seen', g2)
      else loop self iters' current' current_cost' temperature' seen' g2
  end.

Definition run_seen (self : t) (g : Random.rng) : result (Seen * Random.rng) :=
  '(current0, g0) <- initial_solution_fn self (problem self) g ;;
  '(current, current_cost) <- cost_fn self current0 (problem self) ;;
  loop self (Z.to_nat (max_iter self)) current current_cost (start_temp self)
       (mkSeen current current_cost current_cost []) g0.

(** [Annealer.run] *)
Definition run (self : t) (g : Random.rng) : result (Solution * Random.rng) :=
  '(seen, g') <- run_seen self g ;; Ok (best seen, g').

End WithExp.
End Annealer.

(** ** Python dictionaries, in insertion order *)

Module PyDict.
Section Dict.
Context {K V : Type} (eqb : K -> K -> bool).

Fixpoint get (d : list (K * V)) (k : K) : option V :=
  match d with
  | [] => None
  | (k', v) :: d' => if eqb k' k then Some v else get d' k
  end.

(** [d[k] = v]: an existing key keeps its position. *)
Fixpoint set (d : list (K * V)) (k : K) (v : V) : list (K * V) :=
  match d with
  | [] => [(k, v)]
  | (k', v') :: d' =>
      if eqb k' k then (k', v) :: d' else (k', v') :: set d' k v
  end.

(** [del d[k]] *)
Fixpoint del (d : list (K * V)) (k : K) : result (list (K * V)) :=
  match d with
  | [] => Raise KeyError
  | (k', v') :: d' =>
      if eqb k' k then Ok d' else d'' <- del d' k ;; Ok ((k', v') :: d'')
  end.
End Dict.
End PyDict.

Definition moves := list (string * Z).

(** ** The collision arbiter ([DynamicAnnealer._detect_collisions]) *)

(** [reverse_map.setdefault(node, []).append(aid)] *)
Fixpoint reverse_add (reverse_map : list (Z * list string)) (node : Z)
  (aid : string) : list (Z * list string) :=
  match reverse_map with
  | [] => [(node, [aid])]
  | (node', aids) :: rm' =>
      if node' =? node then (node', aids ++ [aid]) :: rm'
      else (node', aids) :: reverse_add rm' node aid
  end.

Definition build_reverse_map (proposed_moves : moves)
  : list (Z * list string) :=
  fold_left (fun rm item => reverse_add rm (snd item) (fst item))
            proposed_moves [].

Definition _detect_collisions (proposed_moves : moves) : list string :=
  fold_left
    (fun collisions item =>
       if (1 <? length (snd item))%nat then collisions ++ snd item
       else collisions)
    (build_reverse_map proposed_moves) [].

(** ** The scheduler ([core/dynamic_annealer.py]) *)

(** The mutation hook receives the tick index and may change the graph model
    or raise. *)
Definition Hook := Z -> Problem -> result Problem.

Record DynamicAnnealer : Type := mkDynamicAnnealer {
  problem : Problem;
  agents : list Agent;
  event_callback : option Hook;
  max_tick : Z;
  mini_iter : Z;
  start_temp : Q;
  cooling_rate : Q;
  min_temp : Q;
  quantum_jump_prob : Q;
  agent_solutions : list (string * option Solution)
}.

(** [DynamicAnnealer.__init__]; [random.seed(random_seed)] fixes the tape,
    which [run] takes as an argument.  [agent_solutions] is the dictionary
    [{agent.id: None for agent in agents}]. *)
Definition DynamicAnnealer_init (problem : Problem) (agents : list Agent)
  (event_callback : option Hook) (max_tick mini_iter : Z)
  (start_temp cooling_rate min_temp quantum_jump_prob : Q) : DynamicAnnealer :=
  mkDynamicAnnealer problem agents event_callback max_tick mini_iter
    start_temp cooling_rate min_temp quantum_jump_prob
    (fold_left (fun d a => PyDict.set String.eqb d (id a) None) agents []).

Definition with_world (self : DynamicAnnealer) (p : Problem)
  (ags : list Agent) (sols : list (string * option Solution))
  : DynamicAnnealer :=
  mkDynamicAnnealer p ags (event_callback self) (max_tick self)
    (mini_iter self) (start_temp self) (cooling_rate self) (min_temp self)
    (quantum_jump_prob self) sols.

Definition range (n : Z) : list Z := map Z.of_nat (seq 0 (Z.to_nat n)).

(** Step 2 of [_local_sa]: the initial closed tour anchored at the agent. *)
Definition initial_route (problem : Problem) (agent : Agent) (g : Random.rng)
  : result (list Z * Random.rng) :=
  '(rt, g1) <- Random.shuffle (nodes problem) g ;;
  r0 <- PyList.get rt 0 ;;
  rt1 <- (if negb (r0 =? current_node agent) then
            match PyList.index rt (current_node agent) with
            | Ok idx => PyList.swap rt 0 idx
            | Raise ValueError => Ok (current_node agent :: rt)
            | Raise e => Raise e
            end
          else Ok rt) ;;
  r_last <- PyList.get_last rt1 ;;
  Ok (if negb (r_last =? current_node agent)
      then rt1 ++ [current_node agent] else rt1, g1).

Section Annealing.

(** [math.exp], from the C library: a result or [OverflowError]. *)
Variable math_exp : Q -> result Q.

(** [DynamicAnnealer._acceptance_probability] *)
Definition _acceptance_probability (old_cost new_cost temperature : Q)
  : result Q :=
  if Qltb new_cost old_cost then Ok 1%Q
  else
    let d := (temperature + (1 # 1000000000))%Q in
    if Qeq_bool d 0 then Raise ZeroDivisionError
    else math_exp ((old_cost - new_cost) / d)%Q.

(** The mini-SA loop of [_local_sa], [iters] iterations left. *)
Fixpoint sa_loop (self : DynamicAnnealer) (iters : nat)
  (best_solution : Solution) (best_cost temperature : Q) (g : Random.rng)
  : result (Solution * Random.rng) :=
  match iters with
  | O => Ok (best_solution, g)
  | S iters' =>
      '(neighbor0, g1) <-
        quantum_jump_neighbor best_solution (problem self)
                              (quantum_jump_prob self) g ;;
      '(neighbor, neighbor_cost) <- tsp_total_cost neighbor0 (problem self) ;;
      ap <- _acceptance_probability best_cost neighbor_cost temperature ;;
      let (u, g2) := Random.random g1 in
      let (best_solution', best_cost') :=
        if Qltb u ap then (neighbor, neighbor_cost)
        else (best_solution, best_cost) in
      let temperature' := (temperature * cooling_rate self)%Q in
      if Qltb temperature' (min_temp self) then Ok (best_solution', g2)
      else sa_loop self iters' best_solution' best_cost' temperature' g2
  end.

(** [DynamicAnnealer._local_sa] *)
Definition _local_sa (self : DynamicAnnealer) (agent : Agent)
  (g : Random.rng) : result (Solution * Random.rng) :=
  '(rt, g1) <- initial_route (problem self) agent g ;;
  '(best_solution, best_cost) <-
    tsp_total_cost (mkSolution rt None) (problem self) ;;
  sa_loop self (Z.to_nat (mini_iter self)) best_solution best_cost
          (start_temp self) g1.

(** Step 2 of [run] for one agent: the body of [for agent in self.agents].
    It returns the agent as the body leaves it, the proposed moves, the
    generator and [self.agent_solutions]. *)
Definition propose_one (self : DynamicAnnealer) (agent : Agent)
  (proposed_moves : moves) (g : Random.rng)
  (sols : list (string * option Solution))
  : result (Agent * moves * Random.rng * list (string * option Solution)) :=
  if negb (status_eqb (status agent) active) then
    Ok (agent, proposed_moves, g, sols)
  else if current_node agent =? goal_node agent then
    Ok (set_status agent completed, proposed_moves, g, sols)
  else
    '(best_solution, g1) <- _local_sa self agent g ;;
    match PyList.index (routes best_solution) (current_node agent) with
    | Raise ValueError =>
        neighbors <- get_neighbors (problem self) (current_node agent) ;;
        match neighbors with
        | [] => Ok (set_status agent blocked, proposed_moves, g1, sols)
        | _ =>
            '(next_node, g2) <- Random.choice neighbors g1 ;;
            Ok (agent,
                PyDict.set String.eqb proposed_moves (id agent) next_node,
                g2, sols)
        end
    | Raise e => Raise e
    | Ok current_idx =>
        let n := length (routes best_solution) in
        if (n =? 0)%nat then Raise ZeroDivisionError
        else
          let next_idx := ((current_idx + 1) mod n)%nat in
          next_node <- PyList.get (routes best_solution) next_idx ;;
          Ok (agent,
              PyDict.set String.eqb proposed_moves (id agent) next_node,
              g1,
              PyDict.set String.eqb sols (id agent) (Some best_solution))
    end.

Fixpoint propose_all (self : DynamicAnnealer) (ags : list Agent)
  (proposed_moves : moves) (g : Random.rng)
  (sols : list (string * option Solution))
  : result (list Agent * moves * Random.rng
            * list (string * option Solution)) :=
  match ags with
  | [] => Ok ([], proposed_moves, g, sols)
  | agent :: rest =>
      '(agent', pm1, g1, sols1) <-
        propose_one self agent proposed_moves g sols ;;
      '(rest', pm2, g2, sols2) <- propose_all self rest pm1 g1 sols1 ;;
      Ok (agent' :: rest', pm2, g2, sols2)
  end.

(** [next(a for a in self.agents if a.id == aid)], followed by an update
    of the agent found. *)
Fixpoint update_first (aid : string) (f : Agent -> Agent) (ags : list Agent)
  : result (list Agent) :=
  match ags with
  | [] => Raise StopIteration
  | a :: rest =>
      if String.eqb (id a) aid then Ok (f a :: rest)
      else rest' <- update_first aid f rest ;; Ok (a :: rest')
  end.

(** Step 3: [for aid in collisions]. *)
Fixpoint block_collisions (collisions : list string)
  (proposed_moves : moves) (ags : list Agent)
  : result (moves * list Agent) :=
  match collisions with
  | [] => Ok (proposed_moves, ags)
  | aid :: rest =>
      pm' <- PyDict.del String.eqb proposed_moves aid ;;
      ags' <- update_first aid (fun a => set_status a blocked) ags ;;
      block_collisions rest pm' ags'
  end.

(** Step 4: [for agent_id, next_node in proposed_moves.items()]. *)
Fixpoint commit_moves (items : moves) (ags : list Agent)
  : result (list Agent) :=
  match items with
  | [] => Ok ags
  | (agent_id, next_node) :: rest =>
      ags' <- update_first agent_id (fun a => step_to a next_node) ags ;;
      commit_moves rest ags'
  end.

(** Step 5 *)
Definition unblock (a : Agent) : Agent :=
  if status_eqb (status a) blocked then set_status a active else a.

Definition unblock_all (ags : list Agent) : list Agent := map unblock ags.

(** Step 1 *)
Definition fire_event (self : DynamicAnnealer) (tick : Z) : result Problem :=
  match event_callback self with
  | Some callback => callback tick (problem self)
  | None => Ok (problem self)
  end.

(** One iteration of [for tick in range(self.max_tick)], by steps.
    Steps 1 and 2: the hook, then the proposals. *)
Definition tick_propose (self : DynamicAnnealer) (tick : Z)
  (g : Random.rng) : result (DynamicAnnealer * moves * Random.rng) :=
  p1 <- fire_event self tick ;;
  let self1 := with_world self p1 (agents self) (agent_solutions self) in
  '(ags2, proposed_moves, g2, sols2) <-
    propose_all self1 (agents self1) [] g (agent_solutions self1) ;;
  Ok (with_world self1 p1 ags2 sols2, proposed_moves, g2).

(** Step 3: the colliding agents lose their proposal and are blocked. *)
Definition tick_arbitrate (self : DynamicAnnealer) (proposed_moves : moves)
  : result (DynamicAnnealer * moves) :=
  let collisions := _detect_collisions proposed_moves in
  '(proposed_moves', ags) <-
    block_collisions collisions proposed_moves (agents self) ;;
  Ok (with_world self (problem self) ags (agent_solutions self),
      proposed_moves').

(** Step 4: the remaining proposals are committed. *)
Definition tick_commit (self : DynamicAnnealer) (proposed_moves : moves)
  : result DynamicAnnealer :=
  ags <- commit_moves proposed_moves (agents self) ;;
  Ok (with_world self (problem self) ags (agent_solutions self)).

(** Step 5: blocked agents become active again. *)
Definition tick_unblock (self : DynamicAnnealer) : DynamicAnnealer :=
  with_world self (problem self) (unblock_all (agents self))
             (agent_solutions self).

(** Steps 1 to 5. *)
Definition run_tick (self : DynamicAnnealer) (tick : Z) (g : Random.rng)
  : result (DynamicAnnealer * Random.rng) :=
  '(self2, proposed_moves, g') <- tick_propose self tick g ;;
  '(self3, proposed_moves') <- tick_arbitrate self2 proposed_moves ;;
  self4 <- tick_commit self3 proposed_moves' ;;
  Ok (tick_unblock self4, g').

(** Step 6 *)
Definition all_completed (ags : list Agent) : bool :=
  forallb (fun a => status_eqb (status a) completed) ags.

(** How the loop of [run] was left: the last value bound to [tick] (if the
    body ran at all), the number of iterations done, and whether the loop
    ended by [break]. *)
Record LoopEnd : Type := mkLoopEnd {
  loop_tick : option Z;
  ticks_done : nat;
  broke : bool
}.

Fixpoint run_loop (ticks : list Z) (self : DynamicAnnealer) (g : Random.rng)
  (prev : option Z) (done : nat)
  : result (DynamicAnnealer * Random.rng * LoopEnd) :=
  match ticks with
  | [] => Ok (self, g, mkLoopEnd prev done false)
  | tick :: ticks' =>
      '(self', g') <- run_tick self tick g ;;
      if all_completed (agents self') then
        Ok (self', g', mkLoopEnd (Some tick) (S done) true)
      else run_loop ticks' self' g' (Some tick) (S done)
  end.

(** [DynamicAnnealer.run].  The closing [print] reads [tick], which is
    unbound when the loop body never ran. *)
Definition run (self : DynamicAnnealer) (g : Random.rng)
  : result (DynamicAnnealer * Random.rng * LoopEnd) :=
  '(self', g', e) <- run_loop (range (max_tick self)) self g None 0%nat ;;
  match loop_tick e with
  | None => Raise NameError
  | Some _ => Ok (self', g', e)
  end.

End Annealing.

(** The hook that [services/dynamic_runner.py] installs: at tick 10 it
    removes the edge 1 -> 2; whatever goes wrong inside is caught and logged
    by the hook itself, so it always returns.  (The notification it
    publishes goes to the event bus, outside the core.) *)
Definition on_tick : Hook :=
  fun tick p => Ok (if tick =? 10 then remove_edge p 1 2 else p).

(** ** Vocabulary of the specification *)

(** The agents that propose [node], in the order of the proposals. *)
Definition proposers (pm : moves) (node : Z) : list string :=
  map fst (filter (fun item => snd item =? node) pm).

Definition group_of (pm : moves) (node : Z) : option (list string) :=
  match proposers pm node with
  | [] => None
  | aids => Some aids
  end.

Definition keys {V : Type} (d : list (string * V)) : list string := map fst d.

Definition ids (ags : list Agent) : list string := map id ags.

(** An entry of the reverse map with more than one agent. *)
Definition crowded (item : Z * list string) : bool :=
  (1 <? length (snd item))%nat.

(** Two routes with the same first and the same last element. *)
Definition same_ends (a b : list Z) : Prop :=
  PyList.get b 0 = PyList.get a 0 /\ PyList.get_last b = PyList.get_last a.

(** The scheduler touches an agent only by assigning its status or by
    calling [step_to]. *)
Inductive evolves : Agent -> Agent -> Prop :=
| evolves_refl a : evolves a a
| evolves_status a a' s : evolves a a' -> evolves a (set_status a' s)
| evolves_step a a' n : evolves a a' -> evolves a (step_to a' n).

(** [a'] is [a], or [a] carries an id in [S] and [a'] is [f a]. *)
Definition touched (S : list string) (f : Agent -> Agent) (a a' : Agent)
  : Prop :=
  a' = a \/ (In (id a) S /\ a' = f a).

(** The invariant of the route history. *)
Definition route_inv (a : Agent) : Prop :=
  route a <> []
  /\ PyList.get (route a) 0 = Ok (start_node a)
  /\ PyList.get_last (route a) = Ok (current_node a).

(** [a'] is [a] later in a run: same identity, start and goal, and a route
    history that extends the one of [a]. *)
Definition extends (a a' : Agent) : Prop :=
  id a' = id a /\ start_node a' = start_node a /\ goal_node a' = goal_node a
  /\ exists ext, route a' = route a ++ ext.

(** A hook that returns, and leaves the node list non-empty. *)
Definition hook_behaves (h : option Hook) : Prop :=
  match h with
  | None => True
  | Some callback =>
      forall tick p, nodes p <> [] ->
                     exists p', callback tick p = Ok p' /\ nodes p' <> []
  end.

(** The configurations on which no step of a tick can raise. *)
Definition sane (self : DynamicAnnealer) : Prop :=
  nodes (problem self) <> []
  /\ (0 <= start_temp self)%Q
  /\ (0 <= cooling_rate self)%Q
  /\ hook_behaves (event_callback self).

(** ** Concrete scenarios *)

Module Scenarios.

(** A rational lower bound of the exponential, [max 0 (1 + x) <= e^x],
    exact at 0: a move it accepts is accepted under [math.exp] too. *)
Definition exp_lower (x : Q) : result Q :=
  Ok (if Qltb x (-1) then 0%Q else (1 + x)%Q).

(** Four nodes; the tour 1-2-3-4-1 costs 4, the tour 1-3-2-4-1 costs 5. *)
Definition ring : Problem :=
  Problem_init [1; 2; 3; 4]
    [((1, 2), 1%Q); ((2, 3), 1%Q); ((3, 4), 1%Q); ((4, 1), 1%Q);
     ((1, 3), 2%Q); ((3, 2), 1%Q); ((2, 4), 1%Q)].

Definition walker : Agent := Agent_init "A1" 1 4.

(** One annealing step per agent and tick, the schedule of
    [dynamic_solve] otherwise. *)
Definition ring_annealer : DynamicAnnealer :=
  DynamicAnnealer_init ring [walker] None 3 1 100 (9 # 10) (1 # 100)
                       (5 # 100).

(** Draws: the shuffle leaves 1, 2, 3, 4 in place; 0.5 >= jump_prob selects
    2-opt; the sample is (1, 3); the acceptance draw is 0.0. *)
Definition tape : Random.rng :=
  [3; 2; 1; 4503599627370496; 0; 0; 0]%N.

(** Four nodes and the single edge 3 -> 2. *)
Definition sparse : Problem := Problem_init [1; 2; 3; 4] [((3, 2), 1%Q)].

Definition sparse_annealer : DynamicAnnealer :=
  DynamicAnnealer_init sparse [Agent_init "A1" 1 3] (Some on_tick) 3 1 100
                       (9 # 10) (1 # 100) (5 # 100).

(** A hook that fails on every tick. *)
Definition failing_hook : Hook :=
  fun _ _ => Raise (HookError "edge feed unavailable").

Definition hooked_annealer : DynamicAnnealer :=
  DynamicAnnealer_init ring [walker] (Some failing_hook) 3 1 100 (9 # 10)
                       (1 # 100) (5 # 100).

(** Two agents at node 1; with the draws of [twin_tape] both propose
    node 2. *)
Definition twin_annealer : DynamicAnnealer :=
  DynamicAnnealer_init ring [Agent_init "A1" 1 4; Agent_init "A2" 1 3] None
                       3 0 100 (9 # 10) (1 # 100) (5 # 100).

Definition twin_tape : Random.rng := [3; 2; 1; 3; 2; 1]%N.

(** A closed tour over two nodes, already evaluated. *)
Definition evaluated_triangle : Solution := mkSolution [1; 2; 1] (Some 2%Q).

End Scenarios.

(** ** Further vocabulary *)

(** A digraph as NetworkX keeps it: no node and no edge is stored twice, and
    the endpoints of every edge are nodes. *)
Definition graph_wf (G : DiGraph) : Prop :=
  NoDup (g_nodes G)
  /\ NoDup (map fst (g_edges G))
  /\ forall u v w, In ((u, v), w) (g_edges G) ->
                   In u (g_nodes G) /\ In v (g_nodes G).

(** The generic annealer's cost function returned the candidate [sol] with
    the cost [c], for some candidate it was given. *)
Definition evaluated (self : Annealer.t) (sol : Solution) (c : Q) : Prop :=
  exists cand,
    Annealer.cost_fn self cand (Annealer.problem self) = Ok (sol, c).

(** The generic annealer on the ring graph, with the TSP functions of
    [core/annealer.py] and [core/neighbor.py] plugged in and one iteration. *)
Definition ring_tsp_annealer : Annealer.t :=
  Annealer.mk Scenarios.ring tsp_initial_solution tsp_2opt_neighbor tsp_total_cost
              1 100 (9 # 10) (1 # 100).

(** Draws: the shuffle leaves 1, 2, 3, 4 in place; the sample is (1, 3); the
    acceptance draw is 0.0. *)
Definition short_tape : Random.rng := [3; 2; 1; 0; 0; 0]%N.

(** [a'] is [a] with, at most, another status. *)
Definition stays (a a' : Agent) : Prop :=
  id a' = id a /\ start_node a' = start_node a /\ goal_node a' = goal_node a
  /\ current_node a' = current_node a /\ route a' = route a.

(** [a'] is [a] one hop later, at node [n]. *)
Definition moved (a a' : Agent) (n : Z) : Prop :=
  id a' = id a /\ start_node a' = start_node a /\ goal_node a' = goal_node a
  /\ current_node a' = n /\ route a' = route a ++ [n].

(** An annealer with a budget of zero ticks and one without agents. *)
Definition idle_annealer : DynamicAnnealer :=
  DynamicAnnealer_init Scenarios.ring [Scenarios.walker] None 0 1 100
                       (9 # 10) (1 # 100) (5 # 100).

Definition empty_annealer : DynamicAnnealer :=
  DynamicAnnealer_init Scenarios.ring [] (Some on_tick) 3 1 100
                       (9 # 10) (1 # 100) (5 # 100).

(** *** A tick, agent by agent

    What the steps of a tick do to one agent, given the proposals of the
    tick. *)

Definition mem_str (k : string) (l : list string) : bool :=
  existsb (String.eqb k) l.

(** The agents that propose a move: active and not at their goal. *)
Definition proposes (a : Agent) : bool :=
  status_eqb (status a) active && negb (current_node a =? goal_node a).

(** Step 2: an active agent at its goal is marked completed. *)
Definition propose_agent (a : Agent) : Agent :=
  if status_eqb (status a) active && (current_node a =? goal_node a)
  then set_status a completed else a.

(** Step 3 *)
Definition block_agent (collisions : list string) (a : Agent) : Agent :=
  if mem_str (id a) collisions then set_status a blocked else a.

(** The proposals that survive step 3. *)
Definition surviving (pm : moves) : moves :=
  filter (fun item => negb (mem_str (fst item) (_detect_collisions pm))) pm.

(** Step 4 *)
Definition commit_agent (pm : moves) (a : Agent) : Agent :=
  match PyDict.get String.eqb pm (id a) with
  | Some n => step_to a n
  | None => a
  end.

Definition tick_agent (pm : moves) (a : Agent) : Agent :=
  unblock (commit_agent (surviving pm)
                        (block_agent (_detect_collisions pm)
                                     (propose_agent a))).

(** ** The file-based runner ([services/dynamic_runner.py])

    Reading and parsing the configuration file and writing the result file
    are left out; the runner is modelled on the parsed configuration. *)

(** A parsed configuration: node ids, weighted edges, agent rows
    [(id, (start, goal))] and the optional [mode] entry. *)
Record Config : Type := mkConfig {
  cfg_nodes : list Z;
  cfg_edges : list ((Z * Z) * Q);
  cfg_agents : list (string * (Z * Z));
  cfg_mode : option string
}.

(** [load_problem_yaml] and [load_problem_json] on the parsed file *)
Definition load_problem (cfg : Config) : Problem :=
  Problem_init (cfg_nodes cfg) (cfg_edges cfg).

(** [load_agents_from_config] *)
Definition load_agents_from_config (raw : Config) : list Agent :=
  map (fun row => Agent_init (fst row) (fst (snd row)) (snd (snd row)))
      (cfg_agents raw).

(** Step 3 of [dynamic_solve]: every start and goal is a node id. *)
Fixpoint check_ids (node_ids : list Z) (agents : list Agent) : result unit :=
  match agents with
  | [] => Ok tt
  | ag :: rest =>
      if negb (mem_Z (start_node ag) node_ids)
         || negb (mem_Z (goal_node ag) node_ids)
      then Raise ValueError
      else check_ids node_ids rest
  end.

(** [{ag.id: {"route": ag.route, "status": ag.status} for ag in agents}] *)
Definition report : Type := list (string * (list Z * Status)).

Definition collect_results (agents : list Agent) : report :=
  fold_left (fun d ag => PyDict.set String.eqb d (id ag) (route ag, status ag))
            agents [].

Section Runner.
Variable math_exp : Q -> result Q.

(** [dynamic_solve]; the generator seeded with 42 is the tape [g].  The
    subscription to the event bus only prints and is left out, as is the
    debug dump of the agent fields. *)
Definition dynamic_solve (cfg : Config) (max_tick : Z) (g : Random.rng)
  : result (report * Random.rng) :=
  let world := load_problem cfg in
  let fleet := load_agents_from_config cfg in
  _ <- check_ids (nodes world) fleet ;;
  ' (self', g', _) <-
    run math_exp
        (DynamicAnnealer_init world fleet (Some on_tick) max_tick 200 100
                              (9 # 10) (1 # 100) (1 # 10)) g ;;
  Ok (collect_results (agents self'), g').

End Runner.

(** ** Result formatting ([services/postprocessor.py], [core/optimizer.py]) *)

(** The [Solution] that [format_solution] builds: routes by agent id, the
    cost placeholder and the meta entries. *)
Record AgentSolution : Type := mkAgentSolution {
  agent_routes : report;
  placeholder_cost : Q;
  num_agents : nat;
  num_nodes : nat;
  mode : string
}.

(** [format_solution] *)
Definition format_solution (agents : list Agent) (problem : Problem)
  (config : Config) : AgentSolution :=
  mkAgentSolution (collect_results agents) 0 (length agents)
                  (length (nodes problem))
                  (match cfg_mode config with
                   | Some m => m
                   | None => "dynamic"%string
                   end).

Section Optimizer.
Variable math_exp : Q -> result Q.

(** [optimize_routes]: the solve, then problem and agents loaded again
    from the configuration and formatted. *)
Definition optimize_routes (cfg : Config) (max_tick : Z) (g : Random.rng)
  : result (AgentSolution * Random.rng) :=
  ' (results_dict, g') <- dynamic_solve math_exp cfg max_tick g ;;
  Ok (format_solution (load_agents_from_config cfg) (load_problem cfg) cfg,
      g').

End Optimizer.

(** ** Event bus ([utils/event_bus.py])

    Callbacks are compared by identity; they are modelled by their names.
    The registry maps an event name to its callbacks in subscription
    order. *)

Module EventBus.

Definition registry : Type := list (string * list string).

(** [list.remove]: drops the first occurrence, [ValueError] without one. *)
Fixpoint list_remove (l : list string) (x : string) : result (list string) :=
  match l with
  | [] => Raise ValueError
  | y :: l' =>
      if String.eqb y x then Ok l'
      else l'' <- list_remove l' x ;; Ok (y :: l'')
  end.

Definition subscribe (subs : registry) (event_name callback : string)
  : registry :=
  let subs1 := match PyDict.get String.eqb subs event_name with
               | Some _ => subs
               | None => PyDict.set String.eqb subs event_name []
               end in
  match PyDict.get String.eqb subs1 event_name with
  | Some l => PyDict.set String.eqb subs1 event_name (l ++ [callback])
  | None => subs1
  end.

Definition unsubscribe (subs : registry) (event_name callback : string)
  : result registry :=
  match PyDict.get String.eqb subs event_name with
  | Some l =>
      l' <- list_remove l callback ;;
      Ok (PyDict.set String.eqb subs event_name l')
  | None => Ok subs
  end.

(** [publish]: the callbacks it calls, in order, when none of them
    raises. *)
Definition publish (subs : registry) (event_name : string) : list string :=
  match PyDict.get String.eqb subs event_name with
  | Some l => l
  | None => []
  end.

End EventBus.

(** Every agent row of the configuration starts and ends at a node of the
    configuration. *)
Definition known_nodes (cfg : Config) : Prop :=
  forall row, In row (cfg_agents cfg) ->
              In (fst (snd row)) (cfg_nodes cfg)
              /\ In (snd (snd row)) (cfg_nodes cfg).

(** An agent whose goal is no node of the ring: it never completes. *)
Definition patrol_annealer : DynamicAnnealer :=
  DynamicAnnealer_init Scenarios.ring [Agent_init "A1" 1 9] (Some on_tick) 12
                       1 100 (9 # 10) (1 # 100) (5 # 100).

(** A configuration on which both agents arrive in the first tick. *)
Definition ring_config : Config :=
  mkConfig [1; 2; 3; 4]
           [((1, 2), 1%Q); ((2, 3), 1%Q); ((3, 4), 1%Q); ((4, 1), 1%Q)]
           [("A1"%string, (1, 3)); ("A2"%string, (3, 2))] None.

(** ** The evaluator on binary64 numbers ([core/annealer.py])

    Python's [float] is the IEEE 754 binary64 format, and [+] on floats
    rounds to the nearest float, ties to even.  Here the graph carries
    binary64 weights and [tsp_total_cost] adds them as the code does, on
    the Standard Library's executable specification of the format
    ([prec = 53], [emax = 1024]).  A weight given as an integer enters the
    sum as its float. *)

Module Binary64.

Definition float : Type := SpecFloat.spec_float.

(** [x + y] on floats *)
Definition add : float -> float -> float := SpecFloat.SFadd 53 1024.

(** The float of an integer, and the float that the decimal literal
    [p / q] denotes (the nearest one), for [p] and [q] below [2^53]. *)
Definition of_Z (z : Z) : float :=
  SpecFloat.binary_normalize 53 1024 z 0 false.

Definition of_ratio (p q : Z) : float :=
  SpecFloat.SFdiv 53 1024 (of_Z p) (of_Z q).

(** The literals [0.0] and [1e9] *)
Definition zero : float := SpecFloat.S754_zero false.

Definition penalty : float := of_Z 1000000000.

Definition is_finite (x : float) : bool :=
  match x with
  | SpecFloat.S754_zero _ => true
  | SpecFloat.S754_finite _ _ _ => true
  | _ => false
  end.

(** The number that a finite float stands for. *)
Definition to_Q (x : float) : Q :=
  match x with
  | SpecFloat.S754_finite s m e =>
      let v := if s then Z.neg m else Z.pos m in
      match e with
      | Z.neg k => v # (2 ^ k)
      | _ => inject_Z (v * 2 ^ e)
      end
  | _ => 0
  end.

(** The digraph with its weights, and a candidate, as in the data model. *)
Record DiGraph : Type := mkDiGraph {
  g_nodes : list Z;
  g_edges : list ((Z * Z) * float)
}.

Record Problem : Type := mkProblem {
  nodes : list Z;
  graph : DiGraph
}.

Record Solution : Type := mkSolution {
  routes : list Z;
  total_cost : option float
}.

Fixpoint edge_lookup (es : list ((Z * Z) * float)) (e : Z * Z)
  : option float :=
  match es with
  | [] => None
  | (e', w) :: es' => if edge_eqb e' e then Some w else edge_lookup es' e
  end.

(** [Problem.distance] *)
Definition distance (p : Problem) (source target : Z) : result float :=
  match edge_lookup (g_edges (graph p)) (source, target) with
  | Some w => Ok w
  | None => Raise ValueError
  end.

(** The body of the loop of [tsp_total_cost] at index [i]. *)
Definition cost_step (problem : Problem) (rt : list Z) (total : float)
  (i : nat) : result float :=
  u <- PyList.get rt i ;;
  v <- PyList.get rt (S i) ;;
  match distance problem u v with
  | Ok w => Ok (add total w)
  | Raise ValueError => Ok (add total penalty)
  | Raise e => Raise e
  end.

Fixpoint cost_loop (problem : Problem) (rt : list Z) (total : float)
  (idxs : list nat) : result float :=
  match idxs with
  | [] => Ok total
  | i :: idxs' =>
      total' <- cost_step problem rt total i ;;
      cost_loop problem rt total' idxs'
  end.

(** [tsp_total_cost]: returns the total and the solution object with the
    total written to its [total_cost] field. *)
Definition tsp_total_cost (sol : Solution) (problem : Problem)
  : result (Solution * float) :=
  let rt := routes sol in
  total <- cost_loop problem rt zero (seq 0 (length rt - 1)) ;;
  Ok (mkSolution (routes sol) (Some total), total).

(** The reading of the specification: the cost of one hop; the float sum of
    the hop costs from left to right; and their sum as numbers. *)
Definition hop_cost (problem : Problem) (hop : Z * Z) : float :=
  match edge_lookup (g_edges (graph problem)) hop with
  | Some w => w
  | None => penalty
  end.

Definition rounded_sum (problem : Problem) (rt : list Z) : float :=
  fold_left (fun total hop => add total (hop_cost problem hop)) (hops rt) zero.

Definition exact_sum (problem : Problem) (rt : list Z) : Q :=
  fold_left (fun total hop => (total + to_Q (hop_cost problem hop))%Q)
            (hops rt) 0%Q.

(** The addition [x + y] of two finite floats is finite and does not
    round. *)
Definition exact_add (x y : float) : bool :=
  is_finite x && is_finite y && is_finite (add x y)
  && Qeq_bool (to_Q (add x y)) (to_Q x + to_Q y).

(** No addition of the float sum over [hs], started at [total], rounds. *)
Fixpoint adds_exactly (problem : Problem) (total : float)
  (hs : list (Z * Z)) : bool :=
  match hs with
  | [] => true
  | hop :: hs' =>
      exact_add total (hop_cost problem hop)
      && adds_exactly problem (add total (hop_cost problem hop)) hs'
  end.

End Binary64.

(** One edge, 1 -> 2, of weight 1e-8. *)
Definition faint : Binary64.Problem :=
  Binary64.mkProblem [1; 2; 3]
    (Binary64.mkDiGraph [1; 2; 3]
       [((1, 2), Binary64.of_ratio 1 100000000)]).

(** The edges 1 -> 2, 2 -> 3 and 3 -> 4 of weights 0.1, 0.2 and 0.3. *)
Definition tenths : Binary64.Problem :=
  Binary64.mkProblem [1; 2; 3; 4]
    (Binary64.mkDiGraph [1; 2; 3; 4]
       [((1, 2), Binary64.of_ratio 1 10); ((2, 3), Binary64.of_ratio 2 10);
        ((3, 4), Binary64.of_ratio 3 10)]).

(** The sparse graph of the scenarios: the single edge 3 -> 2 of weight
    1.0. *)
Definition sparse64 : Binary64.Problem :=
  Binary64.mkProblem [1; 2; 3; 4]
    (Binary64.mkDiGraph [1; 2; 3; 4] [((3, 2), Binary64.of_Z 1)]).


(** An agent that arrived at its goal 3 in an earlier run, and an annealer
    that holds it next to the walker. *)
Definition arrived : Agent := mkAgent "A0" 1 3 3 [1; 3] completed.

Definition relay_annealer : DynamicAnnealer :=
  DynamicAnnealer_init Scenarios.ring [arrived; Scenarios.walker] None 3 1 100
                       (9 # 10) (1 # 100) (5 # 100).

(** The agent that has arrived next to one that arrives in the first
    tick. *)
Definition pair_annealer : DynamicAnnealer :=
  DynamicAnnealer_init Scenarios.ring [arrived; Agent_init "A2" 1 3] None 3 1
                       100 (9 # 10) (1 # 100) (5 # 100).


(** * Properties *)

Import Scenarios.

(** ** Python list operations *)

Lemma get_app_at {A : Type} (pre : list A) (x : A) (post : list A) :
  PyList.get (pre ++ x :: post) (length pre) = Ok x.
Proof.
  unfold PyList.get.
  rewrite nth_error_app2 by lia.
  now rewrite Nat.sub_diag.
Qed.

Lemma set_app_at {A : Type} (pre : list A) (x v : A) (post : list A) :
  PyList.set (pre ++ x :: post) (length pre) v = Ok (pre ++ v :: post).
Proof.
  induction pre as [|y pre IH]; simpl.
  - reflexivity.
  - now rewrite IH.
Qed.

Lemma split_at {A : Type} (l : list A) (i : nat) :
  (i < length l)%nat ->
  exists pre x post, l = pre ++ x :: post /\ length pre = i.
Proof.
  intros Hi.
  destruct (nth_error l i) as [x|] eqn:E.
  - apply nth_error_split in E. destruct E as (pre & post & -> & <-).
    now exists pre, x, post.
  - apply nth_error_None in E. lia.
Qed.

Lemma split_at2 {A : Type} (l : list A) (i j : nat) :
  (i < j)%nat -> (j < length l)%nat ->
  exists l1 b l2 a l3,
    l = l1 ++ b :: l2 ++ a :: l3
    /\ length l1 = i /\ length (l1 ++ b :: l2) = j.
Proof.
  intros Hij Hj.
  destruct (split_at l j Hj) as (pre & a & l3 & -> & Hpre).
  assert (Hi : (i < length pre)%nat) by lia.
  destruct (split_at pre i Hi) as (l1 & b & l2 & -> & Hl1).
  exists l1, b, l2, a, l3. rewrite <- app_assoc. auto.
Qed.

Lemma swap_lt {A : Type} (l1 : list A) (b : A) (l2 : list A) (a : A)
  (l3 : list A) :
  PyList.swap (l1 ++ b :: l2 ++ a :: l3) (length l1) (length (l1 ++ b :: l2))
  = Ok (l1 ++ a :: l2 ++ b :: l3).
Proof.
  unfold PyList.swap.
  replace (l1 ++ b :: l2 ++ a :: l3) with ((l1 ++ b :: l2) ++ a :: l3) at 1
    by (rewrite <- app_assoc; reflexivity).
  rewrite get_app_at. cbn [bind].
  rewrite get_app_at. cbn [bind].
  rewrite set_app_at. cbn [bind].
  replace (l1 ++ a :: l2 ++ a :: l3) with ((l1 ++ a :: l2) ++ a :: l3)
    by (rewrite <- app_assoc; reflexivity).
  replace (length (l1 ++ b :: l2)) with (length (l1 ++ a :: l2))
    by (rewrite !length_app; reflexivity).
  rewrite set_app_at. rewrite <- app_assoc. reflexivity.
Qed.

Lemma swap_gt {A : Type} (l1 : list A) (b : A) (l2 : list A) (a : A)
  (l3 : list A) :
  PyList.swap (l1 ++ b :: l2 ++ a :: l3) (length (l1 ++ b :: l2)) (length l1)
  = Ok (l1 ++ a :: l2 ++ b :: l3).
Proof.
  unfold PyList.swap.
  rewrite get_app_at. cbn [bind].
  replace (l1 ++ b :: l2 ++ a :: l3) with ((l1 ++ b :: l2) ++ a :: l3)
    by (rewrite <- app_assoc; reflexivity).
  rewrite get_app_at. cbn [bind].
  rewrite set_app_at. cbn [bind].
  rewrite <- app_assoc. cbn [app].
  now rewrite set_app_at.
Qed.

Lemma swap_same {A : Type} (pre : list A) (x : A) (post : list A) :
  PyList.swap (pre ++ x :: post) (length pre) (length pre)
  = Ok (pre ++ x :: post).
Proof.
  unfold PyList.swap.
  rewrite get_app_at. cbn [bind].
  rewrite set_app_at. cbn [bind].
  now rewrite set_app_at.
Qed.

Lemma perm_exchange {A : Type} (l1 : list A) (b : A) (l2 : list A) (a : A)
  (l3 : list A) :
  Permutation (l1 ++ b :: l2 ++ a :: l3) (l1 ++ a :: l2 ++ b :: l3).
Proof.
  apply Permutation_app_head.
  change (b :: l2 ++ a :: l3) with ((b :: l2) ++ a :: l3).
  rewrite <- Permutation_middle.
  change (a :: l2 ++ b :: l3) with (a :: (l2 ++ b :: l3)).
  apply perm_skip.
  apply Permutation_middle.
Qed.

(** In-range swaps succeed and permute the list. *)
Lemma swap_permutation {A : Type} (l : list A) (i j : nat) :
  (i < length l)%nat -> (j < length l)%nat ->
  exists l', PyList.swap l i j = Ok l'
             /\ Permutation l l' /\ length l' = length l.
Proof.
  intros Hi Hj.
  destruct (Nat.lt_trichotomy i j) as [Hlt | [-> | Hgt]].
  - destruct (split_at2 l i j Hlt Hj) as (l1 & b & l2 & a & l3 & -> & <- & <-).
    eexists. split; [apply swap_lt|]. split.
    + apply perm_exchange.
    + rewrite !length_app. simpl. rewrite !length_app. reflexivity.
  - destruct (split_at l j Hj) as (pre & x & post & -> & <-).
    eexists. split; [apply swap_same|]. split; auto.
  - destruct (split_at2 l j i Hgt Hi) as (l1 & b & l2 & a & l3 & -> & <- & <-).
    eexists. split; [apply swap_gt|]. split.
    + apply perm_exchange.
    + rewrite !length_app. simpl. rewrite !length_app. reflexivity.
Qed.

(** ** The random oracle meets the library's contract *)

Lemma randbelow_lt (n : nat) (g : Random.rng) :
  (0 < n)%nat -> (fst (Random.randbelow n g) < n)%nat.
Proof.
  intros Hn. unfold Random.randbelow.
  destruct (Random.next_draw g) as [d g']. cbn [fst].
  assert (d mod N.of_nat n < N.of_nat n)%N by (apply N.mod_lt; lia).
  lia.
Qed.

Lemma shuffle_from_permutation {A : Type} (i : nat) :
  forall (x : list A) (g : Random.rng),
    (i < length x)%nat \/ i = O ->
    exists x' g', Random.shuffle_from i x g = Ok (x', g')
                  /\ Permutation x x' /\ length x' = length x.
Proof.
  induction i as [|i IH]; intros x g Hi.
  - exists x, g. simpl. auto.
  - cbn [Random.shuffle_from].
    pose proof (randbelow_lt (S (S i)) g ltac:(lia)) as Hj.
    destruct (Random.randbelow (S (S i)) g) as [j g1]. cbn [fst] in Hj.
    destruct (swap_permutation x (S i) j) as (x1 & E1 & P1 & L1); try lia.
    rewrite E1. cbn [bind].
    destruct (IH x1 g1) as (x' & g' & E & P & L); [lia|].
    exists x', g'. rewrite E. split; [reflexivity|]. split.
    + now transitivity x1.
    + congruence.
Qed.

Lemma shuffle_permutation {A : Type} (x : list A) (g : Random.rng) :
  exists x' g', Random.shuffle x g = Ok (x', g')
                /\ Permutation x x' /\ length x' = length x.
Proof.
  unfold Random.shuffle. apply shuffle_from_permutation.
  destruct x; simpl; [right; reflexivity | left; lia].
Qed.

Lemma sorted_sample2_range (lo hi : nat) (g : Random.rng) :
  (lo + 2 <= hi)%nat ->
  exists i j g', Random.sorted_sample2 lo hi g = Ok ((i, j), g')
                 /\ (lo <= i)%nat /\ (i < j)%nat /\ (j < hi)%nat.
Proof.
  intros H. unfold Random.sorted_sample2.
  destruct (Nat.ltb_spec (hi - lo) 2); [lia|].
  pose proof (randbelow_lt (hi - lo) g ltac:(lia)) as Ha.
  destruct (Random.randbelow (hi - lo) g) as [a g1]. cbn [fst] in Ha.
  pose proof (randbelow_lt (hi - lo - 1) g1 ltac:(lia)) as Hb.
  destruct (Random.randbelow (hi - lo - 1) g1) as [b g2]. cbn [fst] in Hb.
  do 3 eexists. split; [reflexivity|].
  destruct (Nat.eqb_spec b a); lia.
Qed.

(** ** Slices *)

Lemma slice_decompose {A : Type} (l : list A) (i j : nat) :
  (i <= j)%nat ->
  l = firstn i l ++ PyList.slice l i j ++ skipn j l.
Proof.
  intros Hij. unfold PyList.slice.
  replace (skipn j l) with (skipn (j - i) (skipn i l)).
  - now rewrite firstn_skipn, firstn_skipn.
  - rewrite skipn_skipn. f_equal. lia.
Qed.

Lemma slice_assign_permutation {A : Type} (l : list A) (i j : nat)
  (seg : list A) :
  (i <= j)%nat -> Permutation (PyList.slice l i j) seg ->
  Permutation l (PyList.slice_assign l i j seg).
Proof.
  intros Hij Hseg.
  rewrite (slice_decompose l i j Hij) at 1.
  unfold PyList.slice_assign.
  apply Permutation_app_head. now apply Permutation_app_tail.
Qed.

Lemma get0_app {A : Type} (l1 l2 : list A) :
  l1 <> [] -> PyList.get (l1 ++ l2) 0 = PyList.get l1 0.
Proof. destruct l1; [congruence | reflexivity]. Qed.

Lemma last_cons_default {A : Type} (l : list A) (x d d' : A) :
  last (x :: l) d = last (x :: l) d'.
Proof.
  revert x. induction l as [|y l IH]; intros x; [reflexivity|].
  change (last (y :: l) d = last (y :: l) d'). apply IH.
Qed.

Lemma last_app_cons {A : Type} (l1 : list A) (y : A) (l2 : list A) (d : A) :
  last (l1 ++ y :: l2) d = last l2 y.
Proof.
  induction l1 as [|x l1 IH].
  - destruct l2 as [|z l2]; [reflexivity|].
    change (last (z :: l2) d = last (z :: l2) y). apply last_cons_default.
  - rewrite <- IH. cbn [app].
    destruct (l1 ++ y :: l2) eqn:E; [destruct l1; discriminate|].
    reflexivity.
Qed.

Lemma get_last_app {A : Type} (l1 l2 : list A) :
  l2 <> [] -> PyList.get_last (l1 ++ l2) = PyList.get_last l2.
Proof.
  intros H2. destruct l2 as [|y l2]; [congruence|]. clear H2.
  destruct l1 as [|x l1]; [reflexivity|].
  cbn [app PyList.get_last]. now rewrite last_app_cons.
Qed.

Lemma skipn_nonempty {A : Type} (l : list A) (j : nat) :
  (j < length l)%nat -> skipn j l <> [].
Proof.
  intros Hj E. apply (f_equal (@length A)) in E.
  rewrite length_skipn in E. simpl in E. lia.
Qed.

Lemma firstn_nonempty {A : Type} (l : list A) (i : nat) :
  (0 < i)%nat -> l <> [] -> firstn i l <> [].
Proof. destruct i, l; simpl; congruence || lia. Qed.

(** Replacing an interior slice keeps both ends of the list. *)
Lemma slice_assign_ends {A : Type} (l : list A) (i j : nat) (seg : list A) :
  (0 < i)%nat -> (j < length l)%nat ->
  PyList.get (PyList.slice_assign l i j seg) 0 = PyList.get l 0
  /\ PyList.get_last (PyList.slice_assign l i j seg) = PyList.get_last l.
Proof.
  intros Hi Hj. unfold PyList.slice_assign.
  assert (Hl : l <> []) by (destruct l; simpl in *; [lia | congruence]).
  split.
  - rewrite get0_app by now apply firstn_nonempty.
    rewrite <- (firstn_skipn i l) at 2.
    now rewrite get0_app by now apply firstn_nonempty.
  - rewrite app_assoc, get_last_app by now apply skipn_nonempty.
    rewrite <- (firstn_skipn j l) at 2.
    now rewrite get_last_app by now apply skipn_nonempty.
Qed.

(** ** Comparisons of rationals *)

Lemma Qltb_lt (x y : Q) : Qltb x y = true <-> (x < y)%Q.
Proof.
  unfold Qltb. rewrite negb_true_iff. split.
  - intros H. apply Qnot_le_lt. intros Hle.
    apply Qle_bool_iff in Hle. congruence.
  - intros H. destruct (Qle_bool y x) eqn:E; [|reflexivity].
    apply Qle_bool_iff in E. exfalso. exact (Qlt_not_le _ _ H E).
Qed.

Lemma Qltb_false (x y : Q) : Qltb x y = false -> (y <= x)%Q.
Proof.
  unfold Qltb. rewrite negb_false_iff. apply Qle_bool_iff.
Qed.

Lemma Qltb_cases (x y : Q) :
  (Qltb x y = true /\ (x < y)%Q) \/ (Qltb x y = false /\ (y <= x)%Q).
Proof.
  destruct (Qltb x y) eqn:E.
  - left. split; [reflexivity | now apply Qltb_lt].
  - right. split; [reflexivity | now apply Qltb_false].
Qed.

(** ** Route cost evaluator *)

Lemma cost_step_hop (problem : Problem) (pre : list Z) (u v : Z)
  (post : list Z) (total : Q) :
  cost_step problem (pre ++ u :: v :: post) total (length pre)
  = Ok (total + hop_cost problem (u, v))%Q.
Proof.
  unfold cost_step.
  rewrite get_app_at. cbn [bind].
  replace (pre ++ u :: v :: post) with ((pre ++ [u]) ++ v :: post)
    by now rewrite <- app_assoc.
  replace (S (length pre)) with (length (pre ++ [u]))
    by (rewrite length_app; simpl; lia).
  rewrite get_app_at. cbn [bind].
  unfold distance, hop_cost.
  now destruct (edge_lookup (g_edges (graph problem)) (u, v)).
Qed.

Lemma cost_loop_hops (problem : Problem) (suffix : list Z) :
  forall (pre : list Z) (total : Q),
    cost_loop problem (pre ++ suffix) total
              (seq (length pre) (length suffix - 1))
    = Ok (fold_left (fun t hop => (t + hop_cost problem hop)%Q)
                    (hops suffix) total).
Proof.
  induction suffix as [|u suffix IH]; intros pre total.
  - reflexivity.
  - destruct suffix as [|v post].
    + reflexivity.
    + replace (length (u :: v :: post) - 1)%nat
        with (S (length (v :: post) - 1)) by (simpl; lia).
      cbn [seq cost_loop hops fold_left].
      rewrite cost_step_hop. cbn [bind].
      specialize (IH (pre ++ [u]) (total + hop_cost problem (u, v))%Q).
      rewrite <- app_assoc in IH. cbn [app] in IH.
      rewrite length_app in IH. cbn [length] in IH.
      rewrite Nat.add_1_r in IH.
      exact IH.
Qed.

Lemma tsp_total_cost_ok (sol : Solution) (problem : Problem) :
  tsp_total_cost sol problem
  = Ok (mkSolution (routes sol) (Some (spec_total_cost problem (routes sol))),
        spec_total_cost problem (routes sol)).
Proof.
  unfold tsp_total_cost.
  pose proof (cost_loop_hops problem (routes sol) [] 0%Q) as H.
  cbn [app length] in H. rewrite H. reflexivity.
Qed.

(** ** Perturbation operators *)

Lemma tsp_2opt_long (cur : Solution) (problem : Problem) (g : Random.rng) :
  (4 <= length (routes cur))%nat ->
  exists out g', tsp_2opt_neighbor cur problem g = Ok (out, g')
                 /\ Permutation (routes cur) (routes out)
                 /\ same_ends (routes cur) (routes out)
                 /\ total_cost out = None.
Proof.
  intros Hn. unfold tsp_2opt_neighbor.
  destruct (Nat.ltb_spec (length (routes cur)) 4); [lia|].
  destruct (sorted_sample2_range 1 (length (routes cur) - 1) g)
    as (i & j & g' & E & Hi & Hij & Hj); [lia|].
  rewrite E. cbn [bind].
  eexists _, g'. split; [reflexivity|]. cbn [routes total_cost].
  split; [|split; [|reflexivity]].
  - apply slice_assign_permutation; [lia|]. apply Permutation_rev.
  - apply slice_assign_ends; lia.
Qed.

Lemma quantum_jump_long (cur : Solution) (problem : Problem) (jump_prob : Q)
  (g : Random.rng) :
  (4 <= length (routes cur))%nat ->
  exists out g', quantum_jump_neighbor cur problem jump_prob g = Ok (out, g')
                 /\ Permutation (routes cur) (routes out)
                 /\ same_ends (routes cur) (routes out)
                 /\ total_cost out = None.
Proof.
  intros Hn. unfold quantum_jump_neighbor.
  destruct (Nat.ltb_spec (length (routes cur)) 4); [lia|].
  destruct (Random.random g) as [u g0].
  destruct (Qle_bool jump_prob u).
  - now apply tsp_2opt_long.
  - destruct (sorted_sample2_range 1 (length (routes cur) - 1) g0)
      as (i & j & g1 & E & Hi & Hij & Hj); [lia|].
    rewrite E. cbn [bind].
    destruct (shuffle_permutation (PyList.slice (routes cur) i j) g1)
      as (seg & g2 & E2 & P2 & _).
    rewrite E2. cbn [bind].
    eexists _, g2. split; [reflexivity|]. cbn [routes total_cost].
    split; [|split; [|reflexivity]].
    + apply slice_assign_permutation; [lia | exact P2].
    + apply slice_assign_ends; lia.
Qed.

(** ** The collision arbiter *)

Lemma proposers_snoc (pm : moves) (aid : string) (node n : Z) :
  proposers (pm ++ [(aid, node)]) n
  = proposers pm n ++ (if node =? n then [aid] else []).
Proof.
  unfold proposers. rewrite filter_app, map_app. cbn [filter snd].
  now destruct (node =? n).
Qed.

Lemma reverse_add_get (rm : list (Z * list string)) (node : Z) (aid : string)
  (n : Z) :
  PyDict.get Z.eqb (reverse_add rm node aid) n
  = if node =? n then
      Some (match PyDict.get Z.eqb rm node with
            | Some aids => aids ++ [aid]
            | None => [aid]
            end)
    else PyDict.get Z.eqb rm n.
Proof.
  induction rm as [|[n' aids] rm IH]; cbn [reverse_add PyDict.get].
  - destruct (Z.eqb_spec node n); reflexivity.
  - destruct (Z.eqb_spec n' node) as [->|Hne]; cbn [PyDict.get].
    + destruct (Z.eqb_spec node n); reflexivity.
    + rewrite IH. destruct (Z.eqb_spec node n) as [E|Hn]; [|reflexivity].
      destruct (Z.eqb_spec n' n); [congruence | reflexivity].
Qed.

Lemma reverse_add_keys (rm : list (Z * list string)) (node : Z)
  (aid : string) :
  NoDup (map fst rm) -> NoDup (map fst (reverse_add rm node aid)).
Proof.
  intros Hnd.
  assert (Hk : map fst (reverse_add rm node aid) = map fst rm
               \/ (map fst (reverse_add rm node aid) = map fst rm ++ [node]
                   /\ ~ In node (map fst rm))).
  { clear Hnd. induction rm as [|[n' aids] rm IH]; cbn [reverse_add map fst].
    - right. split; [reflexivity | intros []].
    - destruct (Z.eqb_spec n' node) as [->|Hne]; cbn [map fst].
      + now left.
      + destruct IH as [-> | [-> Hnot]]; [now left|].
        right. split; [reflexivity|]. intros [H|H]; contradiction. }
  destruct Hk as [-> | [-> Hnot]]; [assumption|].
  apply NoDup_app; [assumption | repeat constructor; intros [] | ].
  intros x Hx [<-|[]]. contradiction.
Qed.

Lemma build_reverse_map_snoc (pm : moves) (aid : string) (node : Z) :
  build_reverse_map (pm ++ [(aid, node)])
  = reverse_add (build_reverse_map pm) node aid.
Proof. unfold build_reverse_map. now rewrite fold_left_app. Qed.

(** The reverse map groups the proposers by target node. *)
Lemma build_reverse_map_groups (pm : moves) :
  NoDup (map fst (build_reverse_map pm))
  /\ forall n, PyDict.get Z.eqb (build_reverse_map pm) n = group_of pm n.
Proof.
  induction pm as [|[aid node] pm [IHk IHg]] using rev_ind.
  - split; [constructor | reflexivity].
  - rewrite build_reverse_map_snoc. split; [now apply reverse_add_keys|].
    intros n. rewrite reverse_add_get. unfold group_of in *.
    rewrite proposers_snoc.
    destruct (Z.eqb_spec node n) as [<-|Hn].
    + rewrite IHg. destruct (proposers pm node); reflexivity.
    + rewrite IHg, app_nil_r. reflexivity.
Qed.

Lemma dict_get_In {V : Type} (d : list (Z * V)) (k : Z) (v : V) :
  NoDup (map fst d) -> (In (k, v) d <-> PyDict.get Z.eqb d k = Some v).
Proof.
  induction d as [|[k' v'] d IH]; cbn [map fst PyDict.get]; intros Hnd.
  - split; [intros [] | discriminate].
  - inversion Hnd as [|? ? Hnot Hnd']; subst.
    destruct (Z.eqb_spec k' k) as [->|Hne].
    + split.
      * intros [E|Hin]; [congruence|].
        exfalso. apply Hnot. now apply (in_map fst) in Hin.
      * intros [= ->]. now left.
    + rewrite <- (IH Hnd'). split.
      * intros [E|Hin]; [congruence | assumption].
      * now right.
Qed.

Lemma collisions_fold (rm : list (Z * list string)) :
  forall (acc : list string) (aid : string),
    In aid (fold_left
              (fun collisions item =>
                 if (1 <? length (snd item))%nat then collisions ++ snd item
                 else collisions) rm acc)
    <-> In aid acc
        \/ exists node aids, In (node, aids) rm
                             /\ (1 < length aids)%nat /\ In aid aids.
Proof.
  induction rm as [|[node aids] rm IH]; intros acc aid; cbn [fold_left snd].
  - split; [now left | intros [H | (? & ? & [] & _)]; exact H].
  - rewrite IH. destruct (Nat.ltb_spec 1 (length aids)) as [Hlen|Hlen].
    + rewrite in_app_iff. split.
      * intros [[H|H] | (n & a & Hin & Hl & Ha)]; [now left | right | right].
        -- exists node, aids. simpl. auto.
        -- exists n, a. simpl. auto.
      * intros [H | (n & a & [E|Hin] & Hl & Ha)].
        -- now left; left.
        -- injection E as <- <-. now left; right.
        -- right. now exists n, a.
    + split.
      * intros [H | (n & a & Hin & Hl & Ha)]; [now left | right].
        exists n, a. simpl. auto.
      * intros [H | (n & a & [E|Hin] & Hl & Ha)].
        -- now left.
        -- injection E as <- <-. lia.
        -- right. now exists n, a.
Qed.

Lemma proposers_In (pm : moves) (node : Z) (aid : string) :
  In aid (proposers pm node) <-> In (aid, node) pm.
Proof.
  unfold proposers. rewrite in_map_iff. split.
  - intros ([a n] & <- & Hin). apply filter_In in Hin.
    destruct Hin as [Hin Hn]. cbn [snd fst] in *.
    apply Z.eqb_eq in Hn. now subst.
  - intros Hin. exists (aid, node). split; [reflexivity|].
    apply filter_In. split; [assumption | apply Z.eqb_refl].
Qed.

Lemma proposers_NoDup (pm : moves) (node : Z) :
  NoDup (map fst pm) -> NoDup (proposers pm node).
Proof.
  unfold proposers. induction pm as [|[a n] pm IH]; cbn [map fst filter snd].
  - constructor.
  - intros Hnd. inversion Hnd as [|? ? Hnot Hnd']; subst.
    destruct (n =? node); [|now apply IH].
    cbn [map fst]. constructor; [|now apply IH].
    intros Hin. apply Hnot. apply in_map_iff in Hin.
    destruct Hin as (x & <- & Hx). apply filter_In in Hx.
    now apply in_map.
Qed.

Lemma two_members {A : Type} (l : list A) (a b : A) :
  In a l -> In b l -> a <> b -> (1 < length l)%nat.
Proof.
  intros Ha Hb Hab. apply in_split in Ha. destruct Ha as (l1 & l2 & ->).
  apply in_elt_inv in Hb. destruct Hb as [E|Hb]; [congruence|].
  rewrite length_app. cbn [length].
  assert (0 < length (l1 ++ l2))%nat by (destruct (l1 ++ l2); simpl in *; [tauto | lia]).
  rewrite length_app in *. lia.
Qed.

Lemma another_member (l : list string) (a : string) :
  NoDup l -> (1 < length l)%nat -> exists b, b <> a /\ In b l.
Proof.
  intros Hnd Hlen. destruct l as [|x [|y l]]; simpl in Hlen; try lia.
  destruct (string_dec x a) as [->|Hx].
  - exists y. split; [|simpl; auto].
    inversion Hnd as [|? ? Hnot _]; subst. intros ->. apply Hnot. now left.
  - exists x. split; [assumption | now left].
Qed.

(** ** Dictionaries keyed by agent id *)

Lemma dict_set_keys {V : Type} (d : list (string * V)) (k : string) (v : V) :
  (forall k', In k' (keys (PyDict.set String.eqb d k v))
              <-> In k' (keys d) \/ k' = k)
  /\ (NoDup (keys d) -> NoDup (keys (PyDict.set String.eqb d k v))).
Proof.
  induction d as [|[k0 v0] d [IHin IHnd]]; cbn [PyDict.set keys map fst].
  - split.
    + intros k'. cbn. intuition congruence.
    + intros _. repeat constructor. intros [].
  - destruct (String.eqb_spec k0 k) as [->|Hne]; cbn [keys map fst].
    + split; [|auto]. intros k'. cbn. intuition congruence.
    + split.
      * intros k'. cbn. fold (keys (PyDict.set String.eqb d k v)).
        rewrite IHin. unfold keys. intuition congruence.
      * intros Hnd. inversion Hnd as [|? ? Hnot Hnd']; subst.
        constructor; [|now apply IHnd].
        fold (keys (PyDict.set String.eqb d k v)). rewrite IHin.
        intros [H|H]; [contradiction | congruence].
Qed.

Lemma dict_del_ok {V : Type} (d : list (string * V)) (k : string) :
  In k (keys d) ->
  exists d', PyDict.del String.eqb d k = Ok d'
             /\ (NoDup (keys d) ->
                 NoDup (keys d')
                 /\ forall k', In k' (keys d') <-> In k' (keys d) /\ k' <> k).
Proof.
  induction d as [|[k0 v0] d IH]; cbn [PyDict.del keys map fst]; [intros []|].
  intros Hin. destruct (String.eqb_spec k0 k) as [->|Hne].
  - exists d. split; [reflexivity|]. intros Hnd.
    inversion Hnd as [|? ? Hnot Hnd']; subst. split; [assumption|].
    intros k'. cbn. unfold keys. split.
    + intros H. split; [now right | congruence].
    + intros [[E|H] Hk]; [congruence | assumption].
  - destruct Hin as [E|Hin]; [congruence|].
    destruct (IH Hin) as (d' & -> & Hd'). cbn [bind].
    eexists. split; [reflexivity|]. intros Hnd.
    inversion Hnd as [|? ? Hnot Hnd']; subst.
    destruct (Hd' Hnd') as [Hnd'' Hk]. cbn [keys map fst].
    fold (keys d'). split.
    + constructor; [|assumption]. rewrite Hk. tauto.
    + intros k'. cbn. fold (keys d). rewrite Hk.
      intuition congruence.
Qed.

(** ** The collision list has no repetition *)

Lemma collisions_concat (rm : list (Z * list string)) :
  forall acc,
    fold_left
      (fun collisions item =>
         if (1 <? length (snd item))%nat then collisions ++ snd item
         else collisions) rm acc
    = acc ++ concat (map snd (filter crowded rm)).
Proof.
  induction rm as [|item rm IH]; intros acc; cbn [fold_left filter].
  - now rewrite app_nil_r.
  - rewrite IH. unfold crowded at 2.
    destruct (1 <? length (snd item))%nat; [|reflexivity].
    cbn [map concat]. now rewrite app_assoc.
Qed.

Lemma reverse_add_concat (rm : list (Z * list string)) (node : Z)
  (aid : string) :
  Permutation (concat (map snd (reverse_add rm node aid)))
              (aid :: concat (map snd rm)).
Proof.
  induction rm as [|[n aids] rm IH]; cbn [reverse_add map snd concat].
  - reflexivity.
  - destruct (n =? node); cbn [map snd concat].
    + rewrite <- app_assoc. cbn [app].
      symmetry. apply Permutation_middle.
    + rewrite IH. symmetry. apply Permutation_middle.
Qed.

Lemma build_reverse_map_concat (pm : moves) :
  Permutation (concat (map snd (build_reverse_map pm))) (keys pm).
Proof.
  induction pm as [|[aid node] pm IH] using rev_ind; [reflexivity|].
  rewrite build_reverse_map_snoc, reverse_add_concat, IH.
  unfold keys. rewrite map_app. cbn [map fst].
  apply Permutation_cons_append.
Qed.

Lemma NoDup_app_disjoint {A : Type} (l1 l2 : list A) (a : A) :
  NoDup (l1 ++ l2) -> In a l1 -> ~ In a l2.
Proof.
  induction l1 as [|x l1 IH]; cbn [app]; [intros _ []|].
  intros Hnd [->|Hin] H2; inversion Hnd as [|? ? Hnot Hnd']; subst.
  - apply Hnot, in_or_app. now right.
  - exact (IH Hnd' Hin H2).
Qed.

Lemma NoDup_concat_filter {A B : Type} (f : B * list A -> bool)
  (l : list (B * list A)) :
  NoDup (concat (map snd l)) -> NoDup (concat (map snd (filter f l))).
Proof.
  induction l as [|x l IH]; cbn [filter map concat]; [auto|].
  intros Hnd. pose proof (NoDup_app_remove_l _ _ Hnd) as Hl.
  destruct (f x); [|now apply IH]. cbn [map concat].
  apply NoDup_app.
  - now apply NoDup_app_remove_r in Hnd.
  - now apply IH.
  - intros a Ha Hc.
    assert (Hin : In a (concat (map snd l))).
    { apply in_concat in Hc. destruct Hc as (s & Hs & Has).
      apply in_map_iff in Hs. destruct Hs as (y & <- & Hy).
      apply filter_In in Hy. apply in_concat. exists (snd y).
      split; [apply in_map; tauto | assumption]. }
    exact (NoDup_app_disjoint _ _ a Hnd Ha Hin).
Qed.

Lemma detect_collisions_NoDup (pm : moves) :
  NoDup (keys pm) ->
  NoDup (_detect_collisions pm) /\ incl (_detect_collisions pm) (keys pm).
Proof.
  intros Hnd. unfold _detect_collisions. rewrite collisions_concat.
  cbn [app].
  assert (Hall : NoDup (concat (map snd (build_reverse_map pm)))).
  { eapply Permutation_NoDup; [symmetry; apply build_reverse_map_concat|].
    assumption. }
  split; [now apply NoDup_concat_filter|].
  intros a Ha.
  eapply Permutation_in; [apply build_reverse_map_concat|].
  apply in_concat in Ha. destruct Ha as (s & Hs & Has).
  apply in_map_iff in Hs. destruct Hs as (y & <- & Hy).
  apply filter_In in Hy. apply in_concat. exists (snd y).
  split; [apply in_map; tauto | assumption].
Qed.

(** ** What a run can do to an agent *)

#[local] Hint Constructors evolves : core.

Lemma evolves_trans (a b c : Agent) : evolves a b -> evolves b c -> evolves a c.
Proof. intros Hab Hbc. induction Hbc; auto. Qed.

Lemma Forall2_evolves_refl (ags : list Agent) : Forall2 evolves ags ags.
Proof. induction ags; constructor; auto. Qed.

Lemma Forall2_evolves_trans (l1 l2 l3 : list Agent) :
  Forall2 evolves l1 l2 -> Forall2 evolves l2 l3 -> Forall2 evolves l1 l3.
Proof.
  intros H12. revert l3.
  induction H12 as [|a b l1 l2 Hab _ IH]; intros l3 H23;
    inversion H23; subst; constructor.
  - eapply evolves_trans; eassumption.
  - now apply IH.
Qed.

Ltac bind_cases H :=
  match type of H with
  | bind ?m _ = Ok _ =>
      let E := fresh "E" in
      destruct m eqn:E; cbn [bind] in H; [|discriminate H]
  end.

Section Scheduler.
Variable math_exp : Q -> result Q.

Lemma propose_one_evolves self agent pm g sols agent' pm' g' sols' :
  propose_one math_exp self agent pm g sols = Ok (agent', pm', g', sols') ->
  evolves agent agent'.
Proof.
  unfold propose_one. intros H.
  destruct (negb (status_eqb (status agent) active)); [injection H as <-; auto|].
  destruct (current_node agent =? goal_node agent); [injection H as <-; auto|].
  bind_cases H. destruct a as [best g1].
  destruct (PyList.index (routes best) (current_node agent)) as [idx|e].
  - destruct (length (routes best) =? 0)%nat; [discriminate|].
    bind_cases H. injection H as <-. auto.
  - destruct e; try discriminate.
    bind_cases H. destruct a as [|n ns]; [injection H as <-; auto|].
    bind_cases H. destruct a as [nx g2]. injection H as <-. auto.
Qed.

Lemma propose_all_evolves self ags :
  forall pm g sols ags' pm' g' sols',
    propose_all math_exp self ags pm g sols = Ok (ags', pm', g', sols') ->
    Forall2 evolves ags ags'.
Proof.
  induction ags as [|agent rest IH]; intros pm g sols ags' pm' g' sols' H;
    cbn [propose_all] in H.
  - injection H as <-. constructor.
  - bind_cases H. destruct a as [[[agent1 pm1] g1] sols1].
    bind_cases H. destruct a as [[[rest1 pm2] g2] sols2].
    injection H as <-. constructor.
    + eapply propose_one_evolves; eassumption.
    + eapply IH; eassumption.
Qed.

Lemma update_first_evolves aid (f : Agent -> Agent) ags :
  (forall a, evolves a (f a)) ->
  forall ags', update_first aid f ags = Ok ags' -> Forall2 evolves ags ags'.
Proof.
  intros Hf. induction ags as [|a rest IH]; intros ags' H;
    cbn [update_first] in H; [discriminate|].
  destruct (String.eqb (id a) aid).
  - injection H as <-. constructor; [apply Hf | apply Forall2_evolves_refl].
  - bind_cases H. injection H as <-. constructor; auto.
Qed.

Lemma block_collisions_evolves collisions :
  forall pm ags pm' ags',
    block_collisions collisions pm ags = Ok (pm', ags') ->
    Forall2 evolves ags ags'.
Proof.
  induction collisions as [|aid rest IH]; intros pm ags pm' ags' H;
    cbn [block_collisions] in H.
  - injection H as _ <-. apply Forall2_evolves_refl.
  - bind_cases H. bind_cases H.
    eapply Forall2_evolves_trans; [|eapply IH; eassumption].
    eapply update_first_evolves; [|eassumption]. intros; cbn; auto.
Qed.

Lemma commit_moves_evolves items :
  forall ags ags', commit_moves items ags = Ok ags' -> Forall2 evolves ags ags'.
Proof.
  induction items as [|[aid n] rest IH]; intros ags ags' H;
    cbn [commit_moves] in H.
  - injection H as <-. apply Forall2_evolves_refl.
  - bind_cases H.
    eapply Forall2_evolves_trans; [|eapply IH; eassumption].
    eapply update_first_evolves; [|eassumption]. intros; cbn; auto.
Qed.

Lemma unblock_all_evolves ags : Forall2 evolves ags (unblock_all ags).
Proof.
  induction ags as [|a ags IH]; cbn; constructor; [|exact IH].
  unfold unblock. destruct (status_eqb (status a) blocked); auto.
Qed.

Lemma run_tick_phases self tick g self' g' :
  run_tick math_exp self tick g = Ok (self', g') ->
  exists self2 pm self3 pm3 self4,
    tick_propose math_exp self tick g = Ok (self2, pm, g')
    /\ tick_arbitrate self2 pm = Ok (self3, pm3)
    /\ tick_commit self3 pm3 = Ok self4
    /\ self' = tick_unblock self4.
Proof.
  unfold run_tick. intros H.
  bind_cases H. destruct a as [[self2 pm] g2].
  bind_cases H. destruct a as [self3 pm3].
  bind_cases H. injection H as <- <-.
  now exists self2, pm, self3, pm3, a.
Qed.

Lemma tick_propose_evolves self tick g self2 pm g2 :
  tick_propose math_exp self tick g = Ok (self2, pm, g2) ->
  Forall2 evolves (agents self) (agents self2).
Proof.
  unfold tick_propose. intros H.
  bind_cases H. bind_cases H. destruct a0 as [[[ags2 pm2] g2'] sols2].
  injection H as <- _ _. cbn [agents with_world] in *.
  eapply propose_all_evolves; eassumption.
Qed.

Lemma tick_arbitrate_evolves self pm self3 pm3 :
  tick_arbitrate self pm = Ok (self3, pm3) ->
  Forall2 evolves (agents self) (agents self3).
Proof.
  unfold tick_arbitrate. intros H.
  bind_cases H. destruct a as [pm' ags]. injection H as <- _.
  cbn [agents with_world]. eapply block_collisions_evolves; eassumption.
Qed.

Lemma tick_commit_evolves self pm self4 :
  tick_commit self pm = Ok self4 ->
  Forall2 evolves (agents self) (agents self4).
Proof.
  unfold tick_commit. intros H. bind_cases H. injection H as <-.
  cbn [agents with_world]. eapply commit_moves_evolves; eassumption.
Qed.

Lemma run_tick_evolves self tick g self' g' :
  run_tick math_exp self tick g = Ok (self', g') ->
  Forall2 evolves (agents self) (agents self').
Proof.
  intros H.
  destruct (run_tick_phases _ _ _ _ _ H)
    as (self2 & pm & self3 & pm3 & self4 & H2 & H3 & H4 & ->).
  eapply Forall2_evolves_trans; [eapply tick_propose_evolves; eassumption|].
  eapply Forall2_evolves_trans; [eapply tick_arbitrate_evolves; eassumption|].
  eapply Forall2_evolves_trans; [eapply tick_commit_evolves; eassumption|].
  apply unblock_all_evolves.
Qed.

Lemma run_loop_evolves ticks :
  forall self g prev done self' g' e,
    run_loop math_exp ticks self g prev done = Ok (self', g', e) ->
    Forall2 evolves (agents self) (agents self').
Proof.
  induction ticks as [|tick ticks IH]; intros self g prev done self' g' e H;
    cbn [run_loop] in H.
  - injection H as <- _ _. apply Forall2_evolves_refl.
  - bind_cases H. destruct a as [self1 g1].
    pose proof (run_tick_evolves _ _ _ _ _ E) as H1.
    destruct (all_completed (agents self1)).
    + injection H as <- _ _. exact H1.
    + eapply Forall2_evolves_trans; [exact H1|]. eapply IH; eassumption.
Qed.

Lemma run_evolves self g self' g' e :
  run math_exp self g = Ok (self', g', e) ->
  Forall2 evolves (agents self) (agents self').
Proof.
  unfold run. intros H. bind_cases H. destruct a as [[self1 g1] e1].
  destruct (loop_tick e1); [|discriminate]. injection H as <- _ _.
  eapply run_loop_evolves; eassumption.
Qed.

End Scheduler.

(** ** Route history *)

Lemma Agent_init_route_inv aid start goal : route_inv (Agent_init aid start goal).
Proof. repeat split. discriminate. Qed.

Lemma step_to_fields (a : Agent) (n : Z) :
  id (step_to a n) = id a
  /\ start_node (step_to a n) = start_node a
  /\ goal_node (step_to a n) = goal_node a
  /\ current_node (step_to a n) = n
  /\ route (step_to a n) = route a ++ [n]
  /\ status (step_to a n) = if n =? goal_node a then completed else status a.
Proof.
  unfold step_to. cbn. destruct (n =? goal_node a); cbn; repeat split.
Qed.

Lemma step_to_route_inv (a : Agent) (n : Z) :
  route_inv a -> route_inv (step_to a n).
Proof.
  intros (Hne & H0 & Hl).
  destruct (step_to_fields a n) as (_ & Hs & _ & Hc & Hr & _).
  unfold route_inv. rewrite Hs, Hc, Hr. repeat split.
  - destruct (route a); discriminate.
  - now rewrite get0_app.
  - now rewrite get_last_app by discriminate.
Qed.

Lemma evolves_extends (a a' : Agent) :
  evolves a a' -> extends a a' /\ (route_inv a -> route_inv a').
Proof.
  induction 1 as [a | a a' s _ [(Hi & Hs & Hg & ext & Hr) Hinv]
                    | a a' n _ [(Hi & Hs & Hg & ext & Hr) Hinv]].
  - split; [|auto]. repeat split. exists []. now rewrite app_nil_r.
  - split; [|exact Hinv]. repeat split; auto. now exists ext.
  - destruct (step_to_fields a' n) as (Hi' & Hs' & Hg' & _ & Hr' & _).
    split; [|intros; apply step_to_route_inv; auto].
    repeat split; try congruence.
    exists (ext ++ [n]). rewrite Hr', Hr. now rewrite app_assoc.
Qed.

Lemma Forall2_evolves_extends (ags ags' : list Agent) :
  Forall2 evolves ags ags' ->
  Forall2 extends ags ags' /\ (Forall route_inv ags -> Forall route_inv ags').
Proof.
  induction 1 as [|a a' ags ags' Ha _ [IH1 IH2]].
  - split; [constructor | auto].
  - destruct (evolves_extends _ _ Ha) as [He Hi]. split.
    + now constructor.
    + intros Hall. inversion Hall; subst. constructor; auto.
Qed.

(** ** The phases of a tick *)

Lemma evolves_ids (ags ags' : list Agent) :
  Forall2 evolves ags ags' -> ids ags' = ids ags.
Proof.
  intros H. apply Forall2_evolves_extends in H. destruct H as [H _].
  unfold ids.
  induction H as [|a a' l l' (Hid & _) _ IH]; cbn [map]; [reflexivity|].
  now rewrite Hid, IH.
Qed.

Lemma get_ok {A : Type} (l : list A) (i : nat) :
  (i < length l)%nat -> exists x, PyList.get l i = Ok x.
Proof.
  intros Hi. destruct (split_at l i Hi) as (pre & x & post & -> & <-).
  exists x. apply get_app_at.
Qed.

Lemma update_first_touched (aid : string) (f : Agent -> Agent)
  (ags : list Agent) :
  forall ags', update_first aid f ags = Ok ags' ->
               Forall2 (touched [aid] f) ags ags'.
Proof.
  induction ags as [|a rest IH]; intros ags' H; cbn [update_first] in H;
    [discriminate|].
  destruct (String.eqb_spec (id a) aid) as [Heq|Hne].
  - injection H as <-. constructor.
    + right. split; [now left | reflexivity].
    + clear. induction rest; constructor; [now left | assumption].
  - bind_cases H. injection H as <-. constructor; [now left | now apply IH].
Qed.

Lemma update_first_ok (aid : string) (f : Agent -> Agent) (ags : list Agent) :
  In aid (ids ags) -> exists ags', update_first aid f ags = Ok ags'.
Proof.
  induction ags as [|a rest IH]; cbn [ids map update_first]; [intros []|].
  intros Hin. destruct (String.eqb_spec (id a) aid) as [Heq|Hne].
  - now eexists.
  - destruct Hin as [E|Hin]; [congruence|].
    destruct (IH Hin) as (rest' & ->). now eexists.
Qed.

Section Phases.
Variable math_exp : Q -> result Q.

Lemma propose_one_moves self agent pm g sols agent' pm' g' sols' :
  propose_one math_exp self agent pm g sols = Ok (agent', pm', g', sols') ->
  pm' = pm \/ exists n, pm' = PyDict.set String.eqb pm (id agent) n.
Proof.
  unfold propose_one. intros H.
  destruct (negb (status_eqb (status agent) active));
    [injection H as _ <- _ _; now left|].
  destruct (current_node agent =? goal_node agent);
    [injection H as _ <- _ _; now left|].
  bind_cases H. destruct a as [best g1].
  destruct (PyList.index (routes best) (current_node agent)) as [idx|e].
  - destruct (length (routes best) =? 0)%nat; [discriminate|].
    bind_cases H. injection H as _ <- _ _. right. now eexists.
  - destruct e; try discriminate.
    bind_cases H. destruct a as [|n ns]; [injection H as _ <- _ _; now left|].
    bind_cases H. destruct a as [nx g2]. injection H as _ <- _ _.
    right. now eexists.
Qed.

Lemma propose_all_keys self ags :
  forall pm g sols ags' pm' g' sols',
    propose_all math_exp self ags pm g sols = Ok (ags', pm', g', sols') ->
    (NoDup (keys pm) -> NoDup (keys pm'))
    /\ (forall k, In k (keys pm') -> In k (keys pm) \/ In k (ids ags)).
Proof.
  induction ags as [|agent rest IH]; intros pm g sols ags' pm' g' sols' H;
    cbn [propose_all] in H.
  - injection H as _ <- _ _. split; auto.
  - bind_cases H. destruct a as [[[agent1 pm1] g1] sols1].
    bind_cases H. destruct a as [[[rest1 pm2] g2] sols2].
    injection H as _ <- _ _.
    destruct (IH _ _ _ _ _ _ _ E0) as [Hnd Hk].
    apply propose_one_moves in E. cbn [ids map].
    destruct E as [->|[n ->]].
    + split; [assumption|]. intros k Hin.
      destruct (Hk k Hin); [now left | now right; right].
    + destruct (dict_set_keys pm (id agent) n) as [Hin Hnd1]. split.
      * auto.
      * intros k Hk2. destruct (Hk k Hk2) as [H|H]; [|now right; right].
        apply Hin in H. destruct H as [H| ->]; [now left | now right; left].
Qed.

Lemma block_collisions_touched collisions :
  forall pm ags pm' ags',
    block_collisions collisions pm ags = Ok (pm', ags') ->
    Forall2 (touched collisions (fun a => set_status a blocked)) ags ags'
    /\ (NoDup (keys pm) ->
        NoDup (keys pm')
        /\ forall k, In k (keys pm') -> In k (keys pm) /\ ~ In k collisions).
Proof.
  induction collisions as [|aid rest IH]; intros pm ags pm' ags' H;
    cbn [block_collisions] in H.
  - injection H as <- <-. split.
    + clear. induction ags; constructor; [now left | assumption].
    + intros Hnd. split; [assumption|]. intros k Hk. split; [assumption | intros []].
  - bind_cases H. bind_cases H.
    destruct (IH _ _ _ _ H) as [Ht Hk]. split.
    + apply update_first_touched in E0. clear - E0 Ht.
      revert ags' Ht. induction E0 as [|x y l l' Hxy _ IHl]; intros ags' Ht;
        inversion Ht as [|? z ? l'' Hyz Hrest]; subst; constructor.
      * unfold touched in *. cbn [In] in *.
        destruct Hxy as [->|[[Ha|[]] ->]]; destruct Hyz as [->|[Hin ->]];
          cbn [id set_status] in *; auto.
      * now apply IHl.
    + intros Hnd.
      assert (Hin : In aid (keys pm)).
      { clear - E. revert a E. induction pm as [|[k0 v0] pm IHp];
          intros a E; cbn [PyDict.del] in E; [discriminate|].
        destruct (String.eqb_spec k0 aid) as [->|Hne]; [now left|].
        bind_cases E. right. now apply (IHp a0). }
      destruct (dict_del_ok pm aid Hin) as (d' & Ed & Hd).
      rewrite E in Ed. injection Ed as <-.
      destruct (Hd Hnd) as [Hnd1 Hk1].
      destruct (Hk Hnd1) as [Hnd2 Hk2]. split; [assumption|].
      intros k Hkin. destruct (Hk2 k Hkin) as [Hka Hkr].
      apply Hk1 in Hka. destruct Hka as [Hka Hne].
      split; [assumption|]. intros [->|Hr]; [congruence | contradiction].
Qed.

Lemma block_collisions_ok collisions :
  forall pm ags,
    NoDup collisions -> incl collisions (keys pm) -> NoDup (keys pm) ->
    incl (keys pm) (ids ags) ->
    exists pm' ags', block_collisions collisions pm ags = Ok (pm', ags').
Proof.
  induction collisions as [|aid rest IH]; intros pm ags Hc Hincl Hnd Hids;
    cbn [block_collisions].
  - now do 2 eexists.
  - inversion Hc as [|? ? Hnot Hc']; subst.
    destruct (dict_del_ok pm aid (Hincl aid (or_introl eq_refl)))
      as (pm1 & -> & Hd).
    destruct (Hd Hnd) as [Hnd1 Hk1]. cbn [bind].
    destruct (update_first_ok aid (fun a => set_status a blocked) ags)
      as (ags1 & E1); [apply Hids, Hincl; now left|].
    rewrite E1. cbn [bind].
    apply IH; try assumption.
    + intros k Hk. apply Hk1. split; [apply Hincl; now right|].
      intros ->. contradiction.
    + assert (Hi : ids ags1 = ids ags).
      { apply evolves_ids. eapply update_first_evolves; [|eassumption].
        intros; cbn; constructor; constructor. }
      rewrite Hi. intros k Hk. apply Hids. now apply Hk1 in Hk.
Qed.

Lemma commit_moves_touched items :
  forall ags ags',
    commit_moves items ags = Ok ags' ->
    Forall2 (fun a a' => a' = a \/ In (id a) (keys items)) ags ags'.
Proof.
  induction items as [|[aid n] rest IH]; intros ags ags' H;
    cbn [commit_moves] in H.
  - injection H as <-. clear. induction ags; constructor; auto.
  - bind_cases H. pose proof (update_first_touched _ _ _ _ E) as Ht.
    specialize (IH _ _ H). clear - Ht IH. cbn [keys map fst].
    revert ags' IH. induction Ht as [|x y l l' Hxy _ IHl]; intros ags' H2;
      inversion H2 as [|? z ? l'' Hyz Hrest]; subst; constructor.
    + unfold touched in Hxy. cbn [In] in *.
      destruct (step_to_fields x n) as (Hidx & _).
      destruct Hxy as [->|[[Ha|[]] ->]]; destruct Hyz as [->|Hin];
        rewrite ?Hidx in *; auto.
    + now apply IHl.
Qed.

Lemma commit_moves_ok items :
  forall ags, incl (keys items) (ids ags) ->
              exists ags', commit_moves items ags = Ok ags'.
Proof.
  induction items as [|[aid n] rest IH]; intros ags Hincl;
    cbn [commit_moves].
  - now eexists.
  - destruct (update_first_ok aid (fun a => step_to a n) ags) as (ags1 & E1);
      [apply Hincl; now left|].
    rewrite E1. cbn [bind]. apply IH.
    assert (Hi : ids ags1 = ids ags).
    { apply evolves_ids. eapply update_first_evolves; [|eassumption].
      intros; cbn; constructor; constructor. }
    rewrite Hi. intros k Hk. apply Hincl. now right.
Qed.
End Phases.

(** ** Blocking *)

Lemma unblock_not_blocked (a : Agent) : status (unblock a) <> blocked.
Proof.
  unfold unblock. destruct (status a) eqn:E; cbn; rewrite ?E; discriminate.
Qed.

Lemma unblock_spec (a : Agent) :
  (status a = blocked -> unblock a = set_status a active)
  /\ (status a <> blocked -> unblock a = a).
Proof.
  unfold unblock. destruct (status a); cbn; split; congruence.
Qed.


Section SchedulerLoop.
Variable math_exp : Q -> result Q.

Lemma run_tick_config self tick g self' g' :
  run_tick math_exp self tick g = Ok (self', g') ->
  event_callback self' = event_callback self
  /\ max_tick self' = max_tick self.
Proof.
  intros H.
  destruct (run_tick_phases _ _ _ _ _ _ H)
    as (self2 & pm & self3 & pm3 & self4 & H2 & H3 & H4 & ->).
  unfold tick_propose in H2. bind_cases H2. bind_cases H2.
  destruct a0 as [[[ags2 pm2] g2'] sols2]. injection H2 as <- _ _.
  unfold tick_arbitrate in H3. bind_cases H3. destruct a0 as [pm' ags].
  injection H3 as <- _.
  unfold tick_commit in H4. bind_cases H4. injection H4 as <-.
  split; reflexivity.
Qed.

Lemma run_tick_no_blocked self tick g self' g' :
  run_tick math_exp self tick g = Ok (self', g') ->
  Forall (fun a => status a <> blocked) (agents self').
Proof.
  intros H.
  destruct (run_tick_phases _ _ _ _ _ _ H) as (_ & _ & _ & _ & s4 & _ & _ & _ & ->).
  cbn [tick_unblock agents with_world]. apply Forall_forall. intros a Ha. apply in_map_iff in Ha.
  destruct Ha as (a0 & <- & _). apply unblock_not_blocked.
Qed.

(** How the loop ends, for the ticks [done, done + 1, ...]. *)
Lemma run_loop_end (k : nat) :
  forall (done : nat) self g prev self' g' e,
    run_loop math_exp (map Z.of_nat (seq done k)) self g prev done
    = Ok (self', g', e) ->
    (done <= ticks_done e <= done + k)%nat
    /\ event_callback self' = event_callback self
    /\ max_tick self' = max_tick self
    /\ loop_tick e = (if (ticks_done e =? done)%nat then prev
                      else Some (Z.of_nat (ticks_done e) - 1))
    /\ (broke e = true ->
        (done < ticks_done e)%nat /\ all_completed (agents self') = true)
    /\ (broke e = false ->
        ticks_done e = (done + k)%nat
        /\ match k with
           | O => self' = self
           | S _ => all_completed (agents self') = false
           end)
    /\ ((0 < k)%nat \/ Forall (fun a => status a <> blocked) (agents self) ->
        Forall (fun a => status a <> blocked) (agents self')).
Proof.
  induction k as [|k IH]; intros done self g prev self' g' e H;
    cbn [seq map run_loop] in H.
  - injection H as <- _ <-. cbn [ticks_done loop_tick broke].
    rewrite Nat.eqb_refl.
    split; [lia|]. do 3 (split; [reflexivity|]).
    split; [discriminate|]. split; [intros _; split; [lia | reflexivity]|].
    intros [?|?]; [lia | assumption].
  - bind_cases H. destruct a as [self1 g1].
    pose proof (run_tick_no_blocked _ _ _ _ _ E) as Hnb.
    destruct (run_tick_config _ _ _ _ _ E) as (Hcb & Hmt).
    destruct (all_completed (agents self1)) eqn:Hall.
    + injection H as <- _ <-. cbn [ticks_done loop_tick broke].
      destruct (Nat.eqb_spec (S done) done); [lia|].
      split; [lia|]. do 2 (split; [assumption|]).
      split; [f_equal; lia|].
      split; [intros _; split; [lia | assumption]|].
      split; [discriminate | intros _; assumption].
    + apply IH in H.
      destruct H as (Hd & Hcb' & Hmt' & Hlt & Hb & Hnb' & Hblk).
      split; [lia|]. do 2 (split; [congruence|]).
      split; [|split; [|split]].
      * rewrite Hlt.
        destruct (Nat.eqb_spec (ticks_done e) (S done)) as [Heq|Hne];
          destruct (Nat.eqb_spec (ticks_done e) done); try lia; try reflexivity.
        f_equal. lia.
      * intros Hbr. destruct (Hb Hbr). split; [lia | assumption].
      * intros Hbr. destruct (Hnb' Hbr) as [Hd' Hk]. split; [lia|].
        destruct k; [now subst | assumption].
      * intros _. apply Hblk. now right.
Qed.

Lemma run_end self g self' g' e :
  run math_exp self g = Ok (self', g', e) ->
  (1 <= ticks_done e <= Z.to_nat (max_tick self))%nat
  /\ loop_tick e = Some (Z.of_nat (ticks_done e) - 1)
  /\ (broke e = true <-> all_completed (agents self') = true)
  /\ (broke e = false -> ticks_done e = Z.to_nat (max_tick self))
  /\ Forall (fun a => status a <> blocked) (agents self').
Proof.
  unfold run, range. intros H. bind_cases H. destruct a as [[self1 g1] e1].
  destruct (loop_tick e1) as [t|] eqn:Ht; [|discriminate].
  injection H as <- _ <-.
  apply run_loop_end in E.
  destruct E as (Hd & _ & _ & Hlt & Hb & Hnb & Hblk).
  rewrite Ht in Hlt.
  destruct (Nat.eqb_spec (ticks_done e1) 0) as [H0|H0]; [discriminate|].
  split; [lia|]. split; [congruence|]. split; [|split].
  - split; [apply Hb|]. intros Hall.
    destruct (broke e1) eqn:Hbr; [reflexivity|].
    destruct (Hnb eq_refl) as [Hk Hm].
    destruct (Z.to_nat (max_tick self)); [lia | congruence].
  - intros Hbr. now destruct (Hnb Hbr).
  - apply Hblk. left. lia.
Qed.

(** The loop over a concatenation of tick lists. *)
Lemma run_loop_app (pre post : list Z) :
  forall self g prev done,
    run_loop math_exp (pre ++ post) self g prev done
    = '(self1, g1, e1) <- run_loop math_exp pre self g prev done ;;
      if broke e1 then Ok (self1, g1, e1)
      else run_loop math_exp post self1 g1 (loop_tick e1) (ticks_done e1).
Proof.
  induction pre as [|t pre IH]; intros self g prev done;
    cbn [app run_loop bind].
  - reflexivity.
  - destruct (run_tick math_exp self t g) as [[self1 g1]|err]; cbn [bind];
      [|reflexivity].
    destruct (all_completed (agents self1)); [reflexivity | apply IH].
Qed.

Lemma range_split (T k : Z) :
  0 <= k < T ->
  range T = range k ++ k :: map Z.of_nat (seq (S (Z.to_nat k))
                                             (Z.to_nat T - Z.to_nat k - 1)).
Proof.
  intros Hk. unfold range.
  replace (Z.to_nat T)
    with (Z.to_nat k + S (Z.to_nat T - Z.to_nat k - 1))%nat at 1 by lia.
  rewrite seq_app, map_app. cbn [seq map Nat.add].
  now rewrite Z2Nat.id by lia.
Qed.

Lemma run_tick_hook_raises self tick g callback err :
  event_callback self = Some callback ->
  callback tick (problem self) = Raise err ->
  run_tick math_exp self tick g = Raise err.
Proof.
  intros Hcb Hr. unfold run_tick, tick_propose, fire_event.
  now rewrite Hcb, Hr.
Qed.

Lemma run_hook_raises self g callback k self1 g1 e1 err :
  0 <= k < max_tick self ->
  event_callback self = Some callback ->
  run_loop math_exp (range k) self g None 0 = Ok (self1, g1, e1) ->
  broke e1 = false ->
  callback k (problem self1) = Raise err ->
  run math_exp self g = Raise err.
Proof.
  intros Hk Hcb Hpre Hbr Hr. unfold run.
  rewrite (range_split _ _ Hk), run_loop_app, Hpre. cbn [bind].
  rewrite Hbr. cbn [run_loop].
  apply run_loop_end in Hpre. destruct Hpre as (_ & Hcb1 & _).
  rewrite (run_tick_hook_raises self1 k g1 callback err); [reflexivity| |assumption].
  congruence.
Qed.
End SchedulerLoop.

(** ** The local annealer returns, and its tour starts at the agent *)

Lemma index_spec (l : list Z) (x : Z) :
  match PyList.index l x with
  | Ok i => nth_error l i = Some x
  | Raise e => e = ValueError
  end.
Proof.
  induction l as [|y l IH]; cbn [PyList.index]; [reflexivity|].
  destruct (Z.eqb_spec y x) as [->|Hne]; [reflexivity|].
  destruct (PyList.index l x); cbn [bind]; assumption.
Qed.

Lemma index_head (l : list Z) (x : Z) :
  PyList.get l 0 = Ok x -> PyList.index l x = Ok 0%nat.
Proof.
  destruct l as [|y l]; [discriminate|].
  unfold PyList.get. cbn. intros [= ->]. now rewrite Z.eqb_refl.
Qed.

Lemma set_ok {A : Type} (l : list A) (i : nat) (v : A) :
  (i < length l)%nat -> exists l', PyList.set l i v = Ok l'.
Proof.
  intros Hi. destruct (split_at l i Hi) as (pre & x & post & -> & <-).
  eexists. apply set_app_at.
Qed.

Lemma swap_head (x : Z) (l : list Z) (j : nat) (y : Z) :
  nth_error (x :: l) (S j) = Some y ->
  exists l', PyList.swap (x :: l) 0 (S j) = Ok (y :: l').
Proof.
  intros Hj. unfold PyList.swap, PyList.get. rewrite Hj. cbn.
  destruct (set_ok l j x) as (l' & ->).
  - apply nth_error_Some. cbn in Hj. congruence.
  - now exists l'.
Qed.

Lemma initial_route_ok (problem : Problem) (agent : Agent) (g : Random.rng) :
  nodes problem <> [] ->
  exists rt g', initial_route problem agent g = Ok (rt, g')
                /\ PyList.get rt 0 = Ok (current_node agent).
Proof.
  intros Hn. unfold initial_route.
  destruct (shuffle_permutation (nodes problem) g) as (rt & g1 & -> & _ & Hlen).
  cbn [bind].
  destruct rt as [|r0 rt]; [destruct (nodes problem); [congruence | discriminate]|].
  change (PyList.get (r0 :: rt) 0) with (Ok r0). cbn [bind].
  assert (Hclose : forall rt1 : list Z,
             PyList.get rt1 0 = Ok (current_node agent) ->
             exists rt2 g',
               (r_last <- PyList.get_last rt1 ;;
                Ok (if negb (r_last =? current_node agent)
                    then rt1 ++ [current_node agent] else rt1, g1))
               = Ok (rt2, g')
               /\ PyList.get rt2 0 = Ok (current_node agent)).
  { intros [|c rt1] H0; [discriminate|]. cbn [PyList.get_last bind].
    destruct (negb _); do 2 eexists; (split; [reflexivity | exact H0]). }
  destruct (Z.eqb_spec r0 (current_node agent)) as [->|Hne]; cbn [negb bind].
  - now apply Hclose.
  - pose proof (index_spec (r0 :: rt) (current_node agent)) as Hidx.
    destruct (PyList.index (r0 :: rt) (current_node agent)) as [[|j]|e].
    + cbn in Hidx. congruence.
    + destruct (swap_head _ _ _ _ Hidx) as (l' & ->). cbn [bind].
      now apply Hclose.
    + subst e. cbn [bind]. now apply Hclose.
Qed.

Lemma quantum_jump_ok (cur : Solution) (problem : Problem) (jump_prob : Q)
  (g : Random.rng) :
  exists out g', quantum_jump_neighbor cur problem jump_prob g = Ok (out, g')
                 /\ PyList.get (routes out) 0 = PyList.get (routes cur) 0.
Proof.
  destruct (Nat.lt_ge_cases (length (routes cur)) 4) as [Hs|Hl].
  - unfold quantum_jump_neighbor, tsp_2opt_neighbor.
    destruct (Nat.ltb_spec (length (routes cur)) 4); [|lia].
    do 2 eexists. split; reflexivity.
  - destruct (quantum_jump_long cur problem jump_prob g Hl)
      as (out & g' & E & _ & [H0 _] & _).
    now exists out, g'.
Qed.

Section LocalSearch.
Variable math_exp : Q -> result Q.

(** [math.exp] does not overflow on arguments that are not positive. *)
Hypothesis math_exp_total :
  forall x, (x <= 0)%Q -> exists p, math_exp x = Ok p.

Lemma acceptance_probability_ok (old_cost new_cost temperature : Q) :
  (0 <= temperature)%Q ->
  exists ap, _acceptance_probability math_exp old_cost new_cost temperature
             = Ok ap.
Proof.
  intros HT. unfold _acceptance_probability.
  destruct (Qltb new_cost old_cost) eqn:Hlt; [now eexists|].
  apply Qltb_false in Hlt.
  destruct (Qeq_bool (temperature + (1 # 1000000000)) 0) eqn:Hz.
  - apply Qeq_bool_iff in Hz. lra.
  - apply math_exp_total. apply Qle_shift_div_r; lra.
Qed.

Lemma sa_loop_ok (self : DynamicAnnealer) (c : Z) (iters : nat) :
  (0 <= cooling_rate self)%Q ->
  forall best best_cost temperature g,
    (0 <= temperature)%Q ->
    PyList.get (routes best) 0 = Ok c ->
    exists best' g',
      sa_loop math_exp self iters best best_cost temperature g
      = Ok (best', g')
      /\ PyList.get (routes best') 0 = Ok c.
Proof.
  intros Hrate.
  induction iters as [|iters IH]; intros best best_cost temperature g HT H0;
    cbn [sa_loop].
  - now exists best, g.
  - destruct (quantum_jump_ok best (problem self) (quantum_jump_prob self) g)
      as (nb & g1 & -> & Hnb).
    cbn [bind]. rewrite tsp_total_cost_ok. cbn [bind].
    destruct (acceptance_probability_ok best_cost
                (spec_total_cost (problem self) (routes nb)) temperature HT)
      as (ap & ->).
    cbn [bind]. destruct (Random.random g1) as [u g2].
    assert (HT' : (0 <= temperature * cooling_rate self)%Q)
      by now apply Qmult_le_0_compat.
    destruct (Qltb u ap);
      (destruct (Qltb (temperature * cooling_rate self) (min_temp self));
       [do 2 eexists; split; [reflexivity|]; cbn [routes]; congruence
       | apply IH; [assumption | cbn [routes]; congruence]]).
Qed.

Lemma local_sa_ok (self : DynamicAnnealer) (agent : Agent) (g : Random.rng) :
  nodes (problem self) <> [] ->
  (0 <= start_temp self)%Q -> (0 <= cooling_rate self)%Q ->
  exists best g',
    _local_sa math_exp self agent g = Ok (best, g')
    /\ PyList.get (routes best) 0 = Ok (current_node agent).
Proof.
  intros Hn HT Hrate. unfold _local_sa.
  destruct (initial_route_ok (problem self) agent g Hn) as (rt & g1 & -> & H0).
  cbn [bind]. rewrite tsp_total_cost_ok. cbn [bind routes].
  now apply sa_loop_ok.
Qed.
End LocalSearch.

Section TourHead.
Variable math_exp : Q -> result Q.

Lemma initial_route_head (problem : Problem) (agent : Agent) (g : Random.rng)
  (rt : list Z) (g' : Random.rng) :
  initial_route problem agent g = Ok (rt, g') ->
  PyList.get rt 0 = Ok (current_node agent).
Proof.
  intros H. destruct (nodes problem) as [|n ns] eqn:Hn.
  - unfold initial_route in H. rewrite Hn in H. discriminate.
  - destruct (initial_route_ok problem agent g) as (rt1 & g1 & E & H0);
      [rewrite Hn; discriminate|].
    rewrite E in H. now injection H as <- _.
Qed.

Lemma sa_loop_head (self : DynamicAnnealer) (c : Z) (iters : nat) :
  forall best best_cost temperature g best' g',
    sa_loop math_exp self iters best best_cost temperature g = Ok (best', g') ->
    PyList.get (routes best) 0 = Ok c ->
    PyList.get (routes best') 0 = Ok c.
Proof.
  induction iters as [|iters IH];
    intros best best_cost temperature g best' g' H H0; cbn [sa_loop] in H.
  - now injection H as <- _.
  - destruct (quantum_jump_ok best (problem self) (quantum_jump_prob self) g)
      as (nb & g1 & E & Hnb).
    rewrite E in H. cbn [bind] in H.
    rewrite tsp_total_cost_ok in H. cbn [bind] in H.
    bind_cases H. destruct (Random.random g1) as [u g2].
    destruct (Qltb u a);
      (destruct (Qltb (temperature * cooling_rate self) (min_temp self));
       [injection H as <- _; cbn [routes]; congruence
       |eapply IH; [eassumption | cbn [routes]; congruence]]).
Qed.

(** The tour [_local_sa] returns starts at the agent's current node. *)
Lemma local_sa_head (self : DynamicAnnealer) (agent : Agent) (g : Random.rng)
  (best : Solution) (g' : Random.rng) :
  _local_sa math_exp self agent g = Ok (best, g') ->
  PyList.get (routes best) 0 = Ok (current_node agent).
Proof.
  unfold _local_sa. intros H. bind_cases H. destruct a as [rt g1].
  rewrite tsp_total_cost_ok in H. cbn [bind] in H.
  eapply sa_loop_head; [eassumption|]. cbn [routes].
  eapply initial_route_head; eassumption.
Qed.

(** So the fallback of step 2 is never taken, and step 2 blocks nobody. *)
Lemma propose_one_blocks_nobody self agent pm g sols agent' pm' g' sols' :
  propose_one math_exp self agent pm g sols = Ok (agent', pm', g', sols') ->
  status agent' = blocked -> status agent = blocked.
Proof.
  unfold propose_one. intros H.
  destruct (negb (status_eqb (status agent) active));
    [now injection H as <- _ _ _|].
  destruct (current_node agent =? goal_node agent);
    [injection H as <- _ _ _; discriminate|].
  bind_cases H. destruct a as [best g1].
  rewrite (index_head _ _ (local_sa_head _ _ _ _ _ E)) in H.
  destruct (length (routes best) =? 0)%nat; [discriminate|].
  bind_cases H. now injection H as <- _ _ _.
Qed.

Lemma propose_all_blocks_nobody self ags :
  forall pm g sols ags' pm' g' sols',
    propose_all math_exp self ags pm g sols = Ok (ags', pm', g', sols') ->
    Forall2 (fun a a' => status a' = blocked -> status a = blocked) ags ags'.
Proof.
  induction ags as [|agent rest IH]; intros pm g sols ags' pm' g' sols' H;
    cbn [propose_all] in H.
  - injection H as <- _ _ _. constructor.
  - bind_cases H. destruct a as [[[agent1 pm1] g1] sols1].
    bind_cases H. destruct a as [[[rest1 pm2] g2] sols2].
    injection H as <- _ _ _. constructor.
    + eapply propose_one_blocks_nobody; eassumption.
    + eapply IH; eassumption.
Qed.

Lemma tick_propose_blocks_nobody self tick g self2 pm g2 :
  tick_propose math_exp self tick g = Ok (self2, pm, g2) ->
  Forall2 (fun a a' => status a' = blocked -> status a = blocked)
          (agents self) (agents self2).
Proof.
  unfold tick_propose. intros H.
  bind_cases H. bind_cases H. destruct a0 as [[[ags2 pm2] g2'] sols2].
  injection H as <- _ _. cbn [agents with_world] in *.
  eapply propose_all_blocks_nobody; eassumption.
Qed.

End TourHead.

Section Returns.
Variable math_exp : Q -> result Q.
Hypothesis math_exp_total :
forall x, (x <= 0)%Q -> exists p, math_exp x = Ok p.

Lemma propose_one_ok self agent pm g sols :
nodes (problem self) <> [] ->
(0 <= start_temp self)%Q -> (0 <= cooling_rate self)%Q ->
exists agent' pm' g' sols',
  propose_one math_exp self agent pm g sols = Ok (agent', pm', g', sols')
  /\ (status agent' = blocked -> status agent = blocked).
Proof.
intros Hn HT Hrate. unfold propose_one.
destruct (status_eqb (status agent) active) eqn:Hact; cbn [negb];
  [|do 4 eexists; split; [reflexivity | auto]].
destruct (current_node agent =? goal_node agent);
  [do 4 eexists; split; [reflexivity | cbn; discriminate]|].
destruct (local_sa_ok math_exp math_exp_total self agent g Hn HT Hrate)
  as (best & g1 & -> & H0).
cbn [bind]. rewrite (index_head _ _ H0).
destruct (routes best) as [|r0 rt] eqn:Hrt; [discriminate|].
cbn [length Nat.eqb].
destruct (get_ok (r0 :: rt) ((0 + 1) mod S (length rt))) as (nx & ->).
- apply Nat.mod_upper_bound. discriminate.
- cbn [bind]. do 4 eexists. split; [reflexivity | auto].
Qed.

Lemma propose_all_ok self ags :
nodes (problem self) <> [] ->
(0 <= start_temp self)%Q -> (0 <= cooling_rate self)%Q ->
forall pm g sols,
  exists ags' pm' g' sols',
    propose_all math_exp self ags pm g sols = Ok (ags', pm', g', sols')
    /\ Forall2 (fun a a' => status a' = blocked -> status a = blocked)
               ags ags'.
Proof.
intros Hn HT Hrate.
induction ags as [|agent rest IH]; intros pm g sols; cbn [propose_all].
- do 4 eexists. split; [reflexivity | constructor].
- destruct (propose_one_ok self agent pm g sols Hn HT Hrate)
    as (agent1 & pm1 & g1 & sols1 & -> & Hb).
  cbn [bind].
  destruct (IH pm1 g1 sols1) as (rest1 & pm2 & g2 & sols2 & -> & Hrest).
  cbn [bind]. do 4 eexists. split; [reflexivity | now constructor].
Qed.

Lemma run_tick_ok self tick g :
sane self ->
exists self' g', run_tick math_exp self tick g = Ok (self', g')
                 /\ sane self'.
Proof.
intros (Hn & HT & Hrate & Hhook).
assert (Hfire : exists p1, fire_event self tick = Ok p1 /\ nodes p1 <> []).
{ unfold fire_event. unfold hook_behaves in Hhook.
  destruct (event_callback self) as [cb|]; [now apply Hhook | now eexists]. }
destruct Hfire as (p1 & Hp1 & Hn1).
unfold run_tick, tick_propose. rewrite Hp1. cbn [bind].
set (self1 := with_world self p1 (agents self) (agent_solutions self)).
destruct (propose_all_ok self1 (agents self1) Hn1 HT Hrate [] g
            (agent_solutions self1))
  as (ags2 & pm & g2 & sols2 & Epr & _).
rewrite Epr. cbn [bind].
destruct (propose_all_keys math_exp _ _ _ _ _ _ _ _ _ Epr) as [Hnd Hk].
specialize (Hnd (NoDup_nil _)).
pose proof (evolves_ids _ _ (propose_all_evolves math_exp _ _ _ _ _ _ _ _ _ Epr))
  as Hids2.
destruct (detect_collisions_NoDup pm Hnd) as [Hcnd Hcincl].
assert (Hpm : incl (keys pm) (ids ags2)).
{ intros k Hkin. rewrite Hids2. destruct (Hk k Hkin) as [[]|H]. exact H. }
unfold tick_arbitrate. cbn [agents with_world].
destruct (block_collisions_ok (_detect_collisions pm) pm ags2
            Hcnd Hcincl Hnd Hpm) as (pm3 & ags3 & Ebl).
rewrite Ebl. cbn [bind].
destruct (block_collisions_touched _ _ _ _ _ Ebl) as [_ Hk3].
destruct (Hk3 Hnd) as [_ Hk3'].
pose proof (evolves_ids _ _ (block_collisions_evolves _ _ _ _ _ Ebl)) as Hids3.
unfold tick_commit. cbn [agents with_world].
destruct (commit_moves_ok pm3 ags3) as (ags4 & Eco).
{ intros k Hkin. rewrite Hids3. apply Hpm. now apply Hk3'. }
rewrite Eco. cbn [bind]. do 2 eexists. split; [reflexivity|].
repeat split; assumption.
Qed.

Lemma run_loop_ok ticks :
forall self g prev done,
  sane self ->
  exists self' g' e, run_loop math_exp ticks self g prev done
                     = Ok (self', g', e).
Proof.
induction ticks as [|tick ticks IH]; intros self g prev done Hs;
  cbn [run_loop].
- now do 3 eexists.
- destruct (run_tick_ok self tick g Hs) as (self1 & g1 & -> & Hs1).
  cbn [bind]. destruct (all_completed (agents self1)); [now do 3 eexists|].
  now apply IH.
Qed.

Lemma run_ok self g :
sane self -> 1 <= max_tick self ->
exists self' g' e, run math_exp self g = Ok (self', g', e).
Proof.
intros Hs HT. unfold run.
destruct (run_loop_ok (range (max_tick self)) self g None 0%nat Hs)
  as (self' & g' & e & E).
rewrite E. cbn [bind].
pose proof E as E'. unfold range in E'. apply run_loop_end in E'.
destruct E' as (Hd & _ & _ & Hlt & Hb & Hnb & _).
destruct (Nat.eqb_spec (ticks_done e) 0) as [H0|H0].
- exfalso. destruct (broke e) eqn:Hbr.
  + destruct (Hb eq_refl). lia.
  + destruct (Hnb eq_refl). lia.
- rewrite Hlt. now do 3 eexists.
Qed.
End Returns.

(** ** Agents blocked by the arbiter *)

Lemma Forall2_chain {A : Type} (R S : A -> A -> Prop) (l1 l2 l3 : list A) :
  Forall2 R l1 l2 -> Forall2 S l2 l3 ->
  Forall2 (fun p c => R (fst p) (snd p) /\ S (snd p) c) (combine l1 l2) l3.
Proof.
  intros H12. revert l3.
  induction H12 as [|a b l1 l2 Hab _ IH]; intros l3 H23;
    inversion H23; subst; cbn [combine]; constructor; auto.
Qed.

Section Arbiter.
Variable math_exp : Q -> result Q.

Lemma tick_propose_keys self tick g self2 pm g2 :
tick_propose math_exp self tick g = Ok (self2, pm, g2) -> NoDup (keys pm).
Proof.
unfold tick_propose. intros H.
bind_cases H. bind_cases H. destruct a0 as [[[ags2 pm2] g2'] sols2].
injection H as _ <- _.
destruct (propose_all_keys math_exp _ _ _ _ _ _ _ _ _ E0) as [Hnd _].
apply Hnd. constructor.
Qed.

(** An agent that the arbiter turns to blocked is not moved in the same
  tick, and is active when the tick ends. *)
Lemma arbiter_blocked_then_active self2 pm self3 pm3 self4 :
NoDup (keys pm) ->
tick_arbitrate self2 pm = Ok (self3, pm3) ->
tick_commit self3 pm3 = Ok self4 ->
Forall2 (fun before_after a' =>
           status (fst before_after) <> blocked ->
           status (snd before_after) = blocked ->
           a' = set_status (fst before_after) active)
        (combine (agents self2) (agents self3))
        (agents (tick_unblock self4)).
Proof.
intros Hnd H3 H4.
unfold tick_arbitrate in H3. bind_cases H3. destruct a as [pm' ags3].
injection H3 as <- <-.
unfold tick_commit in H4. bind_cases H4. injection H4 as <-.
cbn [agents with_world tick_unblock] in *.
destruct (block_collisions_touched _ _ _ _ _ E) as [Ht Hk].
destruct (Hk Hnd) as [_ Hk'].
pose proof (commit_moves_touched _ _ _ E0) as Hc.
pose proof (Forall2_chain _ _ _ _ _ Ht Hc) as Hch.
clear - Hch Hk'. unfold unblock_all.
induction Hch as [|[a2 a3] a4 l l' [Hbl Hco] _ IH]; cbn [map];
  constructor; [|exact IH].
cbn [fst snd] in *. intros Hnb Hb.
destruct Hbl as [->|[Hin ->]]; [contradiction|].
destruct Hco as [->|Hin3].
- reflexivity.
- cbn [id set_status] in Hin3. apply Hk' in Hin3. tauto.
Qed.
End Arbiter.

(** ** The generic annealer keeps the best candidate it has seen

    What C1 asks of [_local_sa] holds for [Annealer.run], which tracks
    [best] apart from [current]. *)

Section AnnealerBest.
Variable math_exp : Q -> result Q.

Lemma annealer_loop_best_seen (self : Annealer.t) (iters : nat) :
  forall current current_cost temperature seen g seen' g',
    Annealer.loop math_exp self iters current current_cost temperature seen g
    = Ok (seen', g') ->
    (Annealer.best_cost seen' <= Annealer.best_cost seen)%Q
    /\ Annealer.initial_cost seen' = Annealer.initial_cost seen
    /\ exists later,
        Annealer.accepted seen' = Annealer.accepted seen ++ later
        /\ Forall (fun c => (Annealer.best_cost seen' <= c)%Q) later.
Proof.
  induction iters as [|iters IH];
    intros current current_cost temperature seen g seen' g' H;
    cbn [Annealer.loop] in H.
  - injection H as <- _. split; [apply Qle_refl|]. split; [reflexivity|].
    exists []. now rewrite app_nil_r.
  - bind_cases H. destruct a as [neighbor0 g1].
    bind_cases H. destruct a as [neighbor neighbor_cost].
    bind_cases H. destruct (Random.random g1) as [u g2].
    destruct (Qltb u a).
    + destruct (Qltb_cases neighbor_cost (Annealer.best_cost seen))
        as [[Eb Hb]|[Eb Hb]]; rewrite Eb in H;
        (destruct (Qltb (temperature * Annealer.cooling_rate self)
                        (Annealer.min_temp self));
         [injection H as <- _; cbn
         |apply IH in H; cbn in H;
          destruct H as (Hle & Hinit & later & Hacc & Hall)]).
      * split; [lra|]. split; [reflexivity|].
        exists [neighbor_cost]. split; [reflexivity|].
        repeat constructor. apply Qle_refl.
      * split; [lra|]. split; [assumption|].
        exists (neighbor_cost :: later).
        split; [now rewrite Hacc, <- app_assoc|].
        constructor; assumption.
      * split; [apply Qle_refl|]. split; [reflexivity|].
        exists [neighbor_cost]. split; [reflexivity|].
        repeat constructor. assumption.
      * split; [assumption|]. split; [assumption|].
        exists (neighbor_cost :: later).
        split; [now rewrite Hacc, <- app_assoc|].
        constructor; [lra | assumption].
    + destruct (Qltb (temperature * Annealer.cooling_rate self)
                     (Annealer.min_temp self)).
      * injection H as <- _. split; [apply Qle_refl|]. split; [reflexivity|].
        exists []. now rewrite app_nil_r.
      * now apply IH in H.
Qed.

(** The candidate [Annealer.run] returns costs no more than the initial
    candidate and no more than any candidate accepted on the way. *)
Lemma annealer_run_best_seen (self : Annealer.t) (g : Random.rng)
  (seen : Annealer.Seen) (g' : Random.rng) :
  Annealer.run_seen math_exp self g = Ok (seen, g') ->
  Annealer.run math_exp self g = Ok (Annealer.best seen, g')
  /\ (Annealer.best_cost seen <= Annealer.initial_cost seen)%Q
  /\ Forall (fun c => (Annealer.best_cost seen <= c)%Q) (Annealer.accepted seen).
Proof.
  intros H. unfold Annealer.run. rewrite H. split; [reflexivity|].
  unfold Annealer.run_seen in H.
  bind_cases H. destruct a as [current0 g0].
  bind_cases H. destruct a as [current current_cost].
  apply annealer_loop_best_seen in H. cbn in H.
  destruct H as (Hle & Hinit & later & Hacc & Hall).
  rewrite Hinit, Hacc. split; assumption.
Qed.

End AnnealerBest.

(** * The claims of the specification *)

Lemma on_tick_behaves : hook_behaves (Some on_tick).
Proof.
  intros tick p Hn. eexists. split; [reflexivity|].
  unfold remove_edge.
  destruct (tick =? 10); [|assumption].
  destruct (has_edge (graph p) 1 2); assumption.
Qed.


Lemma exp_lower_bound (x : Q) :
  (-1 <= x)%Q -> (x <= 0)%Q ->
  exists p, exp_lower x = Ok p /\ (1 + x <= p)%Q.
Proof.
  intros H1 H2. unfold exp_lower. eexists. split; [reflexivity|].
  destruct (Qltb x (-1)) eqn:E.
  - apply Qltb_lt in E. lra.
  - apply Qle_refl.
Qed.

(** C1 (the code departs from it).  On the ring graph with one annealing
    step, the initial candidate 1-2-3-4-1 costs 4; the 2-opt neighbour
    1-3-2-4-1 costs 5 and is accepted by the Metropolis rule (the draw 0.0 is
    below [exp(-1 / (100 + 1e-9))]); [_local_sa] keeps no separate best
    candidate and returns that neighbour, whose cost is above the cost of the
    initial candidate.  [math_exp] is any function that, on [-1, 0], returns
    a value no smaller than [1 + x]. *)
Theorem local_sa_returns_accepted_worse_candidate
  (math_exp : Q -> result Q) :
  (forall x, (-1 <= x)%Q -> (x <= 0)%Q ->
             exists p, math_exp x = Ok p /\ (1 + x <= p)%Q) ->
  exists rt0 g0 initial c0 best g' c,
    initial_route (problem ring_annealer) walker tape = Ok (rt0, g0)
    /\ tsp_total_cost (mkSolution rt0 None) (problem ring_annealer)
       = Ok (initial, c0)
    /\ _local_sa math_exp ring_annealer walker tape = Ok (best, g')
    /\ total_cost best = Some c
    /\ routes best = [1; 3; 2; 4; 1]
    /\ (c0 == 4)%Q /\ (c == 5)%Q /\ (c0 < c)%Q.
Proof.
  intros Hexp.
  destruct (Hexp ((0 + 1 + 1 + 1 + 1 - (0 + 2 + 1 + 1 + 1))
                  / (100 + (1 # 1000000000)))%Q) as (p & Ep & Hp);
    [apply Qle_bool_iff; reflexivity | apply Qle_bool_iff; reflexivity |].
  assert (Hacc : Qltb (0 # 9007199254740992) p = true).
  { apply Qltb_lt. eapply Qlt_le_trans; [|exact Hp]. reflexivity. }
  exists [1; 2; 3; 4; 1], [4503599627370496; 0; 0; 0]%N.
  eexists. eexists. eexists. eexists. eexists.
  split; [reflexivity|]. split; [reflexivity|].
  split.
  - unfold _local_sa.
    replace (initial_route (problem ring_annealer) walker tape)
      with (Ok ([1; 2; 3; 4; 1], [4503599627370496; 0; 0; 0]%N))
      by reflexivity.
    cbn [bind].
    replace (tsp_total_cost {| routes := [1; 2; 3; 4; 1]; total_cost := None |}
               (problem ring_annealer))
      with (Ok ({| routes := [1; 2; 3; 4; 1];
                   total_cost := Some (0 + 1 + 1 + 1 + 1)%Q |},
                (0 + 1 + 1 + 1 + 1)%Q)) by reflexivity.
    cbn [bind].
    change (Z.to_nat (mini_iter ring_annealer)) with 1%nat.
    cbn [sa_loop].
    replace (quantum_jump_neighbor _ _ _ _)
      with (Ok ({| routes := [1; 3; 2; 4; 1]; total_cost := None |},
                [0%N])) by reflexivity.
    cbn [bind].
    replace (tsp_total_cost {| routes := [1; 3; 2; 4; 1]; total_cost := None |}
               (problem ring_annealer))
      with (Ok ({| routes := [1; 3; 2; 4; 1];
                   total_cost := Some (0 + 2 + 1 + 1 + 1)%Q |},
                (0 + 2 + 1 + 1 + 1)%Q)) by reflexivity.
    cbn [bind].
    unfold _acceptance_probability.
    replace (Qltb (0 + 2 + 1 + 1 + 1) (0 + 1 + 1 + 1 + 1)) with false
      by reflexivity.
    change (start_temp ring_annealer) with 100%Q.
    replace (Qeq_bool (100 + (1 # 1000000000)) 0) with false by reflexivity.
    rewrite Ep. cbn [bind].
    change (Random.random [0%N]) with ((0 # 9007199254740992)%Q, @nil N).
    cbv iota beta.
    rewrite Hacc. reflexivity.
  - cbn [total_cost routes]. split; [reflexivity|]. split; [reflexivity|].
    split; [reflexivity|]. split; reflexivity.
Qed.

Lemma local_sa_returns_accepted_worse_candidate_witness :
  (forall x, (-1 <= x)%Q -> (x <= 0)%Q ->
             exists p, exp_lower x = Ok p /\ (1 + x <= p)%Q)
  /\ exists rt0 g0 initial c0 best g' c,
      initial_route (problem ring_annealer) walker tape = Ok (rt0, g0)
      /\ tsp_total_cost (mkSolution rt0 None) (problem ring_annealer)
         = Ok (initial, c0)
      /\ _local_sa exp_lower ring_annealer walker tape = Ok (best, g')
      /\ total_cost best = Some c
      /\ routes best = [1; 3; 2; 4; 1]
      /\ (c0 == 4)%Q /\ (c == 5)%Q /\ (c0 < c)%Q.
Proof.
  split; [exact exp_lower_bound|].
  apply (local_sa_returns_accepted_worse_candidate exp_lower).
  exact exp_lower_bound.
Defined.

(** C2, as the claim states it, fails: a hook that raises makes [run]
    raise. *)
Lemma failing_hook_aborts_run :
  run exp_lower hooked_annealer tape
  = Raise (HookError "edge feed unavailable").
Proof. reflexivity. Qed.

(** C2, amended.  The scheduler does not guard the hook.  If the hook raises
    at a tick, that tick raises the same exception before any agent is
    looked at; and if the run gets as far as tick [k] (the ticks before [k]
    ran without convergence) and the hook raises there, [run] raises that
    exception. *)
Theorem hook_exception_propagates (math_exp : Q -> result Q)
  (self : DynamicAnnealer) (g : Random.rng) (callback : Hook) (k : Z)
  (self1 : DynamicAnnealer) (g1 : Random.rng) (e1 : LoopEnd) (err : exn) :
  0 <= k < max_tick self ->
  event_callback self = Some callback ->
  run_loop math_exp (range k) self g None 0 = Ok (self1, g1, e1) ->
  broke e1 = false ->
  callback k (problem self1) = Raise err ->
  run_tick math_exp self1 k g1 = Raise err
  /\ run math_exp self g = Raise err.
Proof.
  intros Hk Hcb Hpre Hbr Hr. split.
  - apply (run_tick_hook_raises math_exp self1 k g1 callback err); [|assumption].
    apply run_loop_end in Hpre. destruct Hpre as (_ & Hcb1 & _). congruence.
  - eapply run_hook_raises; eassumption.
Qed.

Lemma hook_exception_propagates_witness :
  run_tick exp_lower hooked_annealer 0 tape
  = Raise (HookError "edge feed unavailable")
  /\ run exp_lower hooked_annealer tape
     = Raise (HookError "edge feed unavailable").
Proof.
  apply (hook_exception_propagates exp_lower hooked_annealer tape failing_hook
           0 hooked_annealer tape (mkLoopEnd None 0 false)).
  - simpl. lia.
  - reflexivity.
  - reflexivity.
  - reflexivity.
  - reflexivity.
Defined.

(** ** The evaluator on binary64 numbers *)

Lemma cost_step_hop64 (problem : Binary64.Problem) (pre : list Z) (u v : Z)
  (post : list Z) (total : Binary64.float) :
  Binary64.cost_step problem (pre ++ u :: v :: post) total (length pre)
  = Ok (Binary64.add total (Binary64.hop_cost problem (u, v))).
Proof.
  unfold Binary64.cost_step.
  rewrite get_app_at. cbn [bind].
  replace (pre ++ u :: v :: post) with ((pre ++ [u]) ++ v :: post)
    by now rewrite <- app_assoc.
  replace (S (length pre)) with (length (pre ++ [u]))
    by (rewrite length_app; simpl; lia).
  rewrite get_app_at. cbn [bind].
  unfold Binary64.distance, Binary64.hop_cost.
  now destruct (Binary64.edge_lookup
                  (Binary64.g_edges (Binary64.graph problem)) (u, v)).
Qed.

Lemma cost_loop_hops64 (problem : Binary64.Problem) (suffix : list Z) :
  forall (pre : list Z) (total : Binary64.float),
    Binary64.cost_loop problem (pre ++ suffix) total
                       (seq (length pre) (length suffix - 1))
    = Ok (fold_left (fun t hop =>
                       Binary64.add t (Binary64.hop_cost problem hop))
                    (hops suffix) total).
Proof.
  induction suffix as [|u suffix IH]; intros pre total.
  - reflexivity.
  - destruct suffix as [|v post].
    + reflexivity.
    + replace (length (u :: v :: post) - 1)%nat
        with (S (length (v :: post) - 1)) by (simpl; lia).
      cbn [seq Binary64.cost_loop hops fold_left].
      rewrite cost_step_hop64. cbn [bind].
      specialize (IH (pre ++ [u])
                     (Binary64.add total (Binary64.hop_cost problem (u, v)))).
      rewrite <- app_assoc in IH. cbn [app] in IH.
      rewrite length_app in IH. cbn [length] in IH.
      rewrite Nat.add_1_r in IH.
      exact IH.
Qed.

Lemma tsp_total_cost_ok64 (sol : Binary64.Solution)
  (problem : Binary64.Problem) :
  Binary64.tsp_total_cost sol problem
  = Ok (Binary64.mkSolution
          (Binary64.routes sol)
          (Some (Binary64.rounded_sum problem (Binary64.routes sol))),
        Binary64.rounded_sum problem (Binary64.routes sol)).
Proof.
  unfold Binary64.tsp_total_cost.
  pose proof (cost_loop_hops64 problem (Binary64.routes sol) []
                               Binary64.zero) as H.
  cbn [app length] in H. rewrite H. reflexivity.
Qed.

Lemma exact_fold_compat (problem : Binary64.Problem) (hs : list (Z * Z)) :
  forall a b : Q,
    (a == b)%Q ->
    (fold_left (fun total hop =>
                  total + Binary64.to_Q (Binary64.hop_cost problem hop)) hs a
     == fold_left (fun total hop =>
                     total + Binary64.to_Q (Binary64.hop_cost problem hop))
                  hs b)%Q.
Proof.
  induction hs as [|h hs IH]; intros a b Hab; cbn [fold_left].
  - exact Hab.
  - apply IH. now rewrite Hab.
Qed.

Lemma adds_exactly_sum (problem : Binary64.Problem) (hs : list (Z * Z)) :
  forall total : Binary64.float,
    Binary64.adds_exactly problem total hs = true ->
    (Binary64.to_Q
       (fold_left (fun t hop =>
                     Binary64.add t (Binary64.hop_cost problem hop)) hs total)
     == fold_left (fun t hop =>
                     t + Binary64.to_Q (Binary64.hop_cost problem hop))
                  hs (Binary64.to_Q total))%Q.
Proof.
  induction hs as [|h hs IH]; intros total H;
    cbn [fold_left Binary64.adds_exactly] in *.
  - reflexivity.
  - apply andb_true_iff in H. destruct H as [Hx Hrest].
    unfold Binary64.exact_add in Hx.
    apply andb_true_iff in Hx. destruct Hx as [_ Hq].
    apply Qeq_bool_iff in Hq.
    rewrite (IH _ Hrest). now apply exact_fold_compat.
Qed.

(** C3, as amended.  [tsp_total_cost] never raises: for every candidate and
    every graph state it returns the float sum, taken from left to right
    over the consecutive pairs of the route and started at 0.0, of the edge
    weight where [distance] finds the directed edge and of the penalty 1e9
    where it does not, every addition rounded to the nearest float; the
    candidate it hands back has the same route and carries that value in
    [total_cost].  When no addition on the way rounds, the value is the
    sum of these numbers. *)
Theorem tsp_total_cost_is_rounded_sum (sol : Binary64.Solution)
  (problem : Binary64.Problem) :
  Binary64.tsp_total_cost sol problem
  = Ok (Binary64.mkSolution
          (Binary64.routes sol)
          (Some (Binary64.rounded_sum problem (Binary64.routes sol))),
        Binary64.rounded_sum problem (Binary64.routes sol))
  /\ Binary64.penalty = Binary64.of_Z 1000000000
  /\ (forall u v : Z,
         Binary64.hop_cost problem (u, v)
         = match Binary64.distance problem u v with
           | Ok w => w
           | Raise _ => Binary64.penalty
           end)
  /\ (Binary64.adds_exactly problem Binary64.zero
                            (hops (Binary64.routes sol)) = true ->
      (Binary64.to_Q (Binary64.rounded_sum problem (Binary64.routes sol))
       == Binary64.exact_sum problem (Binary64.routes sol))%Q).
Proof.
  split; [apply tsp_total_cost_ok64|]. split; [reflexivity|]. split.
  - intros u v. unfold Binary64.hop_cost, Binary64.distance.
    now destruct (Binary64.edge_lookup
                    (Binary64.g_edges (Binary64.graph problem)) (u, v)).
  - intros H. unfold Binary64.rounded_sum, Binary64.exact_sum.
    now rewrite (adds_exactly_sum _ _ _ H).
Qed.

(** The tour 1-3-2-4-1 on the sparse graph: the edge 3 -> 2 is there, the
    other three hops are charged the penalty; no addition rounds, and the
    cost is 3000000001. *)
Lemma tsp_total_cost_is_rounded_sum_witness :
  Binary64.adds_exactly sparse64 Binary64.zero (hops [1; 3; 2; 4; 1]) = true
  /\ Binary64.tsp_total_cost (Binary64.mkSolution [1; 3; 2; 4; 1] None)
                             sparse64
     = Ok (Binary64.mkSolution [1; 3; 2; 4; 1]
                               (Some (Binary64.of_Z 3000000001)),
           Binary64.of_Z 3000000001)
  /\ Qeq (Binary64.to_Q (Binary64.rounded_sum sparse64 [1; 3; 2; 4; 1]))
         (Binary64.exact_sum sparse64 [1; 3; 2; 4; 1])
  /\ Qeq (Binary64.exact_sum sparse64 [1; 3; 2; 4; 1]) 3000000001%Q.
Proof.
  assert (H : Binary64.adds_exactly
                sparse64 Binary64.zero
                (hops (Binary64.routes
                         (Binary64.mkSolution [1; 3; 2; 4; 1] None))) = true)
    by (vm_compute; reflexivity).
  split; [exact H|]. split; [vm_compute; reflexivity|]. split.
  - exact (proj2 (proj2 (proj2 (tsp_total_cost_is_rounded_sum
                                  (Binary64.mkSolution [1; 3; 2; 4; 1] None)
                                  sparse64))) H).
  - vm_compute. reflexivity.
Defined.

(** The weights 0.1, 0.2 and 0.3 along the route 1-2-3-4: the code returns
    0.6000000000000001, one float above the float 0.6. *)
Example tsp_total_cost_tenths :
  Binary64.tsp_total_cost (Binary64.mkSolution [1; 2; 3; 4] None) tenths
  = Ok (Binary64.mkSolution
          [1; 2; 3; 4]
          (Some (SpecFloat.S754_finite false 5404319552844596 (-53))),
        SpecFloat.S754_finite false 5404319552844596 (-53))
  /\ Binary64.of_ratio 6 10
     = SpecFloat.S754_finite false 5404319552844595 (-53).
Proof. split; vm_compute; reflexivity. Qed.

(** C3, as the claim states it, fails on floats: on the route 1-2-3 with
    the edge 1 -> 2 of weight 1e-8 and no edge 2 -> 3, the code returns
    exactly 1e9, which is not the sum of the weight and the penalty. *)
Lemma penalty_absorbs_small_weight :
  Binary64.distance faint 1 2 = Ok (Binary64.of_ratio 1 100000000)
  /\ Binary64.distance faint 2 3 = Raise ValueError
  /\ Binary64.tsp_total_cost (Binary64.mkSolution [1; 2; 3] None) faint
     = Ok (Binary64.mkSolution [1; 2; 3] (Some Binary64.penalty),
           Binary64.penalty)
  /\ Qeq (Binary64.to_Q Binary64.penalty) 1000000000%Q
  /\ Qlt 1000000000%Q (Binary64.exact_sum faint [1; 2; 3])
  /\ ~ Qeq (Binary64.to_Q Binary64.penalty)
           (Binary64.exact_sum faint [1; 2; 3]).
Proof.
  split; [vm_compute; reflexivity|]. split; [vm_compute; reflexivity|].
  split; [vm_compute; reflexivity|]. split; [vm_compute; reflexivity|].
  split; [vm_compute; reflexivity|].
  intros H. vm_compute in H. discriminate H.
Qed.

(** C4. For a proposed-move dictionary (distinct agent ids), an agent id is
    in the list returned by [_detect_collisions] exactly when it proposes a
    node that some other agent id proposes too; so an agent whose target is
    claimed by nobody else is never in it.  The function is a pure reading of
    its argument. *)
Theorem detect_collisions_iff (proposed_moves : moves) (aid : string) :
  NoDup (map fst proposed_moves) ->
  (In aid (_detect_collisions proposed_moves)
   <-> exists node, In (aid, node) proposed_moves
                    /\ exists other, other <> aid
                                     /\ In (other, node) proposed_moves).
Proof.
  intros Hnd. unfold _detect_collisions.
  destruct (build_reverse_map_groups proposed_moves) as [Hk Hg].
  rewrite collisions_fold. split.
  - intros [[] | (node & aids & Hin & Hlen & Ha)].
    apply (dict_get_In _ _ _ Hk) in Hin. rewrite Hg in Hin.
    unfold group_of in Hin.
    assert (aids = proposers proposed_moves node)
      by (destruct (proposers proposed_moves node); congruence).
    subst aids. exists node. split; [now apply proposers_In|].
    destruct (another_member _ aid (proposers_NoDup _ node Hnd) Hlen)
      as (b & Hb & Hbin).
    exists b. split; [assumption | now apply proposers_In].
  - intros (node & Hin & other & Hne & Hoin). right.
    exists node, (proposers proposed_moves node).
    apply proposers_In in Hin. apply proposers_In in Hoin.
    split; [|split; [now apply (two_members _ aid other) | assumption]].
    apply (dict_get_In _ _ _ Hk). rewrite Hg. unfold group_of.
    destruct (proposers proposed_moves node); [contradiction | reflexivity].
Qed.

Lemma detect_collisions_iff_witness :
  NoDup (map fst [("A1"%string, 2); ("A2"%string, 2); ("A3"%string, 3)])
  /\ (In "A1"%string
         (_detect_collisions
            [("A1"%string, 2); ("A2"%string, 2); ("A3"%string, 3)])
      <-> exists node,
          In ("A1"%string, node)
             [("A1"%string, 2); ("A2"%string, 2); ("A3"%string, 3)]
          /\ exists other,
              other <> "A1"%string
              /\ In (other, node)
                    [("A1"%string, 2); ("A2"%string, 2); ("A3"%string, 3)]).
Proof.
  assert (Hnd : NoDup (map fst [("A1"%string, 2); ("A2"%string, 2);
                                ("A3"%string, 3)])).
  { cbn [map fst]. repeat constructor; cbn [In]; intuition discriminate. }
  split; [exact Hnd|].
  exact (detect_collisions_iff _ "A1"%string Hnd).
Defined.

(** C5. On a route of length at least 4, [tsp_2opt_neighbor] and
    [quantum_jump_neighbor] return (they do not raise), whatever the random
    draws and the jump probability, a route that is a permutation of the
    input route and has the same first and the same last element. *)
Theorem neighbors_permute_and_keep_ends (cur : Solution) (problem : Problem)
  (jump_prob : Q) (g : Random.rng) :
  (4 <= length (routes cur))%nat ->
  (exists out g', tsp_2opt_neighbor cur problem g = Ok (out, g')
                  /\ Permutation (routes cur) (routes out)
                  /\ PyList.get (routes out) 0 = PyList.get (routes cur) 0
                  /\ PyList.get_last (routes out)
                     = PyList.get_last (routes cur))
  /\
  (exists out g', quantum_jump_neighbor cur problem jump_prob g = Ok (out, g')
                  /\ Permutation (routes cur) (routes out)
                  /\ PyList.get (routes out) 0 = PyList.get (routes cur) 0
                  /\ PyList.get_last (routes out)
                     = PyList.get_last (routes cur)).
Proof.
  intros Hn. split.
  - destruct (tsp_2opt_long cur problem g Hn) as (out & g' & E & P & [H0 Hl] & _).
    now exists out, g'.
  - destruct (quantum_jump_long cur problem jump_prob g Hn)
      as (out & g' & E & P & [H0 Hl] & _).
    now exists out, g'.
Qed.

Lemma neighbors_permute_and_keep_ends_witness :
  (4 <= length [1; 2; 3; 4; 1])%nat
  /\ (exists out g',
        tsp_2opt_neighbor (mkSolution [1; 2; 3; 4; 1] None) ring [0; 0]%N
        = Ok (out, g')
        /\ Permutation [1; 2; 3; 4; 1] (routes out)
        /\ PyList.get (routes out) 0 = Ok 1
        /\ PyList.get_last (routes out) = Ok 1)
  /\ (exists out g',
        quantum_jump_neighbor (mkSolution [1; 2; 3; 4; 1] None) ring (1 # 2)
                              [0; 0; 0; 1]%N
        = Ok (out, g')
        /\ Permutation [1; 2; 3; 4; 1] (routes out)
        /\ PyList.get (routes out) 0 = Ok 1
        /\ PyList.get_last (routes out) = Ok 1).
Proof.
  assert (Hn : (4 <= length [1; 2; 3; 4; 1])%nat) by (simpl; lia).
  split; [exact Hn|].
  split.
  - exact (proj1 (neighbors_permute_and_keep_ends
                    (mkSolution [1; 2; 3; 4; 1] None) ring (1 # 2)
                    [0; 0]%N Hn)).
  - exact (proj2 (neighbors_permute_and_keep_ends
                    (mkSolution [1; 2; 3; 4; 1] None) ring (1 # 2)
                    [0; 0; 0; 1]%N Hn)).
Defined.





(** C7. Blocking does not outlive a tick.  The proposal step blocks nobody
    (its fallback is unreachable); an agent that the arbiter blocks during
    the tick is left where it is by the commit step and ends the tick
    active; and the last step of a tick turns every agent that is blocked at
    that point into an active one and leaves the others as they are.  So at
    the end of every tick, hence at the start of the next one, no agent is
    blocked. *)
Theorem blocking_is_transient (math_exp : Q -> result Q)
  (self : DynamicAnnealer) (tick : Z) (g : Random.rng)
  (self' : DynamicAnnealer) (g' : Random.rng) :
  run_tick math_exp self tick g = Ok (self', g') ->
  Forall (fun a => status a <> blocked) (agents self')
  /\ exists self2 pm self3 pm3 self4,
      tick_propose math_exp self tick g = Ok (self2, pm, g')
      /\ tick_arbitrate self2 pm = Ok (self3, pm3)
      /\ tick_commit self3 pm3 = Ok self4
      /\ self' = tick_unblock self4
      /\ Forall2 (fun a a2 => status a2 = blocked -> status a = blocked)
                 (agents self) (agents self2)
      /\ Forall2 (fun before_after a' =>
                    status (fst before_after) <> blocked ->
                    status (snd before_after) = blocked ->
                    a' = set_status (fst before_after) active)
                 (combine (agents self2) (agents self3)) (agents self')
      /\ Forall2 (fun a a' =>
                    (status a = blocked -> a' = set_status a active)
                    /\ (status a <> blocked -> a' = a))
                 (agents self4) (agents self').
Proof.
  intros H. split; [eapply run_tick_no_blocked; eassumption|].
  destruct (run_tick_phases math_exp _ _ _ _ _ H)
    as (self2 & pm & self3 & pm3 & self4 & H2 & H3 & H4 & ->).
  exists self2, pm, self3, pm3, self4.
  do 4 (split; [assumption || reflexivity|]).
  split; [eapply tick_propose_blocks_nobody; eassumption|]. split.
  - eapply arbiter_blocked_then_active; try eassumption.
    eapply tick_propose_keys; eassumption.
  - cbn [tick_unblock agents with_world]. unfold unblock_all.
    induction (agents self4) as [|a l IH]; cbn [map]; constructor;
      [apply unblock_spec | exact IH].
Qed.

Lemma blocking_is_transient_witness :
  exists self' g',
    run_tick exp_lower twin_annealer 0 twin_tape = Ok (self', g')
    /\ (exists self2 pm self3 pm3,
          tick_propose exp_lower twin_annealer 0 twin_tape = Ok (self2, pm, g')
          /\ tick_arbitrate self2 pm = Ok (self3, pm3)
          /\ map status (agents self3) = [blocked; blocked])
    /\ map status (agents self') = [active; active]
    /\ Forall (fun a => status a <> blocked) (agents self').
Proof.
  do 2 eexists. split; [vm_compute; reflexivity|].
  split; [do 4 eexists; split; [vm_compute; reflexivity|];
          split; [vm_compute; reflexivity | reflexivity]|].
  split; [reflexivity|].
  refine (proj1 (blocking_is_transient exp_lower twin_annealer 0 twin_tape
                   _ _ _)).
  vm_compute. reflexivity.
Defined.

(** C8. The route history of an agent is never empty, starts with
    [start_node] and ends with [current_node]: this holds after
    construction, is kept by every [step_to], which appends exactly the new
    node to the history, and so holds for every agent after every tick and at
    the end of every run of the scheduler, where the history an agent had
    before is a prefix of the one it has after. *)
Theorem route_history_invariant :
  (forall aid start goal, route_inv (Agent_init aid start goal))
  /\ (forall a n, route_inv a ->
        route_inv (step_to a n) /\ route (step_to a n) = route a ++ [n]
        /\ start_node (step_to a n) = start_node a)
  /\ (forall math_exp self tick g self' g',
        Forall route_inv (agents self) ->
        run_tick math_exp self tick g = Ok (self', g') ->
        Forall route_inv (agents self')
        /\ Forall2 extends (agents self) (agents self'))
  /\ (forall math_exp self g self' g' e,
        Forall route_inv (agents self) ->
        run math_exp self g = Ok (self', g', e) ->
        Forall route_inv (agents self')
        /\ Forall2 extends (agents self) (agents self')).
Proof.
  split; [exact Agent_init_route_inv|]. split; [|split].
  - intros a n Ha. split; [now apply step_to_route_inv|].
    destruct (step_to_fields a n) as (_ & Hs & _ & _ & Hr & _). auto.
  - intros math_exp self tick g self' g' Hall H.
    apply run_tick_evolves in H. apply Forall2_evolves_extends in H.
    destruct H; auto.
  - intros math_exp self g self' g' e Hall H.
    apply run_evolves in H. apply Forall2_evolves_extends in H.
    destruct H; auto.
Qed.

Lemma route_history_invariant_witness :
  route_inv (Agent_init "A1" 1 3)
  /\ route_inv (step_to (Agent_init "A1" 1 3) 3)
  /\ exists self' g' e,
      run exp_lower sparse_annealer tape = Ok (self', g', e)
      /\ Forall route_inv (agents sparse_annealer)
      /\ Forall route_inv (agents self')
      /\ Forall2 extends (agents sparse_annealer) (agents self').
Proof.
  destruct route_history_invariant as (Hinit & Hstep & _ & Hrun).
  split; [apply Hinit|]. split; [apply Hstep, Hinit|].
  assert (Hall : Forall route_inv (agents sparse_annealer))
    by (repeat constructor; apply Hinit).
  do 3 eexists. split; [vm_compute; reflexivity|].
  split; [exact Hall|].
  refine (Hrun exp_lower sparse_annealer tape _ _ _ Hall _).
  vm_compute. reflexivity.
Defined.

(** C9 (the code departs from it).  On a route with fewer than four entries
    [tsp_2opt_neighbor] returns the route unchanged and draws nothing, and
    [quantum_jump_neighbor] does the same through it; but the candidate
    returned carries the [total_cost] of the input, it is not reset to
    [None]. *)
Theorem short_route_neighbor_keeps_cost (cur : Solution) (problem : Problem)
  (jump_prob : Q) (g : Random.rng) :
  (length (routes cur) < 4)%nat ->
  tsp_2opt_neighbor cur problem g
  = Ok (mkSolution (routes cur) (total_cost cur), g)
  /\ quantum_jump_neighbor cur problem jump_prob g
     = Ok (mkSolution (routes cur) (total_cost cur), g).
Proof.
  intros Hn. unfold quantum_jump_neighbor, tsp_2opt_neighbor.
  destruct (Nat.ltb_spec (length (routes cur)) 4); [split; reflexivity | lia].
Qed.

Lemma short_route_neighbor_keeps_cost_witness :
  tsp_2opt_neighbor evaluated_triangle ring []
  = Ok (mkSolution [1; 2; 1] (Some 2%Q), [])
  /\ quantum_jump_neighbor evaluated_triangle ring (5 # 100) []
     = Ok (mkSolution [1; 2; 1] (Some 2%Q), []).
Proof.
  apply (short_route_neighbor_keeps_cost evaluated_triangle ring (5 # 100) []).
  simpl. lia.
Defined.

(** C10. [step_to] takes no graph: for every node id it sets
    [current_node], appends the node to the route and marks the agent
    completed exactly when the node is the goal, leaving id, start and goal
    alone.  The commit step calls it with whatever was proposed: on the
    sparse graph the agent is moved from 1 to 3 although there is no edge
    from 1 to 3, and its final route history is [1; 3]. *)
Theorem step_to_ignores_the_graph :
  (forall (a : Agent) (next_node : Z),
      current_node (step_to a next_node) = next_node
      /\ route (step_to a next_node) = route a ++ [next_node]
      /\ status (step_to a next_node)
         = (if next_node =? goal_node a then completed else status a)
      /\ id (step_to a next_node) = id a
      /\ start_node (step_to a next_node) = start_node a
      /\ goal_node (step_to a next_node) = goal_node a)
  /\ (forall math_exp : Q -> result Q,
        exists self' g' e a,
          run math_exp sparse_annealer tape = Ok (self', g', e)
          /\ agents self' = [a]
          /\ route a = [1; 3]
          /\ status a = completed
          /\ In (1, 3) (hops (route a))
          /\ has_edge (graph (problem self')) 1 3 = false).
Proof.
  split.
  - intros a n. destruct (step_to_fields a n) as (? & ? & ? & ? & ? & ?).
    repeat split; assumption.
  - intros math_exp. do 4 eexists.
    split; [vm_compute; reflexivity|].
    cbn [agents]. split; [reflexivity|]. cbn. repeat split. now left.
Qed.

(** * Further properties of the code *)

(** ** The graph model ([models/problem.py]) *)

Lemma edge_eqb_eq (e1 e2 : Z * Z) : edge_eqb e1 e2 = true <-> e1 = e2.
Proof.
  destruct e1 as [a b], e2 as [c d]. unfold edge_eqb. cbn [fst snd].
  rewrite andb_true_iff, !Z.eqb_eq. split; [intros [-> ->] | intros [= -> ->]];
    auto.
Qed.

Lemma edge_eqb_refl (e : Z * Z) : edge_eqb e e = true.
Proof. now apply edge_eqb_eq. Qed.

Lemma edge_eqb_sym (e1 e2 : Z * Z) : edge_eqb e1 e2 = edge_eqb e2 e1.
Proof.
  destruct (edge_eqb e1 e2) eqn:E1, (edge_eqb e2 e1) eqn:E2; auto.
  - apply edge_eqb_eq in E1. subst. now rewrite edge_eqb_refl in E2.
  - apply edge_eqb_eq in E2. subst. now rewrite edge_eqb_refl in E1.
Qed.

Lemma edge_lookup_store (es : list ((Z * Z) * Q)) (e e' : Z * Z) (w : Q) :
  edge_lookup (edge_store es e w) e'
  = if edge_eqb e e' then Some w else edge_lookup es e'.
Proof.
  induction es as [|[e0 w0] es IH]; cbn [edge_store edge_lookup].
  - reflexivity.
  - destruct (edge_eqb e0 e) eqn:E0; cbn [edge_lookup].
    + apply edge_eqb_eq in E0. subst e0. now destruct (edge_eqb e e').
    + rewrite IH. destruct (edge_eqb e0 e') eqn:E1; [|reflexivity].
      apply edge_eqb_eq in E1. subst e'. now rewrite edge_eqb_sym, E0.
Qed.

Lemma edge_lookup_drop (es : list ((Z * Z) * Q)) (e e' : Z * Z) :
  edge_lookup (filter (fun p => negb (edge_eqb (fst p) e)) es) e'
  = if edge_eqb e e' then None else edge_lookup es e'.
Proof.
  induction es as [|[e0 w0] es IH]; cbn [filter edge_lookup fst].
  - now destruct (edge_eqb e e').
  - destruct (edge_eqb e0 e) eqn:E0; cbn [negb edge_lookup].
    + rewrite IH. apply edge_eqb_eq in E0. subst e0.
      now destruct (edge_eqb e e').
    + rewrite IH. destruct (edge_eqb e0 e') eqn:E1; [|reflexivity].
      apply edge_eqb_eq in E1. subst e'. now rewrite edge_eqb_sym, E0.
Qed.

Lemma add_node_edges (G : DiGraph) (n : Z) : g_edges (add_node G n) = g_edges G.
Proof. unfold add_node. now destruct (mem_Z n (g_nodes G)). Qed.

Lemma add_edge_distance_eq (p : Problem) (u v : Z) (w : Q) (u' v' : Z) :
  distance (add_edge p u v w) u' v'
  = (if (u =? u') && (v =? v') then Ok w else distance p u' v')
  /\ nodes (add_edge p u v w) = nodes p.
Proof.
  split; [|reflexivity].
  unfold distance, add_edge, graph_add_edge. cbn [graph g_edges].
  rewrite edge_lookup_store, !add_node_edges.
  unfold edge_eqb. cbn [fst snd]. now destruct ((u =? u') && (v =? v')).
Qed.

Lemma remove_edge_distance_eq (p : Problem) (u v a b : Z) :
  distance (remove_edge p u v) a b
  = if (u =? a) && (v =? b) then Raise ValueError else distance p a b.
Proof.
  change ((u =? a) && (v =? b)) with (edge_eqb (u, v) (a, b)).
  unfold remove_edge, has_edge, distance.
  destruct (edge_lookup (g_edges (graph p)) (u, v)) eqn:E;
    cbn [graph g_edges graph_remove_edge].
  - rewrite edge_lookup_drop. now destruct (edge_eqb (u, v) (a, b)).
  - destruct (edge_eqb (u, v) (a, b)) eqn:Eab; [|reflexivity].
    apply edge_eqb_eq in Eab. injection Eab as <- <-. now rewrite E.
Qed.

(** X1. [add_edge] inserts or overwrites: afterwards [distance] on that pair
    returns the new weight, every other pair answers as before, and the node
    list of the problem is untouched. *)
Theorem add_edge_then_distance (p : Problem) (u v : Z) (w : Q) (u' v' : Z) :
  distance (add_edge p u v w) u' v'
  = (if (u =? u') && (v =? v') then Ok w else distance p u' v')
  /\ nodes (add_edge p u v w) = nodes p.
Proof. apply add_edge_distance_eq. Qed.

(** X2. [remove_edge]: afterwards [distance] on that pair raises
    [ValueError] and every other pair answers as before; removing an absent
    edge changes nothing, so the operation is idempotent. *)
Theorem remove_edge_then_distance (p : Problem) (u v u' v' : Z) :
  distance (remove_edge p u v) u' v'
  = (if (u =? u') && (v =? v') then Raise ValueError else distance p u' v')
  /\ (has_edge (graph p) u v = false -> remove_edge p u v = p)
  /\ remove_edge (remove_edge p u v) u v = remove_edge p u v.
Proof.
  split; [apply remove_edge_distance_eq|]. split.
  - intros H. unfold remove_edge. now rewrite H.
  - assert (Hno : has_edge (graph (remove_edge p u v)) u v = false).
    { unfold has_edge. pose proof (remove_edge_distance_eq p u v u v) as Hd.
      unfold distance in Hd. rewrite !Z.eqb_refl in Hd. cbn [andb] in Hd.
      now destruct (edge_lookup (g_edges (graph (remove_edge p u v))) (u, v)). }
    unfold remove_edge at 1. now rewrite Hno.
Qed.

Lemma mem_Z_In (x : Z) (l : list Z) : mem_Z x l = true <-> In x l.
Proof.
  unfold mem_Z. rewrite existsb_exists. split.
  - intros (y & Hy & E). apply Z.eqb_eq in E. now subst.
  - intros H. exists x. split; [assumption | apply Z.eqb_refl].
Qed.

Lemma edge_lookup_In (es : list ((Z * Z) * Q)) (e : Z * Z) :
  (exists w, In (e, w) es) <-> edge_lookup es e <> None.
Proof.
  induction es as [|[e0 w0] es IH]; cbn [edge_lookup In].
  - split; [intros (w & []) | congruence].
  - destruct (edge_eqb e0 e) eqn:E0.
    + apply edge_eqb_eq in E0. subst. split; [discriminate|].
      intros _. exists w0. now left.
    + rewrite <- IH. split.
      * intros (w & [H|H]); [|now exists w].
        injection H as -> _. now rewrite edge_eqb_refl in E0.
      * intros (w & H). exists w. now right.
Qed.

Lemma edge_store_keys (es : list ((Z * Z) * Q)) (e : Z * Z) (w : Q) :
  (edge_lookup es e <> None /\ map fst (edge_store es e w) = map fst es)
  \/ (edge_lookup es e = None
      /\ map fst (edge_store es e w) = map fst es ++ [e]
      /\ ~ In e (map fst es)).
Proof.
  induction es as [|[e0 w0] es IH]; cbn [edge_store edge_lookup map fst].
  - right. repeat split. intros [].
  - destruct (edge_eqb e0 e) eqn:E0; cbn [map fst].
    + left. split; [discriminate | reflexivity].
    + destruct IH as [[H1 H2] | (H1 & H2 & H3)].
      * left. split; [assumption | now rewrite H2].
      * right. split; [assumption|]. split; [now rewrite H2|].
        intros [H|H]; [|contradiction].
        subst. now rewrite edge_eqb_refl in E0.
Qed.

Lemma edge_store_In (es : list ((Z * Z) * Q)) (e : Z * Z) (w : Q)
  (e' : Z * Z) (w' : Q) :
  In (e', w') (edge_store es e w) -> e' = e \/ In (e', w') es.
Proof.
  induction es as [|[e0 w0] es IH]; cbn [edge_store].
  - intros [[= <- _]|[]]. now left.
  - destruct (edge_eqb e0 e) eqn:E0.
    + apply edge_eqb_eq in E0. subst.
      intros [[= <- _]|H]; [now left | right; now right].
    + intros [H|H]; [right; now left|].
      destruct (IH H); [now left | right; now right].
Qed.

Lemma NoDup_map_filter {A B : Type} (f : A -> B) (g : A -> bool) (l : list A) :
  NoDup (map f l) -> NoDup (map f (filter g l)).
Proof.
  induction l as [|x l IH]; cbn [map filter]; [auto|].
  intros H. inversion H as [|? ? Hnot Hnd]; subst.
  destruct (g x); [|now apply IH]. cbn [map]. constructor; [|now apply IH].
  intros Hin. apply Hnot. apply in_map_iff in Hin.
  destruct Hin as (y & <- & Hy). apply filter_In in Hy. now apply in_map.
Qed.

Lemma add_node_nodes (G : DiGraph) (n m : Z) :
  In m (g_nodes (add_node G n)) <-> In m (g_nodes G) \/ m = n.
Proof.
  unfold add_node. destruct (mem_Z n (g_nodes G)) eqn:E; cbn [g_nodes].
  - apply mem_Z_In in E. split; [now left | intros [H| ->]; assumption].
  - rewrite in_app_iff. cbn [In]. intuition congruence.
Qed.

Lemma add_node_wf (G : DiGraph) (n : Z) : graph_wf G -> graph_wf (add_node G n).
Proof.
  intros (Hn & He & Hend). unfold graph_wf.
  rewrite add_node_edges. split; [|split; [assumption|]].
  - unfold add_node. destruct (mem_Z n (g_nodes G)) eqn:E; [assumption|].
    cbn [g_nodes]. apply NoDup_app; [assumption | repeat constructor; intros [] |].
    intros a Ha [<-|[]]. apply mem_Z_In in Ha. congruence.
  - intros u v w H. destruct (Hend u v w H) as [Hu Hv].
    split; apply add_node_nodes; now left.
Qed.

Lemma graph_add_edge_wf (G : DiGraph) (u v : Z) (w : Q) :
  graph_wf G -> graph_wf (graph_add_edge G u v w).
Proof.
  intros HG. pose proof (add_node_wf _ v (add_node_wf _ u HG)) as (Hn & He & Hend).
  unfold graph_add_edge. unfold graph_wf. cbn [g_nodes g_edges].
  split; [assumption|]. split.
  - destruct (edge_store_keys (g_edges (add_node (add_node G u) v)) (u, v) w)
      as [[_ ->] | (_ & -> & Hnot)]; [assumption|].
    apply NoDup_app; [assumption | repeat constructor; intros [] |].
    intros a Ha [<-|[]]. contradiction.
  - intros a b c H. apply edge_store_In in H. destruct H as [[= -> ->]|H].
    + split; apply add_node_nodes; [left; apply add_node_nodes|]; now right.
    + now apply (Hend a b c).
Qed.

Lemma graph_remove_edge_wf (G : DiGraph) (u v : Z) :
  graph_wf G -> graph_wf (graph_remove_edge G u v).
Proof.
  intros (Hn & He & Hend). unfold graph_wf, graph_remove_edge.
  cbn [g_nodes g_edges]. split; [assumption|]. split.
  - now apply NoDup_map_filter.
  - intros a b c H. apply filter_In in H. now apply (Hend a b c).
Qed.

Lemma build_graph_wf (ns : list Z) (es : list ((Z * Z) * Q)) :
  graph_wf (_build_graph ns es).
Proof.
  unfold _build_graph.
  assert (H0 : graph_wf (fold_left add_node ns (mkDiGraph [] []))).
  { assert (Hg : forall G, graph_wf G -> graph_wf (fold_left add_node ns G)).
    { induction ns as [|n ns IH]; intros G HG; cbn [fold_left]; [assumption|].
      apply IH. now apply add_node_wf. }
    apply Hg. split; [constructor|]. split; [constructor|]. intros u v w []. }
  revert H0. generalize (fold_left add_node ns (mkDiGraph [] [])).
  induction es as [|e es IH]; intros G HG; cbn [fold_left]; [assumption|].
  apply IH. now apply graph_add_edge_wf.
Qed.

(** X3. [update_edge_weight] raises [KeyError] exactly when the edge is
    absent.  When the edge is there, the new weight is what [distance] then
    returns for it, and nothing else changes: the other distances, the set
    of edges, the neighbour lists and the node list are as before. *)
Theorem update_edge_weight_spec (p : Problem) (u v : Z) (w : Q) :
  (has_edge (graph p) u v = false ->
   update_edge_weight p u v w = Raise KeyError)
  /\ (has_edge (graph p) u v = true ->
      exists p',
        update_edge_weight p u v w = Ok p'
        /\ nodes p' = nodes p
        /\ (forall a b, distance p' a b
                        = if (u =? a) && (v =? b) then Ok w
                          else distance p a b)
        /\ (forall a b, has_edge (graph p') a b = has_edge (graph p) a b)
        /\ (forall a, get_neighbors p' a = get_neighbors p a)).
Proof.
  unfold update_edge_weight. split; intros H; rewrite H; [reflexivity|].
  eexists. split; [reflexivity|]. split; [reflexivity|].
  assert (Hl : forall a b,
             edge_lookup (edge_store (g_edges (graph p)) (u, v) w) (a, b)
             = if (u =? a) && (v =? b) then Some w
               else edge_lookup (g_edges (graph p)) (a, b)).
  { intros a b. now rewrite edge_lookup_store. }
  split; [|split].
  - intros a b. unfold distance. cbn [graph g_edges]. rewrite Hl.
    now destruct ((u =? a) && (v =? b)).
  - intros a b. unfold has_edge in *. cbn [graph g_edges]. rewrite Hl.
    destruct ((u =? a) && (v =? b)) eqn:E; [|reflexivity].
    apply andb_true_iff in E. destruct E as [Ea Eb].
    apply Z.eqb_eq in Ea, Eb. subst a b.
    now destruct (edge_lookup (g_edges (graph p)) (u, v)).
  - intros a. unfold get_neighbors. cbn [graph g_nodes g_edges].
    destruct (mem_Z a (g_nodes (graph p))); [|reflexivity]. f_equal.
    assert (Hpres : edge_lookup (g_edges (graph p)) (u, v) <> None).
    { unfold has_edge in H.
      destruct (edge_lookup (g_edges (graph p)) (u, v)); congruence. }
    clear H Hl. induction (g_edges (graph p)) as [|[e0 w0] es IH];
      [contradiction|].
    cbn [edge_store edge_lookup] in *.
    destruct (edge_eqb e0 (u, v)); cbn [filter fst snd map].
    + now destruct (fst e0 =? a).
    + destruct (fst e0 =? a); cbn [map fst snd]; now rewrite IH.
Qed.

Lemma update_edge_weight_witness :
  exists p',
    update_edge_weight ring 1 3 (7 # 2) = Ok p'
    /\ distance p' 1 3 = Ok (7 # 2)%Q
    /\ distance p' 1 2 = Ok 1%Q
    /\ update_edge_weight ring 4 2 (7 # 2) = Raise KeyError.
Proof.
  destruct (update_edge_weight_spec ring 1 3 (7 # 2)) as [_ Hok].
  destruct (Hok eq_refl) as (p' & E & _ & Hd & _).
  exists p'. split; [exact E|].
  split; [exact (Hd 1 3)|]. split; [exact (Hd 1 2)|].
  exact (proj1 (update_edge_weight_spec ring 4 2 (7 # 2)) eq_refl).
Defined.

(** X4. [get_neighbors] raises (NetworkX's error) exactly for a node that
    the graph does not hold; otherwise it lists, without repetition on a
    well-formed graph, exactly the targets [v] for which the edge from the
    node to [v] exists.  On a well-formed graph it returns for both
    endpoints of every edge. *)
Theorem get_neighbors_spec (p : Problem) (u : Z) :
  (mem_Z u (g_nodes (graph p)) = false <->
   get_neighbors p u = Raise NetworkXError)
  /\ (forall ns, get_neighbors p u = Ok ns ->
        (forall v, In v ns <-> has_edge (graph p) u v = true)
        /\ (graph_wf (graph p) -> NoDup ns))
  /\ (graph_wf (graph p) ->
      forall v, has_edge (graph p) u v = true ->
                (exists ns, get_neighbors p u = Ok ns)
                /\ exists ns, get_neighbors p v = Ok ns).
Proof.
  unfold get_neighbors. split; [|split].
  - destruct (mem_Z u (g_nodes (graph p))); split; congruence.
  - intros ns H. destruct (mem_Z u (g_nodes (graph p))); [|discriminate].
    injection H as <-. split.
    + intros v. unfold has_edge. rewrite in_map_iff. split.
      * intros ([[a b] w] & <- & Hin). apply filter_In in Hin.
        cbn [fst snd] in *. destruct Hin as [Hin Ha].
        apply Z.eqb_eq in Ha. subst a.
        assert (Hex : exists w, In ((u, b), w) (g_edges (graph p)))
          by now exists w.
        apply edge_lookup_In in Hex.
        now destruct (edge_lookup (g_edges (graph p)) (u, b)).
      * intros H.
        assert (Hne : edge_lookup (g_edges (graph p)) (u, v) <> None)
          by (destruct (edge_lookup (g_edges (graph p)) (u, v)); congruence).
        apply edge_lookup_In in Hne. destruct Hne as (w & Hin).
        exists ((u, v), w). split; [reflexivity|].
        apply filter_In. split; [assumption | apply Z.eqb_refl].
    + intros (_ & He & _). revert He.
      induction (g_edges (graph p)) as [|[[a b] w] es IH];
        cbn [map fst filter snd]; [constructor|].
      intros Hnd. inversion Hnd as [|? ? Hnot Hnd']; subst.
      destruct (Z.eqb_spec a u) as [->|Hne]; [|now apply IH].
      cbn [map fst snd]. constructor; [|now apply IH].
      intros Hin. apply Hnot. apply in_map_iff in Hin.
      destruct Hin as ([[a' b'] w'] & Hb & Hf). apply filter_In in Hf.
      cbn [fst snd] in *. destruct Hf as [Hf Ha]. apply Z.eqb_eq in Ha.
      subst. now apply (in_map fst) in Hf.
  - intros (_ & _ & Hend) v H. unfold has_edge in H.
    assert (Hne : edge_lookup (g_edges (graph p)) (u, v) <> None)
      by (destruct (edge_lookup (g_edges (graph p)) (u, v)); congruence).
    apply edge_lookup_In in Hne. destruct Hne as (w & Hin).
    destruct (Hend u v w Hin) as [Hu Hv].
    apply mem_Z_In in Hu, Hv. rewrite Hu, Hv. split; now eexists.
Qed.

(** X5. The digraph that [Problem] builds is well formed (no node and no
    edge stored twice, every edge between nodes of the graph), and
    [add_edge], [remove_edge] and a successful [update_edge_weight] keep it
    so. *)
Theorem graph_stays_well_formed :
  (forall ns es, graph_wf (graph (Problem_init ns es)))
  /\ (forall p u v w,
        graph_wf (graph p) ->
        graph_wf (graph (add_edge p u v w))
        /\ graph_wf (graph (remove_edge p u v))
        /\ forall p', update_edge_weight p u v w = Ok p' ->
                      graph_wf (graph p')).
Proof.
  split; [intros ns es; apply build_graph_wf|].
  intros p u v w HG. split; [now apply graph_add_edge_wf|]. split.
  - unfold remove_edge. destruct (has_edge (graph p) u v); [|assumption].
    now apply graph_remove_edge_wf.
  - intros p' H. unfold update_edge_weight in H.
    destruct (has_edge (graph p) u v) eqn:Hh; [|discriminate].
    injection H as <-. destruct HG as (Hn & He & Hend).
    unfold graph_wf. cbn [graph g_nodes g_edges].
    split; [assumption|]. split.
    + destruct (edge_store_keys (g_edges (graph p)) (u, v) w)
        as [[_ ->] | (Hnone & _)]; [assumption|].
      unfold has_edge in Hh. now rewrite Hnone in Hh.
    + intros a b c H. apply edge_store_In in H.
      destruct H as [[= -> ->]|H]; [|now apply (Hend a b c)].
      unfold has_edge in Hh.
      assert (Hne : edge_lookup (g_edges (graph p)) (u, v) <> None)
        by (destruct (edge_lookup (g_edges (graph p)) (u, v)); congruence).
      apply edge_lookup_In in Hne. destruct Hne as (w0 & Hin).
      now apply (Hend u v w0).
Qed.

Lemma edge_lookup_app (l1 l2 : list ((Z * Z) * Q)) (e : Z * Z) :
  edge_lookup (l1 ++ l2) e
  = match edge_lookup l1 e with
    | Some w => Some w
    | None => edge_lookup l2 e
    end.
Proof.
  induction l1 as [|[e0 w0] l1 IH]; cbn [app edge_lookup]; [reflexivity|].
  now destruct (edge_eqb e0 e).
Qed.

Lemma build_edges_lookup (es : list ((Z * Z) * Q)) :
  forall (G : DiGraph) (e : Z * Z),
    edge_lookup
      (g_edges (fold_left
                  (fun G e => graph_add_edge G (fst (fst e)) (snd (fst e))
                                             (snd e)) es G)) e
    = match edge_lookup (rev es) e with
      | Some w => Some w
      | None => edge_lookup (g_edges G) e
      end.
Proof.
  induction es as [|[[a b] w] es IH]; intros G e; cbn [fold_left rev].
  - reflexivity.
  - rewrite IH, edge_lookup_app. cbn [fst snd edge_lookup].
    destruct (edge_lookup (rev es) e); [reflexivity|].
    unfold graph_add_edge. cbn [g_edges].
    rewrite edge_lookup_store, !add_node_edges.
    now destruct (edge_eqb (a, b) e).
Qed.

Lemma fold_add_node_edges (ns : list Z) :
  forall G, g_edges (fold_left add_node ns G) = g_edges G.
Proof.
  induction ns as [|n ns IH]; intros G; cbn [fold_left]; [reflexivity|].
  now rewrite IH, add_node_edges.
Qed.

Lemma fold_add_node_nodes (ns : list Z) :
  forall G n, In n (g_nodes (fold_left add_node ns G))
              <-> In n (g_nodes G) \/ In n ns.
Proof.
  induction ns as [|m ns IH]; intros G n; cbn [fold_left In].
  - tauto.
  - rewrite IH, add_node_nodes. intuition congruence.
Qed.

Lemma fold_add_edge_nodes (es : list ((Z * Z) * Q)) :
  forall G n,
    In n (g_nodes G) ->
    In n (g_nodes (fold_left
                     (fun G e => graph_add_edge G (fst (fst e)) (snd (fst e))
                                                (snd e)) es G)).
Proof.
  induction es as [|e es IH]; intros G n H; cbn [fold_left]; [assumption|].
  apply IH. unfold graph_add_edge. cbn [g_nodes].
  apply add_node_nodes. left. apply add_node_nodes. now left.
Qed.

(** X6. What [Problem] answers after construction: [distance] returns the
    weight of the last entry of the edge list for that pair (a later entry
    overwrites an earlier one) and raises [ValueError] when the list has
    none; the node list is the one given; and [get_neighbors] returns for
    every node of that list. *)
Theorem problem_init_lookup (ns : list Z) (es : list ((Z * Z) * Q)) :
  (forall u v,
      distance (Problem_init ns es) u v
      = match edge_lookup (rev es) (u, v) with
        | Some w => Ok w
        | None => Raise ValueError
        end)
  /\ nodes (Problem_init ns es) = ns
  /\ forall n, In n ns ->
               exists l, get_neighbors (Problem_init ns es) n = Ok l.
Proof.
  split; [|split; [reflexivity|]].
  - intros u v. unfold distance, Problem_init, _build_graph. cbn [graph].
    rewrite build_edges_lookup, fold_add_node_edges. cbn [g_edges edge_lookup].
    now destruct (edge_lookup (rev es) (u, v)).
  - intros n Hn. unfold get_neighbors, Problem_init, _build_graph.
    cbn [graph].
    assert (Hin : In n (g_nodes
                (fold_left
                   (fun G e => graph_add_edge G (fst (fst e)) (snd (fst e))
                                              (snd e)) es
                   (fold_left add_node ns (mkDiGraph [] []))))).
    { apply fold_add_edge_nodes. apply fold_add_node_nodes. now right. }
    apply mem_Z_In in Hin. rewrite Hin. now eexists.
Qed.

(** ** More on the cost evaluator *)

Lemma fold_left_hops_ext (p1 p2 : Problem) (hs : list (Z * Z)) :
  (forall h, In h hs -> hop_cost p1 h = hop_cost p2 h) ->
  forall t : Q,
    fold_left (fun total hop => (total + hop_cost p1 hop)%Q) hs t
    = fold_left (fun total hop => (total + hop_cost p2 hop)%Q) hs t.
Proof.
  induction hs as [|h hs IH]; intros Hext t; cbn [fold_left]; [reflexivity|].
  rewrite (Hext h (or_introl eq_refl)). apply IH.
  intros h' Hh'. apply Hext. now right.
Qed.

Lemma hop_cost_distance (p1 p2 : Problem) (a b : Z) :
  distance p1 a b = distance p2 a b -> hop_cost p1 (a, b) = hop_cost p2 (a, b).
Proof.
  unfold distance, hop_cost.
  destruct (edge_lookup (g_edges (graph p1)) (a, b)),
           (edge_lookup (g_edges (graph p2)) (a, b)); congruence.
Qed.

(** X8. The evaluator reads the live graph, and only the hops of the route:
    adding, removing or reweighting an edge that is not a hop of the route
    leaves the cost of the route as it was. *)
Theorem cost_ignores_edges_off_the_route (sol : Solution) (p : Problem)
  (u v : Z) (w : Q) :
  ~ In (u, v) (hops (routes sol)) ->
  tsp_total_cost sol (add_edge p u v w) = tsp_total_cost sol p
  /\ tsp_total_cost sol (remove_edge p u v) = tsp_total_cost sol p
  /\ forall p', update_edge_weight p u v w = Ok p' ->
                tsp_total_cost sol p' = tsp_total_cost sol p.
Proof.
  intros Hoff.
  assert (Hframe : forall p',
             (forall a b, (a, b) <> (u, v) -> distance p' a b = distance p a b) ->
             tsp_total_cost sol p' = tsp_total_cost sol p).
  { intros p' Hd. rewrite !tsp_total_cost_ok. unfold spec_total_cost.
    rewrite (fold_left_hops_ext p' p); [reflexivity|].
    intros [a b] Hin. apply hop_cost_distance. apply Hd.
    intros E. apply Hoff. now rewrite <- E. }
  assert (Hneq : forall a b, (a, b) <> (u, v) -> (u =? a) && (v =? b) = false).
  { intros a b Hne. destruct ((u =? a) && (v =? b)) eqn:E; [|reflexivity].
    apply andb_true_iff in E. destruct E as [Ea Eb].
    apply Z.eqb_eq in Ea, Eb. subst. contradiction. }
  split; [|split].
  - apply Hframe. intros a b Hne.
    rewrite (proj1 (add_edge_distance_eq p u v w a b)). now rewrite Hneq.
  - apply Hframe. intros a b Hne.
    rewrite (remove_edge_distance_eq p u v a b). now rewrite Hneq.
  - intros p' Hup. apply Hframe. intros a b Hne.
    unfold update_edge_weight in Hup.
    destruct (has_edge (graph p) u v); [|discriminate]. injection Hup as <-.
    unfold distance. cbn [graph g_edges]. rewrite edge_lookup_store.
    unfold edge_eqb. cbn [fst snd]. now rewrite Hneq.
Qed.

Lemma cost_ignores_edges_off_the_route_witness :
  ~ In (1, 3) (hops [1; 2; 3; 4; 1])
  /\ tsp_total_cost (mkSolution [1; 2; 3; 4; 1] None) (remove_edge ring 1 3)
     = tsp_total_cost (mkSolution [1; 2; 3; 4; 1] None) ring.
Proof.
  assert (H : ~ In (1, 3) (hops (routes (mkSolution [1; 2; 3; 4; 1] None)))).
  { cbn. intuition discriminate. }
  split; [exact H|].
  exact (proj1 (proj2 (cost_ignores_edges_off_the_route
                         (mkSolution [1; 2; 3; 4; 1] None) ring 1 3 0 H))).
Defined.

(** ** More on the perturbation operators *)

Lemma slice_length {A : Type} (l : list A) (i j : nat) :
  (j <= length l)%nat -> length (PyList.slice l i j) = (j - i)%nat.
Proof.
  intros Hj. unfold PyList.slice. rewrite length_firstn, length_skipn. lia.
Qed.

Lemma slice_assign_outside {A : Type} (l : list A) (i j : nat) (seg : list A) :
  (i <= j)%nat -> (j <= length l)%nat -> length seg = (j - i)%nat ->
  firstn i (PyList.slice_assign l i j seg) = firstn i l
  /\ skipn j (PyList.slice_assign l i j seg) = skipn j l
  /\ length (PyList.slice_assign l i j seg) = length l.
Proof.
  intros Hij Hj Hseg. unfold PyList.slice_assign.
  assert (Hfi : length (firstn i l) = i) by (rewrite length_firstn; lia).
  split; [|split].
  - rewrite firstn_app, Hfi, Nat.sub_diag. cbn [firstn].
    rewrite app_nil_r. rewrite firstn_firstn. f_equal. lia.
  - rewrite app_assoc, skipn_app.
    rewrite (skipn_all2 (firstn i l ++ seg))
      by (rewrite length_app; lia).
    rewrite length_app, Hfi, Hseg.
    replace (j - (i + (j - i)))%nat with 0%nat by lia. reflexivity.
  - rewrite !length_app, Hfi, Hseg, length_skipn. lia.
Qed.

(** Either operator, on a route of length at least 4, replaces a slice
    [i, j) with [1 <= i < j <= n - 2] by a permutation of it and returns the
    cost [None]. *)
Lemma neighbor_shape_2opt (cur : Solution) (problem : Problem)
  (g : Random.rng) :
  (4 <= length (routes cur))%nat ->
  exists i j seg g',
    tsp_2opt_neighbor cur problem g
    = Ok (mkSolution (PyList.slice_assign (routes cur) i j seg) None, g')
    /\ (1 <= i)%nat /\ (i < j)%nat /\ (j <= length (routes cur) - 2)%nat
    /\ Permutation (PyList.slice (routes cur) i j) seg.
Proof.
  intros Hn. unfold tsp_2opt_neighbor.
  destruct (Nat.ltb_spec (length (routes cur)) 4); [lia|].
  destruct (sorted_sample2_range 1 (length (routes cur) - 1) g)
    as (i & j & g' & E & Hi & Hij & Hj); [lia|].
  rewrite E. cbn [bind].
  exists i, j, (rev (PyList.slice (routes cur) i j)), g'.
  split; [reflexivity|]. repeat split; try lia. apply Permutation_rev.
Qed.

Lemma neighbor_shape_jump (cur : Solution) (problem : Problem)
  (jump_prob : Q) (g : Random.rng) :
  (4 <= length (routes cur))%nat ->
  exists i j seg g',
    quantum_jump_neighbor cur problem jump_prob g
    = Ok (mkSolution (PyList.slice_assign (routes cur) i j seg) None, g')
    /\ (1 <= i)%nat /\ (i < j)%nat /\ (j <= length (routes cur) - 2)%nat
    /\ Permutation (PyList.slice (routes cur) i j) seg.
Proof.
  intros Hn. unfold quantum_jump_neighbor.
  destruct (Nat.ltb_spec (length (routes cur)) 4); [lia|].
  destruct (Random.random g) as [u g0].
  destruct (Qle_bool jump_prob u); [now apply neighbor_shape_2opt|].
  destruct (sorted_sample2_range 1 (length (routes cur) - 1) g0)
    as (i & j & g1 & E & Hi & Hij & Hj); [lia|].
  rewrite E. cbn [bind].
  destruct (shuffle_permutation (PyList.slice (routes cur) i j) g1)
    as (seg & g2 & E2 & P2 & _).
  rewrite E2. cbn [bind]. exists i, j, seg, g2.
  split; [reflexivity|]. repeat split; try lia. exact P2.
Qed.

Lemma neighbor_shape_fixed (rt : list Z) (i j : nat) (seg : list Z) :
  (1 <= i)%nat -> (i < j)%nat -> (j <= length rt - 2)%nat ->
  (4 <= length rt)%nat ->
  Permutation (PyList.slice rt i j) seg ->
  firstn 1 (PyList.slice_assign rt i j seg) = firstn 1 rt
  /\ skipn (length rt - 2) (PyList.slice_assign rt i j seg)
     = skipn (length rt - 2) rt
  /\ length (PyList.slice_assign rt i j seg) = length rt
  /\ (length rt = 4%nat -> PyList.slice_assign rt i j seg = rt).
Proof.
  intros Hi Hij Hj Hn P.
  assert (Hseg : length seg = (j - i)%nat).
  { rewrite <- (Permutation_length P). apply slice_length. lia. }
  destruct (slice_assign_outside rt i j seg) as (Hf & Hs & Hl); try lia.
  split; [|split; [|split]].
  - replace 1%nat with (Nat.min 1 i) by lia.
    rewrite <- !firstn_firstn. now rewrite Hf.
  - replace (length rt - 2)%nat with ((length rt - 2 - j) + j)%nat by lia.
    rewrite <- !skipn_skipn. now rewrite Hs.
  - exact Hl.
  - intros H4. assert (i = 1%nat) by lia. assert (j = 2%nat) by lia. subst i j.
    assert (Hone : length (PyList.slice rt 1 2) = 1%nat)
      by (rewrite slice_length; lia).
    destruct (PyList.slice rt 1 2) as [|x [|y l]] eqn:Es; try discriminate.
    apply Permutation_length_1_inv in P. subst seg.
    rewrite <- Es. unfold PyList.slice_assign.
    symmetry. apply slice_decompose. lia.
Qed.

(** X10. Neither operator ever moves the first node or the last two nodes
    of a route of length at least 4 (the reversed or shuffled slice stops
    before index [n - 2]); both return a route of the same length with the
    cost [None]; and on a route of exactly 4 entries, the closed tour over
    three nodes, both return the route unchanged. *)
Theorem neighbors_fix_the_tail (cur : Solution) (problem : Problem)
  (jump_prob : Q) (g : Random.rng) :
  (4 <= length (routes cur))%nat ->
  forall out g',
    tsp_2opt_neighbor cur problem g = Ok (out, g')
    \/ quantum_jump_neighbor cur problem jump_prob g = Ok (out, g') ->
    firstn 1 (routes out) = firstn 1 (routes cur)
    /\ skipn (length (routes cur) - 2) (routes out)
       = skipn (length (routes cur) - 2) (routes cur)
    /\ length (routes out) = length (routes cur)
    /\ total_cost out = None
    /\ (length (routes cur) = 4%nat -> routes out = routes cur).
Proof.
  intros Hn out g' H.
  assert (Hshape : exists i j seg,
             out = mkSolution (PyList.slice_assign (routes cur) i j seg) None
             /\ (1 <= i)%nat /\ (i < j)%nat
             /\ (j <= length (routes cur) - 2)%nat
             /\ Permutation (PyList.slice (routes cur) i j) seg).
  { destruct H as [H|H].
    - destruct (neighbor_shape_2opt cur problem g Hn)
        as (i & j & seg & g1 & E & Hrest).
      rewrite E in H. injection H as <- _. now exists i, j, seg.
    - destruct (neighbor_shape_jump cur problem jump_prob g Hn)
        as (i & j & seg & g1 & E & Hrest).
      rewrite E in H. injection H as <- _. now exists i, j, seg. }
  destruct Hshape as (i & j & seg & -> & Hi & Hij & Hj & P).
  cbn [routes total_cost].
  destruct (neighbor_shape_fixed (routes cur) i j seg Hi Hij Hj Hn P)
    as (H1 & H2 & H3 & H4).
  repeat split; assumption.
Qed.

Lemma neighbors_fix_the_tail_witness :
  (4 <= length [1%Z; 2%Z; 3%Z; 1%Z])%nat
  /\ forall out g',
      tsp_2opt_neighbor (mkSolution [1; 2; 3; 1]%Z None) ring [5; 9]%N
      = Ok (out, g')
      \/ quantum_jump_neighbor (mkSolution [1; 2; 3; 1]%Z None) ring (1 # 2)
                               [5; 9]%N = Ok (out, g') ->
      routes out = [1; 2; 3; 1]%Z.
Proof.
  assert (Hn : (4 <= length (routes (mkSolution [1%Z; 2%Z; 3%Z; 1%Z] None)))%nat)
    by (cbn; lia).
  split; [exact Hn|]. intros out g' H.
  destruct (neighbors_fix_the_tail (mkSolution [1; 2; 3; 1]%Z None) ring (1 # 2)
              [5; 9]%N Hn out g' H) as (_ & _ & _ & _ & H4).
  exact (H4 eq_refl).
Defined.

(** ** More on the annealers *)

Lemma swap_permutation_rel {A : Type} (l l' : list A) (i j : nat) :
  (i < length l)%nat -> (j < length l)%nat ->
  PyList.swap l i j = Ok l' -> Permutation l l'.
Proof.
  intros Hi Hj H. destruct (swap_permutation l i j Hi Hj) as (l1 & E & P & _).
  rewrite E in H. now injection H as <-.
Qed.

Lemma get_last_snoc {A : Type} (l : list A) (x : A) :
  PyList.get_last (l ++ [x]) = Ok x.
Proof. now rewrite get_last_app by discriminate. Qed.



Section AnnealerEvaluated.
Variable math_exp : Q -> result Q.

Lemma annealer_loop_evaluated (self : Annealer.t) (iters : nat) :
  forall current current_cost temperature seen g seen' g',
    Annealer.loop math_exp self iters current current_cost temperature seen g
    = Ok (seen', g') ->
    evaluated self (Annealer.best seen) (Annealer.best_cost seen) ->
    Forall (fun c => exists sol, evaluated self sol c)
           (Annealer.accepted seen) ->
    evaluated self (Annealer.best seen') (Annealer.best_cost seen')
    /\ Forall (fun c => exists sol, evaluated self sol c)
              (Annealer.accepted seen').
Proof.
  induction iters as [|iters IH];
    intros current current_cost temperature seen g seen' g' H Hbest Hacc;
    cbn [Annealer.loop] in H.
  - injection H as <- _. now split.
  - bind_cases H. destruct a as [neighbor0 g1].
    bind_cases H. destruct a as [neighbor neighbor_cost].
    bind_cases H. destruct (Random.random g1) as [u g2].
    assert (Hn : evaluated self neighbor neighbor_cost)
      by (now exists neighbor0).
    assert (Hacc' : Forall (fun c => exists sol, evaluated self sol c)
                           (Annealer.accepted seen ++ [neighbor_cost])).
    { apply Forall_app. split; [assumption|].
      constructor; [now exists neighbor | constructor]. }
    destruct (Qltb u a).
    + destruct (Qltb neighbor_cost (Annealer.best_cost seen));
        (destruct (Qltb (temperature * Annealer.cooling_rate self)
                        (Annealer.min_temp self));
         [injection H as <- _; cbn; now split
         |apply IH in H; [exact H | cbn; assumption | cbn; assumption]]).
    + destruct (Qltb (temperature * Annealer.cooling_rate self)
                     (Annealer.min_temp self)).
      * injection H as <- _. now split.
      * apply IH in H; assumption.
Qed.

Lemma annealer_run_evaluated (self : Annealer.t) (g : Random.rng)
  (seen : Annealer.Seen) (g' : Random.rng) :
  Annealer.run_seen math_exp self g = Ok (seen, g') ->
  (exists cand,
      Annealer.cost_fn self cand (Annealer.problem self)
      = Ok (Annealer.best seen, Annealer.best_cost seen))
  /\ (exists current0 g0 current,
         Annealer.initial_solution_fn self (Annealer.problem self) g
         = Ok (current0, g0)
         /\ Annealer.cost_fn self current0 (Annealer.problem self)
            = Ok (current, Annealer.initial_cost seen))
  /\ Forall (fun c => exists cand sol,
                 Annealer.cost_fn self cand (Annealer.problem self)
                 = Ok (sol, c))
            (Annealer.accepted seen).
Proof.
  intros H. unfold Annealer.run_seen in H.
  bind_cases H. destruct a as [current0 g0].
  bind_cases H. destruct a as [current current_cost].
  pose proof (annealer_loop_best_seen math_exp _ _ _ _ _ _ _ _ _ H)
    as (_ & Hinit & _).
  apply annealer_loop_evaluated in H; cbn.
  - destruct H as [Hb Ha]. split; [exact Hb|]. split.
    + exists current0, g0, current. cbn in Hinit. rewrite Hinit. now split.
    + eapply Forall_impl; [|exact Ha]. cbn beta.
      intros c (sol & cand & Hc). now exists cand, sol.
  - now exists current0.
  - constructor.
Qed.

End AnnealerEvaluated.

(** X12. [Annealer.run] returns the best candidate it has seen.  The
    candidate it returns and the cost it holds for it come from one
    evaluation by the cost function (with [tsp_total_cost], the returned
    candidate carries that cost and it is the cost of its route), and this
    cost is no more than the evaluated cost of the initial candidate and no
    more than the evaluated cost of any candidate accepted on the way. *)
Theorem annealer_returns_best_seen (math_exp : Q -> result Q)
  (self : Annealer.t) (g : Random.rng) (seen : Annealer.Seen)
  (g' : Random.rng) :
  Annealer.run_seen math_exp self g = Ok (seen, g') ->
  Annealer.run math_exp self g = Ok (Annealer.best seen, g')
  /\ (exists cand,
         Annealer.cost_fn self cand (Annealer.problem self)
         = Ok (Annealer.best seen, Annealer.best_cost seen))
  /\ (Annealer.cost_fn self = tsp_total_cost ->
      total_cost (Annealer.best seen) = Some (Annealer.best_cost seen)
      /\ Annealer.best_cost seen
         = spec_total_cost (Annealer.problem self)
                           (routes (Annealer.best seen)))
  /\ (exists current0 g0 current,
         Annealer.initial_solution_fn self (Annealer.problem self) g
         = Ok (current0, g0)
         /\ Annealer.cost_fn self current0 (Annealer.problem self)
            = Ok (current, Annealer.initial_cost seen))
  /\ Forall (fun c => exists cand sol,
                 Annealer.cost_fn self cand (Annealer.problem self)
                 = Ok (sol, c))
            (Annealer.accepted seen)
  /\ (Annealer.best_cost seen <= Annealer.initial_cost seen)%Q
  /\ Forall (fun c => (Annealer.best_cost seen <= c)%Q) (Annealer.accepted seen).
Proof.
  intros H.
  destruct (annealer_run_best_seen math_exp _ _ _ _ H) as (Hrun & Hle & Hall).
  destruct (annealer_run_evaluated math_exp _ _ _ _ H)
    as (Hbest & Hinit & Hacc).
  split; [exact Hrun|]. split; [exact Hbest|].
  split; [|split; [exact Hinit|split; [exact Hacc|split; assumption]]].
  intros Hcost. destruct Hbest as (cand & Hc).
  rewrite Hcost, tsp_total_cost_ok in Hc. injection Hc as Hb Hv.
  rewrite <- Hb. cbn [total_cost routes]. split; [now rewrite Hv|].
  now symmetry.
Qed.

Lemma annealer_returns_best_seen_witness :
  exists seen g',
    Annealer.run_seen exp_lower ring_tsp_annealer short_tape = Ok (seen, g')
    /\ Annealer.run exp_lower ring_tsp_annealer short_tape
       = Ok (Annealer.best seen, g')
    /\ routes (Annealer.best seen) = [1; 2; 3; 4; 1]
    /\ total_cost (Annealer.best seen) = Some (Annealer.best_cost seen)
    /\ Annealer.best_cost seen = spec_total_cost ring [1; 2; 3; 4; 1]
    /\ (Annealer.best_cost seen == 4)%Q
    /\ Annealer.accepted seen = [(0 + 2 + 1 + 1 + 1)%Q]
    /\ Forall (fun c => (Annealer.best_cost seen <= c)%Q)
              (Annealer.accepted seen).
Proof.
  do 2 eexists. split; [vm_compute; reflexivity|].
  match goal with
  | |- context [Annealer.run exp_lower ring_tsp_annealer short_tape
                = Ok (Annealer.best ?s, ?g)] =>
      destruct (annealer_returns_best_seen exp_lower ring_tsp_annealer
                  short_tape s g)
        as (Hrun & _ & Htsp & _ & _ & _ & Hall);
        [vm_compute; reflexivity|]
  end.
  destruct (Htsp eq_refl) as [Ht Hc].
  split; [exact Hrun|]. split; [reflexivity|]. split; [exact Ht|].
  split; [exact Hc|]. split; [reflexivity|]. split; [reflexivity|].
  exact Hall.
Defined.

Lemma quantum_jump_keeps (cur : Solution) (problem : Problem) (jump_prob : Q)
  (g : Random.rng) :
  exists out g', quantum_jump_neighbor cur problem jump_prob g = Ok (out, g')
                 /\ Permutation (routes cur) (routes out)
                 /\ same_ends (routes cur) (routes out).
Proof.
  destruct (Nat.lt_ge_cases (length (routes cur)) 4) as [Hs|Hl].
  - unfold quantum_jump_neighbor, tsp_2opt_neighbor.
    destruct (Nat.ltb_spec (length (routes cur)) 4); [|lia].
    do 2 eexists. split; [reflexivity|]. cbn [routes].
    split; [reflexivity | split; reflexivity].
  - destruct (quantum_jump_long cur problem jump_prob g Hl)
      as (out & g' & E & P & He & _).
    now exists out, g'.
Qed.

(** The tour built in step 2 of [_local_sa]. *)
Lemma initial_route_shape (problem : Problem) (agent : Agent) (g : Random.rng)
  (rt : list Z) (g' : Random.rng) :
  initial_route problem agent g = Ok (rt, g') ->
  PyList.get_last rt = Ok (current_node agent)
  /\ exists extra,
      Permutation rt (nodes problem ++ extra)
      /\ Forall (eq (current_node agent)) extra
      /\ (length extra <= 2)%nat.
Proof.
  unfold initial_route. intros H.
  destruct (shuffle_permutation (nodes problem) g) as (rt0 & g1 & E & P & _).
  rewrite E in H. cbn [bind] in H.
  destruct rt0 as [|r0 rt0]; [discriminate|].
  change (PyList.get (r0 :: rt0) 0) with (Ok r0) in H. cbn [bind] in H.
  set (c := current_node agent) in *.
  assert (Hclose : forall rt1 extra1,
             Permutation rt1 (nodes problem ++ extra1) ->
             Forall (eq c) extra1 -> (length extra1 <= 1)%nat ->
             (r_last <- PyList.get_last rt1 ;;
              Ok (if negb (r_last =? c) then rt1 ++ [c] else rt1, g1))
             = Ok (rt, g') ->
             PyList.get_last rt = Ok c
             /\ exists extra,
                 Permutation rt (nodes problem ++ extra)
                 /\ Forall (eq c) extra /\ (length extra <= 2)%nat).
  { intros rt1 extra1 P1 F1 L1 H1.
    destruct (PyList.get_last rt1) as [r_last|] eqn:El; [|discriminate].
    cbn [bind] in H1. destruct (Z.eqb_spec r_last c) as [->|Hne];
      cbn [negb] in H1; injection H1 as <- _.
    - split; [assumption|]. exists extra1. repeat split; auto.
    - split; [apply get_last_snoc|]. exists (extra1 ++ [c]).
      split; [|split].
      + rewrite app_assoc. now apply Permutation_app_tail.
      + apply Forall_app. split; [assumption | repeat constructor].
      + rewrite length_app. cbn. lia. }
  destruct (Z.eqb_spec r0 c) as [Heq|Hne]; cbn [negb bind] in H.
  - apply (Hclose (r0 :: rt0) []); auto.
    rewrite app_nil_r. now symmetry.
  - pose proof (index_spec (r0 :: rt0) c) as Hidx.
    destruct (PyList.index (r0 :: rt0) c) as [idx|e].
    + destruct (PyList.swap (r0 :: rt0) 0 idx) as [rt1|] eqn:Es;
        [|discriminate].
      cbn [bind] in H. apply (Hclose rt1 []); auto.
      rewrite app_nil_r. symmetry. transitivity (r0 :: rt0); [assumption|].
      eapply swap_permutation_rel; [| |eassumption].
      * cbn. lia.
      * apply nth_error_Some. congruence.
    + subst e. cbn [bind] in H. apply (Hclose (c :: r0 :: rt0) [c]); auto.
      rewrite <- Permutation_cons_append. now apply perm_skip; symmetry.
Qed.

Section TourShape.
Variable math_exp : Q -> result Q.

Lemma sa_loop_shape (self : DynamicAnnealer) (iters : nat) :
  forall best best_cost temperature g best' g',
    sa_loop math_exp self iters best best_cost temperature g = Ok (best', g') ->
    Permutation (routes best) (routes best')
    /\ PyList.get_last (routes best') = PyList.get_last (routes best)
    /\ (best' = best
        \/ total_cost best'
           = Some (spec_total_cost (problem self) (routes best'))).
Proof.
  induction iters as [|iters IH];
    intros best best_cost temperature g best' g' H; cbn [sa_loop] in H.
  - injection H as <- _. split; [reflexivity|]. split; [reflexivity | now left].
  - destruct (quantum_jump_keeps best (problem self) (quantum_jump_prob self) g)
      as (nb & g1 & E & P & [_ Hl]).
    rewrite E in H. cbn [bind] in H.
    rewrite tsp_total_cost_ok in H. cbn [bind] in H.
    bind_cases H. destruct (Random.random g1) as [u g2].
    destruct (Qltb u a);
      destruct (Qltb (temperature * cooling_rate self) (min_temp self)).
    + injection H as <- _. cbn [routes total_cost]. auto.
    + apply IH in H. cbn [routes total_cost] in H.
      destruct H as (P' & Hl' & Hc). split; [now transitivity (routes nb)|].
      split; [congruence|]. right. now destruct Hc as [->|Hc].
    + injection H as <- _. split; [reflexivity|]. split; [reflexivity | now left].
    + now apply IH in H.
Qed.

(** X13. [_local_sa] raises [IndexError] on a problem without nodes.  When
    it returns, the tour starts and ends at the agent's current node, holds
    every node id of the problem and nothing else but the current node,
    is at most two entries longer than the node list, and the candidate
    carries the evaluated cost of its tour under the current graph. *)
Theorem local_sa_returns_anchored_tour (self : DynamicAnnealer)
  (agent : Agent) (g : Random.rng) :
  (nodes (problem self) = [] ->
   _local_sa math_exp self agent g = Raise IndexError)
  /\ forall best g',
      _local_sa math_exp self agent g = Ok (best, g') ->
      PyList.get (routes best) 0 = Ok (current_node agent)
      /\ PyList.get_last (routes best) = Ok (current_node agent)
      /\ (forall n, In n (nodes (problem self)) -> In n (routes best))
      /\ (forall n, In n (routes best) ->
                    n = current_node agent \/ In n (nodes (problem self)))
      /\ (length (nodes (problem self)) <= length (routes best)
          <= length (nodes (problem self)) + 2)%nat
      /\ total_cost best
         = Some (spec_total_cost (problem self) (routes best)).
Proof.
  split.
  - intros Hn. unfold _local_sa, initial_route. now rewrite Hn.
  - intros best g' H. split; [eapply local_sa_head; eassumption|].
    unfold _local_sa in H. bind_cases H. destruct a as [rt g1].
    rewrite tsp_total_cost_ok in H. cbn [bind] in H.
    destruct (initial_route_shape _ _ _ _ _ E) as (Hl & extra & P & F & L).
    apply sa_loop_shape in H. cbn [routes] in H.
    destruct H as (P' & Hl' & Hc).
    assert (Pall : Permutation (routes best) (nodes (problem self) ++ extra))
      by (transitivity rt; [now symmetry | assumption]).
    split; [congruence|]. split; [|split; [|split]].
    + intros n Hn. eapply Permutation_in; [symmetry; exact Pall|].
      apply in_or_app. now left.
    + intros n Hn. apply (Permutation_in _ Pall) in Hn.
      apply in_app_or in Hn. destruct Hn as [Hn|Hn]; [now right|].
      left. rewrite Forall_forall in F. symmetry. now apply F.
    + rewrite (Permutation_length Pall), length_app. lia.
    + destruct Hc as [->|Hc]; [reflexivity | assumption].
Qed.

End TourShape.

(** ** More on the collision arbiter *)

Lemma detect_collisions_mem (proposed_moves : moves) (aid : string) :
  NoDup (keys proposed_moves) ->
  (In aid (_detect_collisions proposed_moves)
   <-> exists node, In (aid, node) proposed_moves
                    /\ exists other, other <> aid
                                     /\ In (other, node) proposed_moves).
Proof.
  intros Hnd. unfold _detect_collisions.
  destruct (build_reverse_map_groups proposed_moves) as [Hk Hg].
  rewrite collisions_fold. split.
  - intros [[] | (node & aids & Hin & Hlen & Ha)].
    apply (dict_get_In _ _ _ Hk) in Hin. rewrite Hg in Hin.
    unfold group_of in Hin.
    assert (aids = proposers proposed_moves node)
      by (destruct (proposers proposed_moves node); congruence).
    subst aids. exists node. split; [now apply proposers_In|].
    destruct (another_member _ aid (proposers_NoDup _ node Hnd) Hlen)
      as (b & Hb & Hbin).
    exists b. split; [assumption | now apply proposers_In].
  - intros (node & Hin & other & Hne & Hoin). right.
    exists node, (proposers proposed_moves node).
    apply proposers_In in Hin. apply proposers_In in Hoin.
    split; [|split; [now apply (two_members _ aid other) | assumption]].
    apply (dict_get_In _ _ _ Hk). rewrite Hg. unfold group_of.
    destruct (proposers proposed_moves node); [contradiction | reflexivity].
Qed.

Lemma distinct_targets (pm : moves) :
  NoDup (keys pm) ->
  (NoDup (map snd pm)
   <-> forall a b n, In (a, n) pm -> In (b, n) pm -> a = b).
Proof.
  unfold keys. induction pm as [|[a0 n0] pm IH]; cbn [map fst snd]; intros Hk.
  - split; [intros _ a b n [] | constructor].
  - inversion Hk as [|? ? Hnot Hk']; subst. specialize (IH Hk'). split.
    + intros Hn a b n Ha Hb. inversion Hn as [|? ? Hnn Hn']; subst.
      destruct Ha as [Ea|Ha], Hb as [Eb|Hb].
      * congruence.
      * injection Ea as E1 E2. subst. exfalso. apply Hnn.
        now apply (in_map snd) in Hb.
      * injection Eb as E1 E2. subst. exfalso. apply Hnn.
        now apply (in_map snd) in Ha.
      * now apply (proj1 IH Hn' a b n).
    + intros H. constructor.
      * intros Hin. apply in_map_iff in Hin. destruct Hin as ([b n] & E & Hb).
        cbn [snd] in E. subst n. apply Hnot.
        rewrite (H a0 b n0 (or_introl eq_refl) (or_intror Hb)).
        now apply (in_map fst) in Hb.
      * apply IH. intros a b n Ha Hb. apply (H a b n); now right.
Qed.

(** X14. The list the arbiter returns names no agent twice and only agents
    that proposed; an agent never collides alone (with each id the list
    holds another id with the same target); and the list is empty exactly
    when the proposed targets are pairwise distinct. *)
Theorem collisions_come_in_groups (proposed_moves : moves) :
  NoDup (map fst proposed_moves) ->
  NoDup (_detect_collisions proposed_moves)
  /\ incl (_detect_collisions proposed_moves) (map fst proposed_moves)
  /\ (forall aid, In aid (_detect_collisions proposed_moves) ->
        exists other node,
          other <> aid /\ In other (_detect_collisions proposed_moves)
          /\ In (aid, node) proposed_moves /\ In (other, node) proposed_moves)
  /\ (_detect_collisions proposed_moves = []
      <-> NoDup (map snd proposed_moves)).
Proof.
  intros Hnd. destruct (detect_collisions_NoDup proposed_moves Hnd) as [H1 H2].
  split; [assumption|]. split; [assumption|]. split.
  - intros aid Hin. apply (detect_collisions_mem _ _ Hnd) in Hin.
    destruct Hin as (node & Ha & other & Hne & Ho).
    exists other, node. repeat split; auto.
    apply (detect_collisions_mem _ _ Hnd). exists node. split; [assumption|].
    exists aid. split; [congruence | assumption].
  - rewrite (distinct_targets _ Hnd). split.
    + intros Hempty a b n Ha Hb. destruct (string_dec a b) as [E|Hne]; [assumption|].
      assert (Hin : In a (_detect_collisions proposed_moves)).
      { apply (detect_collisions_mem _ _ Hnd). exists n. split; [assumption|].
        exists b. split; [congruence | assumption]. }
      rewrite Hempty in Hin. destruct Hin.
    + intros Hall. destruct (_detect_collisions proposed_moves) as [|aid l] eqn:E;
        [reflexivity|].
      assert (Hin : In aid (_detect_collisions proposed_moves))
        by (rewrite E; now left).
      apply (detect_collisions_mem _ _ Hnd) in Hin.
      destruct Hin as (node & Ha & other & Hne & Ho).
      exfalso. apply Hne. now apply (Hall other aid node).
Qed.

Lemma collisions_come_in_groups_witness :
  NoDup (map fst [("A1"%string, 2); ("A2"%string, 5); ("A3"%string, 3)])
  /\ _detect_collisions [("A1"%string, 2); ("A2"%string, 5); ("A3"%string, 3)]
     = []
  /\ NoDup (map snd [("A1"%string, 2); ("A2"%string, 5); ("A3"%string, 3)]).
Proof.
  assert (Hnd : NoDup (map fst [("A1"%string, 2); ("A2"%string, 5);
                                ("A3"%string, 3)])).
  { cbn [map fst]. repeat constructor; cbn [In]; intuition discriminate. }
  split; [exact Hnd|]. split; [reflexivity|].
  exact (proj1 (proj2 (proj2 (proj2 (collisions_come_in_groups _ Hnd))))
               eq_refl).
Defined.

(** ** More on the scheduler *)

Lemma range_nonpositive (n : Z) : n <= 0 -> range n = [].
Proof.
  intros Hn. unfold range. replace (Z.to_nat n) with 0%nat by lia. reflexivity.
Qed.

Lemma range_positive (n : Z) :
  1 <= n -> range n = 0 :: map Z.of_nat (seq 1 (Z.to_nat n - 1)).
Proof.
  intros Hn. unfold range.
  replace (Z.to_nat n) with (S (Z.to_nat n - 1)) at 1 by lia. reflexivity.
Qed.

Section SchedulerEdges.
Variable math_exp : Q -> result Q.

(** X15. With a tick budget of zero or less the loop body never runs, and
    [run] ends by raising [NameError]: its closing [print] reads the loop
    variable [tick], which was never bound. *)
Theorem run_without_ticks_raises (self : DynamicAnnealer) (g : Random.rng) :
  max_tick self <= 0 -> run math_exp self g = Raise NameError.
Proof.
  intros H. unfold run. now rewrite (range_nonpositive _ H).
Qed.

Lemma run_no_agents (self : DynamicAnnealer) (g : Random.rng)
  (p1 : Problem) :
  agents self = [] -> 1 <= max_tick self -> fire_event self 0 = Ok p1 ->
  run math_exp self g
  = Ok (with_world self p1 [] (agent_solutions self), g,
        mkLoopEnd (Some 0) 1 true).
Proof.
  intros Ha HT Hf. unfold run. rewrite (range_positive _ HT).
  cbn [run_loop]. unfold run_tick, tick_propose. rewrite Hf. cbn [bind].
  cbn [agents with_world]. rewrite Ha. cbn [propose_all bind].
  unfold tick_arbitrate. cbn. reflexivity.
Qed.

(** X16. With no agents and a budget of at least one tick, [run] fires the
    hook once, finds every agent completed (there is none) and stops after
    the first tick, without consuming any random draw. *)
Theorem run_without_agents (self : DynamicAnnealer) (g : Random.rng)
  (p1 : Problem) :
  agents self = [] -> 1 <= max_tick self -> fire_event self 0 = Ok p1 ->
  run math_exp self g
  = Ok (with_world self p1 [] (agent_solutions self), g,
        mkLoopEnd (Some 0) 1 true).
Proof. exact (run_no_agents self g p1). Qed.

End SchedulerEdges.

Lemma run_without_ticks_raises_witness :
  max_tick idle_annealer <= 0
  /\ run exp_lower idle_annealer tape = Raise NameError.
Proof.
  assert (H : max_tick idle_annealer <= 0) by (cbn; lia).
  split; [exact H|].
  exact (run_without_ticks_raises exp_lower idle_annealer tape H).
Defined.

Lemma run_without_agents_witness :
  agents empty_annealer = [] /\ 1 <= max_tick empty_annealer
  /\ fire_event empty_annealer 0 = Ok ring
  /\ run exp_lower empty_annealer tape
     = Ok (with_world empty_annealer ring [] (agent_solutions empty_annealer),
           tape, mkLoopEnd (Some 0) 1 true).
Proof.
  assert (HT : 1 <= max_tick empty_annealer) by (cbn; lia).
  split; [reflexivity|]. split; [exact HT|]. split; [reflexivity|].
  exact (run_without_agents exp_lower empty_annealer tape ring eq_refl HT
                            eq_refl).
Defined.

Lemma Forall2_compose {A : Type} (R S T : A -> A -> Prop)
  (l1 l2 l3 : list A) :
  (forall a b c, R a b -> S b c -> T a c) ->
  Forall2 R l1 l2 -> Forall2 S l2 l3 -> Forall2 T l1 l3.
Proof.
  intros HT H12. revert l3.
  induction H12 as [|a b l1 l2 Hab _ IH]; intros l3 H23;
    inversion H23; subst; constructor; eauto.
Qed.

Lemma Forall2_impl_In {A : Type} (R S : A -> A -> Prop) (l l' : list A) :
  (forall a a', In a l -> R a a' -> S a a') ->
  Forall2 R l l' -> Forall2 S l l'.
Proof.
  intros H HR. induction HR as [|a a' l l' Ha _ IH]; constructor.
  - apply H; [now left | assumption].
  - apply IH. intros b b' Hb. apply H. now right.
Qed.

Lemma stays_refl (a : Agent) : stays a a.
Proof. repeat split. Qed.

Lemma stays_set_status (a : Agent) (s : Status) : stays a (set_status a s).
Proof. repeat split. Qed.

Lemma stays_trans (a b c : Agent) : stays a b -> stays b c -> stays a c.
Proof.
  intros (H1 & H2 & H3 & H4 & H5) (K1 & K2 & K3 & K4 & K5).
  repeat split; congruence.
Qed.

Lemma moved_step_to (a : Agent) (n : Z) : moved a (step_to a n) n.
Proof.
  destruct (step_to_fields a n) as (H1 & H2 & H3 & H4 & H5 & _).
  repeat split; assumption.
Qed.

Lemma stays_moved (a b c : Agent) (n : Z) :
  stays a b -> moved b c n -> moved a c n.
Proof.
  intros (H1 & H2 & H3 & H4 & H5) (K1 & K2 & K3 & K4 & K5).
  repeat split; congruence.
Qed.

Lemma moved_stays (a b c : Agent) (n : Z) :
  moved a b n -> stays b c -> moved a c n.
Proof.
  intros (H1 & H2 & H3 & H4 & H5) (K1 & K2 & K3 & K4 & K5).
  repeat split; congruence.
Qed.

Lemma NoDup_ids_unique (ags : list Agent) (a b : Agent) :
  NoDup (ids ags) -> In a ags -> In b ags -> id a = id b -> a = b.
Proof.
  unfold ids. induction ags as [|x ags IH]; cbn [map]; [intros _ []|].
  intros Hnd Ha Hb E. inversion Hnd as [|? ? Hnot Hnd']; subst.
  destruct Ha as [->|Ha], Hb as [->|Hb].
  - reflexivity.
  - exfalso. apply Hnot. rewrite E. now apply in_map.
  - exfalso. apply Hnot. rewrite <- E. now apply in_map.
  - now apply IH.
Qed.

Lemma unblock_all_stays (ags : list Agent) :
  Forall2 stays ags (unblock_all ags).
Proof.
  unfold unblock_all. induction ags as [|a ags IH]; cbn [map]; constructor;
    [|exact IH].
  unfold unblock. destruct (status_eqb (status a) blocked);
    [apply stays_set_status | apply stays_refl].
Qed.

Section TickMoves.
Variable math_exp : Q -> result Q.

Lemma propose_one_stays self agent pm g sols agent' pm' g' sols' :
  propose_one math_exp self agent pm g sols = Ok (agent', pm', g', sols') ->
  stays agent agent'
  /\ (status agent <> active -> agent' = agent)
  /\ (forall k, In k (keys pm') ->
                In k (keys pm) \/ (k = id agent /\ status agent = active)).
Proof.
  unfold propose_one. intros H.
  destruct (status agent) eqn:Est; cbn [status_eqb negb] in H;
    try (injection H as <- <- _ _; repeat split; auto; congruence).
  destruct (current_node agent =? goal_node agent).
  { injection H as <- <- _ _. split; [apply stays_set_status|].
    split; [congruence | auto]. }
  bind_cases H. destruct a as [best g1].
  assert (Hset : forall n k,
             In k (keys (PyDict.set String.eqb pm (id agent) n)) ->
             In k (keys pm) \/ (k = id agent /\ active = active)).
  { intros n k Hk. apply (proj1 (dict_set_keys pm (id agent) n)) in Hk.
    destruct Hk as [Hk| ->]; auto. }
  destruct (PyList.index (routes best) (current_node agent)) as [idx|e].
  - destruct (length (routes best) =? 0)%nat; [discriminate|].
    bind_cases H. injection H as <- <- _ _.
    split; [apply stays_refl|]. split; [congruence | apply Hset].
  - destruct e; try discriminate.
    bind_cases H. destruct a as [|n ns].
    + injection H as <- <- _ _. split; [apply stays_set_status|].
      split; [congruence | auto].
    + bind_cases H. destruct a as [nx g2]. injection H as <- <- _ _.
      split; [apply stays_refl|]. split; [congruence | apply Hset].
Qed.

Lemma propose_all_stays self ags :
  forall pm g sols ags' pm' g' sols',
    propose_all math_exp self ags pm g sols = Ok (ags', pm', g', sols') ->
    Forall2 (fun a a' => stays a a' /\ (status a <> active -> a' = a))
            ags ags'
    /\ (forall k, In k (keys pm') ->
                  In k (keys pm)
                  \/ exists b, In b ags /\ id b = k /\ status b = active).
Proof.
  induction ags as [|agent rest IH]; intros pm g sols ags' pm' g' sols' H;
    cbn [propose_all] in H.
  - injection H as <- <- _ _. split; [constructor | auto].
  - bind_cases H. destruct a as [[[agent1 pm1] g1] sols1].
    bind_cases H. destruct a as [[[rest1 pm2] g2] sols2].
    injection H as <- <- _ _.
    destruct (propose_one_stays _ _ _ _ _ _ _ _ _ E) as (Hs & Hna & Hk1).
    destruct (IH _ _ _ _ _ _ _ E0) as (Hf & Hk2).
    split; [constructor; auto|].
    intros k Hk. destruct (Hk2 k Hk) as [Hk'|(b & Hb & Hid & Hst)].
    + destruct (Hk1 k Hk') as [Hk''|[-> Hst]]; [now left|].
      right. exists agent. split; [now left | auto].
    + right. exists b. split; [now right | auto].
Qed.

Lemma commit_moves_once items :
  NoDup (keys items) ->
  forall ags ags',
    commit_moves items ags = Ok ags' ->
    Forall2 (fun a a' => a' = a
                         \/ exists n, In (id a, n) items /\ a' = step_to a n)
            ags ags'.
Proof.
  unfold keys. induction items as [|[aid n] rest IH]; cbn [map fst];
    intros Hnd ags ags' H; cbn [commit_moves] in H.
  - injection H as <-. clear. induction ags; constructor; auto.
  - inversion Hnd as [|? ? Hnot Hnd']; subst.
    bind_cases H. pose proof (update_first_touched _ _ _ _ E) as Ht.
    specialize (IH Hnd' _ _ H).
    refine (Forall2_compose _ _ _ _ _ _ _ Ht IH).
    intros x y z Hxy Hyz. unfold touched in Hxy. cbn [In] in Hxy.
    destruct Hxy as [->|[[Hid|[]] ->]].
    + destruct Hyz as [->|(m & Hm & ->)]; [now left|].
      right. exists m. split; [now right | reflexivity].
    + destruct Hyz as [->|(m & Hm & ->)].
      * right. exists n. split; [left; now rewrite Hid | reflexivity].
      * exfalso. apply Hnot.
        destruct (step_to_fields x n) as (Hidx & _). rewrite Hidx, <- Hid in Hm.
        now apply (in_map fst) in Hm.
Qed.

Lemma run_tick_one_hop (self : DynamicAnnealer) (tick : Z) (g : Random.rng)
  (self' : DynamicAnnealer) (g' : Random.rng) :
  run_tick math_exp self tick g = Ok (self', g') ->
  Forall2 (fun a a' => stays a a' \/ exists n, moved a a' n)
          (agents self) (agents self').
Proof.
  intros H.
  destruct (run_tick_phases math_exp _ _ _ _ _ H)
    as (self2 & pm & self3 & pm3 & self4 & H2 & H3 & H4 & ->).
  pose proof (tick_propose_keys math_exp _ _ _ _ _ _ H2) as Hnd.
  unfold tick_propose in H2. bind_cases H2. bind_cases H2.
  destruct a0 as [[[ags2 pm2] g2] sols2]. injection H2 as <- <- _.
  unfold tick_arbitrate in H3. bind_cases H3. destruct a0 as [pm' ags3].
  injection H3 as <- <-.
  unfold tick_commit in H4. bind_cases H4. injection H4 as <-.
  cbn [agents with_world tick_unblock] in *.
  destruct (propose_all_stays _ _ _ _ _ _ _ _ _ E0) as [Hp _].
  destruct (block_collisions_touched _ _ _ _ _ E1) as [Hb Hk].
  destruct (Hk Hnd) as [Hnd3 _].
  pose proof (commit_moves_once _ Hnd3 _ _ E2) as Hc.
  assert (H02 : Forall2 stays (agents self) ags3).
  { refine (Forall2_compose _ _ _ _ _ _ _ Hp Hb).
    intros x y z [Hxy _] [->|[_ ->]]; [assumption|].
    eapply stays_trans; [eassumption | apply stays_set_status]. }
  assert (H04 : Forall2 (fun a a' => stays a a' \/ exists n, moved a a' n)
                        (agents self) a0).
  { refine (Forall2_compose _ _ _ _ _ _ _ H02 Hc).
    intros x y z Hxy [->|(n & _ & ->)]; [now left|].
    right. exists n. eapply stays_moved; [eassumption | apply moved_step_to]. }
  refine (Forall2_compose _ _ _ _ _ _ _ H04 (unblock_all_stays a0)).
  intros x y z [Hxy|(n & Hxy)] Hyz.
  - left. eapply stays_trans; eassumption.
  - right. exists n. eapply moved_stays; eassumption.
Qed.

(** Over the loop a route history grows by at most one node per tick
    done. *)
Lemma run_loop_hops ticks :
  forall self g prev done self' g' e,
    run_loop math_exp ticks self g prev done = Ok (self', g', e) ->
    (done <= ticks_done e)%nat
    /\ Forall2 (fun a a' => exists ext,
                    route a' = route a ++ ext
                    /\ (length ext <= ticks_done e - done)%nat)
               (agents self) (agents self').
Proof.
  assert (Hone : forall self tick g self' g',
             run_tick math_exp self tick g = Ok (self', g') ->
             Forall2 (fun a a' => exists ext,
                          route a' = route a ++ ext /\ (length ext <= 1)%nat)
                     (agents self) (agents self')).
  { intros self tick g self' g' H. apply run_tick_one_hop in H.
    eapply Forall2_impl; [|exact H]. cbn beta.
    intros a a' [(_ & _ & _ & _ & Hr)|(n & _ & _ & _ & _ & Hr)].
    - exists []. rewrite app_nil_r. split; [assumption | cbn; lia].
    - exists [n]. split; [assumption | cbn; lia]. }
  induction ticks as [|tick ticks IH]; intros self g prev done self' g' e H;
    cbn [run_loop] in H.
  - injection H as <- _ <-. cbn [ticks_done]. split; [lia|].
    induction (agents self) as [|a l IHl]; constructor; [|assumption].
    exists []. rewrite app_nil_r. split; [reflexivity | cbn; lia].
  - bind_cases H. destruct a as [self1 g1].
    pose proof (Hone _ _ _ _ _ E) as H1.
    destruct (all_completed (agents self1)).
    + injection H as <- _ <-. cbn [ticks_done]. split; [lia|].
      eapply Forall2_impl; [|exact H1]. cbn beta.
      intros a a' (ext & Hr & Hl). exists ext. split; [assumption | lia].
    + apply IH in H. destruct H as [Hd H]. split; [lia|].
      refine (Forall2_compose _ _ _ _ _ _ _ H1 H).
      intros a b c (ext1 & Hr1 & Hl1) (ext2 & Hr2 & Hl2).
      exists (ext1 ++ ext2). rewrite Hr2, Hr1, app_assoc.
      split; [reflexivity|]. rewrite length_app. lia.
Qed.

Lemma run_hops self g self' g' e :
  run math_exp self g = Ok (self', g', e) ->
  Forall2 (fun a a' => exists ext,
               route a' = route a ++ ext
               /\ (length ext <= ticks_done e)%nat)
          (agents self) (agents self').
Proof.
  unfold run. intros H. bind_cases H. destruct a as [[self1 g1] e1].
  destruct (loop_tick e1); [|discriminate]. injection H as <- _ <-.
  apply run_loop_hops in E. destruct E as [_ E].
  eapply Forall2_impl; [|exact E]. cbn beta.
  intros a a' (ext & Hr & Hl). exists ext. split; [assumption | lia].
Qed.

(** X17. In one tick no agent moves more than one hop: every agent ends the
    tick either with the position and route history it had (the status may
    have changed) or exactly one node further, that node appended to its
    route history.  Nothing else about an agent changes, and no agent is
    added or dropped.  Over a run a route history therefore grows by at
    most one node per tick done, so by at most [max_tick] nodes. *)
Theorem one_hop_per_tick (self : DynamicAnnealer) :
  (forall tick g self' g',
      run_tick math_exp self tick g = Ok (self', g') ->
      Forall2 (fun a a' => stays a a' \/ exists n, moved a a' n)
              (agents self) (agents self'))
  /\ (forall g self' g' e,
         run math_exp self g = Ok (self', g', e) ->
         Forall2 (fun a a' => exists ext,
                      route a' = route a ++ ext
                      /\ (length ext <= ticks_done e)%nat
                      /\ (length ext <= Z.to_nat (max_tick self))%nat)
                 (agents self) (agents self')).
Proof.
  split.
  - intros tick g self' g'. apply run_tick_one_hop.
  - intros g self' g' e H.
    pose proof (run_end math_exp _ _ _ _ _ H) as (Hd & _).
    apply run_hops in H. eapply Forall2_impl; [|exact H]. cbn beta.
    intros a a' (ext & Hr & Hl). exists ext.
    split; [assumption|]. split; lia.
Qed.

End TickMoves.

(** ** A tick under distinct agent ids *)

Lemma mem_str_In (k : string) (l : list string) :
  mem_str k l = true <-> In k l.
Proof.
  unfold mem_str. rewrite existsb_exists. split.
  - intros (x & Hx & E). apply String.eqb_eq in E. now subst.
  - intros H. exists k. split; [assumption | apply String.eqb_refl].
Qed.

Lemma dict_get_keys {V : Type} (d : list (string * V)) (k : string) :
  In k (keys d) <-> PyDict.get String.eqb d k <> None.
Proof.
  unfold keys. induction d as [|[k0 v0] d IH]; cbn [map fst In PyDict.get].
  - split; [intros [] | congruence].
  - destruct (String.eqb_spec k0 k) as [->|Hne].
    + split; [discriminate | auto].
    + rewrite <- IH. split; [intros [E|H]; [congruence | assumption] | auto].
Qed.

Lemma dict_del_filter {V : Type} (d d' : list (string * V)) (k : string) :
  NoDup (keys d) -> PyDict.del String.eqb d k = Ok d' ->
  d' = filter (fun item => negb (String.eqb (fst item) k)) d.
Proof.
  unfold keys. revert d'. induction d as [|[k0 v0] d IH]; intros d' Hnd H;
    cbn [PyDict.del] in H; [discriminate|].
  cbn [map fst] in Hnd. inversion Hnd as [|? ? Hnot Hnd']; subst.
  cbn [filter fst]. destruct (String.eqb_spec k0 k) as [->|Hne]; cbn [negb].
  - injection H as <-. symmetry. clear - Hnot.
    induction d as [|[k1 v1] d IH]; cbn [filter fst]; [reflexivity|].
    cbn [map fst In] in Hnot.
    destruct (String.eqb_spec k1 k) as [->|Hne]; [tauto|].
    cbn [negb]. f_equal. apply IH. tauto.
  - bind_cases H. injection H as <-. f_equal. now apply IH.
Qed.

Lemma update_first_map (aid : string) (f : Agent -> Agent) (ags : list Agent) :
  NoDup (ids ags) ->
  forall ags', update_first aid f ags = Ok ags' ->
               ags' = map (fun a => if String.eqb (id a) aid then f a else a)
                          ags.
Proof.
  unfold ids. induction ags as [|a rest IH]; intros Hnd ags' H;
    cbn [update_first] in H; [discriminate|].
  cbn [map] in *. inversion Hnd as [|? ? Hnot Hnd']; subst.
  destruct (String.eqb_spec (id a) aid) as [Heq|Hne].
  - injection H as <-. f_equal. subst aid. clear - Hnot.
    induction rest as [|b rest IH]; cbn [map]; [reflexivity|].
    cbn [map In] in Hnot.
    destruct (String.eqb_spec (id b) (id a)) as [E|_]; [tauto|].
    f_equal. apply IH. tauto.
  - bind_cases H. injection H as <-. f_equal. now apply IH.
Qed.

Lemma filter_twice {A : Type} (p q : A -> bool) (l : list A) :
  filter p (filter q l) = filter (fun x => q x && p x) l.
Proof.
  induction l as [|x l IH]; cbn [filter]; [reflexivity|].
  destruct (q x); cbn [filter andb]; [|assumption].
  destruct (p x); [now f_equal | assumption].
Qed.

Lemma ids_map (f : Agent -> Agent) (ags : list Agent) :
  (forall a, id (f a) = id a) -> ids (map f ags) = ids ags.
Proof.
  intros Hf. unfold ids. rewrite map_map. apply map_ext. exact Hf.
Qed.

Lemma block_collisions_map (collisions : list string) :
  forall pm ags pm' ags',
    NoDup (ids ags) -> NoDup (keys pm) ->
    block_collisions collisions pm ags = Ok (pm', ags') ->
    ags' = map (block_agent collisions) ags
    /\ pm' = filter (fun item => negb (mem_str (fst item) collisions)) pm.
Proof.
  induction collisions as [|aid rest IH]; intros pm ags pm' ags' Hi Hk H;
    cbn [block_collisions] in H.
  - injection H as <- <-. split.
    + unfold block_agent. cbn. now rewrite map_id.
    + cbn. symmetry. apply forallb_filter_id. now apply forallb_forall.
  - bind_cases H. bind_cases H.
    pose proof (dict_del_filter _ _ _ Hk E) as ->.
    pose proof (update_first_map _ _ _ Hi _ E0) as ->.
    apply IH in H.
    + destruct H as [-> ->]. split.
      * rewrite map_map. apply map_ext. intros a. unfold block_agent, mem_str.
        cbn [existsb]. rewrite (String.eqb_sym (id a) aid).
        destruct (String.eqb aid (id a)); cbn [id set_status orb];
          [|reflexivity].
        now destruct (existsb (String.eqb (id a)) rest).
      * rewrite filter_twice. apply filter_ext. intros [k v]. cbn [fst].
        unfold mem_str. cbn [existsb]. rewrite (String.eqb_sym k aid).
        destruct (String.eqb aid k), (existsb (String.eqb k) rest); reflexivity.
    + rewrite ids_map; [assumption|].
      intros a. now destruct (String.eqb (id a) aid).
    + unfold keys. now apply NoDup_map_filter.
Qed.

Lemma commit_moves_map (items : moves) :
  forall ags ags',
    NoDup (ids ags) -> NoDup (keys items) ->
    commit_moves items ags = Ok ags' ->
    ags' = map (commit_agent items) ags.
Proof.
  unfold keys. induction items as [|[aid n] rest IH]; intros ags ags' Hi Hk H;
    cbn [commit_moves] in H.
  - injection H as <-. unfold commit_agent. cbn. now rewrite map_id.
  - cbn [map fst] in Hk. inversion Hk as [|? ? Hnot Hk']; subst.
    bind_cases H. pose proof (update_first_map _ _ _ Hi _ E) as ->.
    apply IH in H; [|rewrite ids_map; [assumption|]|assumption].
    + subst ags'. rewrite map_map. apply map_ext. intros a.
      unfold commit_agent. cbn [PyDict.get].
      rewrite (String.eqb_sym aid (id a)).
      destruct (String.eqb_spec (id a) aid) as [E1|E1]; [|reflexivity].
      destruct (step_to_fields a n) as (Hid & _). rewrite Hid, E1.
      assert (Hnone : PyDict.get String.eqb rest aid = None).
      { destruct (PyDict.get String.eqb rest aid) eqn:Eg; [|reflexivity].
        exfalso. apply Hnot. apply (dict_get_keys rest aid). congruence. }
      now rewrite Hnone.
    + intros a. destruct (String.eqb (id a) aid); [|reflexivity].
      now destruct (step_to_fields a n).
Qed.

Section PerAgent.
Variable math_exp : Q -> result Q.

Lemma propose_one_agent self agent pm g sols agent' pm' g' sols' :
  propose_one math_exp self agent pm g sols = Ok (agent', pm', g', sols') ->
  agent' = propose_agent agent
  /\ (if proposes agent
      then exists n, pm' = PyDict.set String.eqb pm (id agent) n
      else pm' = pm).
Proof.
  unfold propose_one, propose_agent, proposes. intros H.
  destruct (status_eqb (status agent) active); cbn [negb andb] in *;
    [|injection H as <- <- _ _; auto].
  destruct (current_node agent =? goal_node agent); cbn [negb] in *;
    [injection H as <- <- _ _; auto|].
  bind_cases H. destruct a as [best g1].
  rewrite (index_head _ _ (local_sa_head math_exp _ _ _ _ _ E)) in H.
  destruct (length (routes best) =? 0)%nat; [discriminate|].
  bind_cases H. injection H as <- <- _ _. split; [reflexivity | now eexists].
Qed.

Lemma propose_all_agents self ags :
  forall pm g sols ags' pm' g' sols',
    propose_all math_exp self ags pm g sols = Ok (ags', pm', g', sols') ->
    ags' = map propose_agent ags
    /\ forall k, In k (keys pm')
                 <-> In k (keys pm)
                     \/ exists a, In a ags /\ id a = k /\ proposes a = true.
Proof.
  induction ags as [|agent rest IH]; intros pm g sols ags' pm' g' sols' H;
    cbn [propose_all] in H.
  - injection H as <- <- _ _. split; [reflexivity|].
    intros k. split; [auto | intros [H|(a & [] & _)]; exact H].
  - bind_cases H. destruct a as [[[agent1 pm1] g1] sols1].
    bind_cases H. destruct a as [[[rest1 pm2] g2] sols2].
    injection H as <- <- _ _.
    destruct (propose_one_agent _ _ _ _ _ _ _ _ _ E) as [-> Hpm].
    destruct (IH _ _ _ _ _ _ _ E0) as [-> Hk].
    split; [reflexivity|]. intros k. rewrite Hk. cbn [In].
    destruct (proposes agent) eqn:Ep.
    + destruct Hpm as (n & ->).
      rewrite (proj1 (dict_set_keys pm (id agent) n) k). split.
      * intros [[H| ->]|(a & Ha & Hid & Hp)]; [now left | right | right].
        -- exists agent. auto.
        -- exists a. auto.
      * intros [H|(a & [<-|Ha] & Hid & Hp)];
          [left; now left | left; right; now symmetry | right; now exists a].
    + subst pm1. split.
      * intros [H|(a & Ha & Hid & Hp)]; [now left | right; exists a; auto].
      * intros [H|(a & [<-|Ha] & Hid & Hp)];
          [now left | congruence | right; now exists a].
Qed.

(** Under distinct agent ids a tick acts on every agent by itself, given
    the proposals. *)
Lemma run_tick_per_agent (self : DynamicAnnealer) (tick : Z) (g : Random.rng)
  (self' : DynamicAnnealer) (g' : Random.rng) :
  NoDup (ids (agents self)) ->
  run_tick math_exp self tick g = Ok (self', g') ->
  exists self2 pm,
    tick_propose math_exp self tick g = Ok (self2, pm, g')
    /\ NoDup (keys pm)
    /\ (forall k, In k (keys pm)
                  <-> exists a, In a (agents self) /\ id a = k
                                /\ proposes a = true)
    /\ agents self' = map (tick_agent pm) (agents self).
Proof.
  intros Hi H.
  destruct (run_tick_phases math_exp _ _ _ _ _ H)
    as (self2 & pm & self3 & pm3 & self4 & H2 & H3 & H4 & ->).
  exists self2, pm. split; [assumption|].
  pose proof (tick_propose_keys math_exp _ _ _ _ _ _ H2) as Hnd.
  split; [assumption|].
  unfold tick_propose in H2. bind_cases H2. bind_cases H2.
  destruct a0 as [[[ags2 pm2] g2] sols2]. injection H2 as <- <- _.
  unfold tick_arbitrate in H3. bind_cases H3. destruct a0 as [pm' ags3].
  injection H3 as <- <-.
  unfold tick_commit in H4. bind_cases H4. injection H4 as <-.
  cbn [agents with_world tick_unblock] in *.
  destruct (propose_all_agents _ _ _ _ _ _ _ _ _ E0) as [-> Hk].
  assert (Hi2 : NoDup (ids (map propose_agent (agents self)))).
  { rewrite ids_map; [assumption|]. intros x. unfold propose_agent.
    now destruct (status_eqb (status x) active
                  && (current_node x =? goal_node x)). }
  destruct (block_collisions_map _ _ _ _ _ Hi2 Hnd E1) as [-> ->].
  assert (Hi3 : NoDup (ids (map (block_agent (_detect_collisions pm2))
                                (map propose_agent (agents self))))).
  { rewrite ids_map; [assumption|]. intros x. unfold block_agent.
    now destruct (mem_str (id x) (_detect_collisions pm2)). }
  assert (Hnd3 : NoDup (keys (surviving pm2)))
    by (unfold keys, surviving; now apply NoDup_map_filter).
  pose proof (commit_moves_map _ _ _ Hi3 Hnd3 E2) as ->.
  split.
  - intros k. rewrite Hk. cbn [keys map In]. tauto.
  - unfold unblock_all, tick_agent. now rewrite !map_map.
Qed.

End PerAgent.

Lemma dict_get_filter {V : Type} (p : string -> bool) (d : list (string * V))
  (k : string) :
  PyDict.get String.eqb (filter (fun item => p (fst item)) d) k
  = if p k then PyDict.get String.eqb d k else None.
Proof.
  induction d as [|[k0 v0] d IH]; cbn [filter fst PyDict.get].
  - now destruct (p k).
  - destruct (p k0) eqn:E0; cbn [PyDict.get];
      destruct (String.eqb_spec k0 k) as [->|Hne]; try assumption.
    + now rewrite E0.
    + now rewrite IH, E0.
Qed.

Lemma unblock_set_blocked (a : Agent) :
  status a = active -> unblock (set_status a blocked) = a.
Proof. destruct a. cbn. now intros ->. Qed.

Lemma unblock_step_to (a : Agent) (n : Z) :
  status a = active -> unblock (step_to a n) = step_to a n.
Proof.
  intros H. unfold unblock.
  destruct (step_to_fields a n) as (_ & _ & _ & _ & _ & ->).
  rewrite H. now destruct (n =? goal_node a).
Qed.

Lemma proposes_true (a : Agent) :
  proposes a = true
  <-> status a = active /\ current_node a <> goal_node a.
Proof.
  unfold proposes. rewrite andb_true_iff, negb_true_iff, Z.eqb_neq.
  destruct (status a); cbn; intuition congruence.
Qed.

(** What a tick does to one agent, by whether it proposes a move. *)
Lemma tick_agent_cases (ags : list Agent) (pm : moves) (a : Agent) :
  NoDup (ids ags) -> NoDup (keys pm) ->
  (forall k, In k (keys pm)
             <-> exists b, In b ags /\ id b = k /\ proposes b = true) ->
  In a ags ->
  if proposes a
  then exists n, PyDict.get String.eqb pm (id a) = Some n
                 /\ tick_agent pm a
                    = (if mem_str (id a) (_detect_collisions pm)
                       then a else step_to a n)
  else PyDict.get String.eqb pm (id a) = None
       /\ tick_agent pm a = unblock (propose_agent a).
Proof.
  intros Hi Hk Hpm Ha. unfold tick_agent, surviving.
  assert (Hid : id (propose_agent a) = id a).
  { unfold propose_agent.
    now destruct (status_eqb (status a) active
                  && (current_node a =? goal_node a)). }
  destruct (proposes a) eqn:Ep.
  - pose proof (proj1 (proposes_true a) Ep) as [Hs Hc].
    assert (Hin : In (id a) (keys pm)) by (apply Hpm; now exists a).
    apply (dict_get_keys pm) in Hin.
    destruct (PyDict.get String.eqb pm (id a)) as [n|] eqn:Eg;
      [|congruence].
    exists n. split; [reflexivity|].
    assert (Hp : propose_agent a = a).
    { unfold propose_agent. apply Z.eqb_neq in Hc. rewrite Hc.
      now rewrite andb_false_r. }
    rewrite Hp. unfold block_agent, commit_agent.
    destruct (mem_str (id a) (_detect_collisions pm)) eqn:Em.
    + cbn [id set_status].
      rewrite (dict_get_filter
                 (fun k => negb (mem_str k (_detect_collisions pm)))).
      rewrite Em. cbn [negb]. now apply unblock_set_blocked.
    + rewrite (dict_get_filter
                 (fun k => negb (mem_str k (_detect_collisions pm)))).
      rewrite Em. cbn [negb]. rewrite Eg. now apply unblock_step_to.
  - assert (Hout : ~ In (id a) (keys pm)).
    { intros Hin. apply Hpm in Hin. destruct Hin as (b & Hb & Hidb & Hpb).
      assert (b = a) by (eapply NoDup_ids_unique; eassumption).
      subst b. congruence. }
    assert (Hg : PyDict.get String.eqb pm (id a) = None).
    { destruct (PyDict.get String.eqb pm (id a)) eqn:Eg; [|reflexivity].
      exfalso. apply Hout. apply (dict_get_keys pm). congruence. }
    split; [assumption|].
    assert (Em : mem_str (id a) (_detect_collisions pm) = false).
    { destruct (mem_str (id a) (_detect_collisions pm)) eqn:Em;
        [|reflexivity].
      exfalso. apply Hout. apply mem_str_In in Em.
      now apply (proj2 (detect_collisions_NoDup pm Hk)). }
    unfold block_agent, commit_agent. rewrite Hid, Em.
    rewrite (dict_get_filter
               (fun k => negb (mem_str k (_detect_collisions pm)))).
    rewrite Hid, Em. cbn [negb]. now rewrite Hg.
Qed.

Lemma Forall2_map_In {A : Type} (f : A -> A) (R : A -> A -> Prop)
  (l : list A) :
  (forall a, In a l -> R a (f a)) -> Forall2 R l (map f l).
Proof.
  induction l as [|x l IH]; intros H; cbn [map]; constructor.
  - apply H. now left.
  - apply IH. intros a Ha. apply H. now right.
Qed.

Lemma unblock_propose_completed (a : Agent) :
  status a = completed -> unblock (propose_agent a) = a.
Proof.
  intros H. unfold propose_agent, unblock. rewrite H. cbn. now rewrite H.
Qed.

Section PerAgentRun.
Variable math_exp : Q -> result Q.

(** The outcome of a tick for every agent, under distinct ids. *)
Lemma run_tick_outcomes (self : DynamicAnnealer) (tick : Z) (g : Random.rng)
  (self' : DynamicAnnealer) (g' : Random.rng) :
  NoDup (ids (agents self)) ->
  run_tick math_exp self tick g = Ok (self', g') ->
  exists pm,
    NoDup (keys pm)
    /\ Forall2 (fun a a' =>
                  if proposes a
                  then exists n,
                      PyDict.get String.eqb pm (id a) = Some n
                      /\ a' = (if mem_str (id a) (_detect_collisions pm)
                               then a else step_to a n)
                  else PyDict.get String.eqb pm (id a) = None
                       /\ a' = unblock (propose_agent a))
               (agents self) (agents self').
Proof.
  intros Hi H.
  destruct (run_tick_per_agent math_exp _ _ _ _ _ Hi H)
    as (self2 & pm & _ & Hk & Hpm & ->).
  exists pm. split; [assumption|].
  apply Forall2_map_In. intros a Ha.
  pose proof (tick_agent_cases _ _ _ Hi Hk Hpm Ha) as Hc.
  destruct (proposes a); [|exact Hc].
  destruct Hc as (n & Hn & Ht). exists n. now rewrite Ht.
Qed.

(** A property of the agents that every tick preserves holds at the end
    of the loop. *)
Lemma run_loop_preserves (P : list Agent -> Prop) ticks :
  (forall self tick g self' g',
      P (agents self) -> run_tick math_exp self tick g = Ok (self', g') ->
      P (agents self')) ->
  forall self g prev done self' g' e,
    P (agents self) ->
    run_loop math_exp ticks self g prev done = Ok (self', g', e) ->
    P (agents self').
Proof.
  intros Hstep.
  induction ticks as [|tick ticks IH]; intros self g prev done self' g' e HP H;
    cbn [run_loop] in H.
  - now injection H as <- _ _.
  - bind_cases H. destruct a as [self1 g1].
    pose proof (Hstep _ _ _ _ _ HP E) as H1.
    destruct (all_completed (agents self1)).
    + now injection H as <- _ _.
    + eapply IH; eassumption.
Qed.

Lemma run_preserves (P : list Agent -> Prop) :
  (forall self tick g self' g',
      P (agents self) -> run_tick math_exp self tick g = Ok (self', g') ->
      P (agents self')) ->
  forall self g self' g' e,
    P (agents self) -> run math_exp self g = Ok (self', g', e) ->
    P (agents self').
Proof.
  intros Hstep self g self' g' e HP H. unfold run in H. bind_cases H.
  destruct a as [[self1 g1] e1].
  destruct (loop_tick e1); [|discriminate]. injection H as <- _ _.
  eapply run_loop_preserves; eassumption.
Qed.

Lemma run_tick_ids (self : DynamicAnnealer) (tick : Z) (g : Random.rng)
  (self' : DynamicAnnealer) (g' : Random.rng) :
  run_tick math_exp self tick g = Ok (self', g') ->
  ids (agents self') = ids (agents self).
Proof.
  intros H. apply evolves_ids. eapply run_tick_evolves; eassumption.
Qed.

Lemma run_tick_completed_stay (self : DynamicAnnealer) (tick : Z)
  (g : Random.rng) (self' : DynamicAnnealer) (g' : Random.rng) :
  NoDup (ids (agents self)) ->
  run_tick math_exp self tick g = Ok (self', g') ->
  Forall2 (fun a a' => status a = completed -> a' = a)
          (agents self) (agents self').
Proof.
  intros Hi H. destruct (run_tick_outcomes _ _ _ _ _ Hi H) as (pm & _ & HF).
  eapply Forall2_impl; [|exact HF]. cbn beta. intros a a' Hc Hs.
  assert (Ep : proposes a = false) by (unfold proposes; now rewrite Hs).
  rewrite Ep in Hc. destruct Hc as [_ ->].
  now apply unblock_propose_completed.
Qed.

(** X18. With distinct agent ids a tick treats every agent by itself: an
    active agent away from its goal has exactly one proposal; it stays as
    it was when that proposal collides and takes the proposed hop
    otherwise.  Every other agent proposes nothing: it is marked completed
    when it is active at its goal, made active again when it was blocked,
    and does not move. *)
Theorem tick_acts_agent_by_agent (self : DynamicAnnealer) (tick : Z)
  (g : Random.rng) (self' : DynamicAnnealer) (g' : Random.rng) :
  NoDup (ids (agents self)) ->
  run_tick math_exp self tick g = Ok (self', g') ->
  exists proposed_moves,
    NoDup (keys proposed_moves)
    /\ Forall2 (fun a a' =>
                  if proposes a
                  then exists n,
                      PyDict.get String.eqb proposed_moves (id a) = Some n
                      /\ a' = (if mem_str (id a)
                                          (_detect_collisions proposed_moves)
                               then a else step_to a n)
                  else PyDict.get String.eqb proposed_moves (id a) = None
                       /\ a' = unblock (propose_agent a))
               (agents self) (agents self').
Proof. exact (run_tick_outcomes self tick g self' g'). Qed.

(** X19. With distinct agent ids an agent that is completed is left alone
    for the rest of the run: a tick, and so a whole run, returns it with
    the same node, route and status. *)
Theorem completed_agents_stay_put (self : DynamicAnnealer) :
  NoDup (ids (agents self)) ->
  (forall tick g self' g',
      run_tick math_exp self tick g = Ok (self', g') ->
      Forall2 (fun a a' => status a = completed -> a' = a)
              (agents self) (agents self'))
  /\ (forall g self' g' e,
         run math_exp self g = Ok (self', g', e) ->
         Forall2 (fun a a' => status a = completed -> a' = a)
                 (agents self) (agents self')).
Proof.
  intros Hi. split.
  - intros tick g self' g'. now apply run_tick_completed_stay.
  - intros g self' g' e H.
    apply (run_preserves
             (fun ags => NoDup (ids ags)
                         /\ Forall2 (fun a a' => status a = completed
                                                 -> a' = a)
                                    (agents self) ags)) in H.
    + exact (proj2 H).
    + clear. intros self1 tick g self2 g' [Hi HF] H. split.
      * now rewrite (run_tick_ids _ _ _ _ _ H).
      * eapply Forall2_compose;
          [|exact HF|exact (run_tick_completed_stay _ _ _ _ _ Hi H)].
        cbn beta. intros a b c Hab Hbc Hs.
        specialize (Hab Hs). subst b. now apply Hbc.
    + split; [assumption|].
      clear. induction (agents self); constructor; auto.
Qed.

Lemma run_completed_at_goal (self : DynamicAnnealer) (g : Random.rng)
  (self' : DynamicAnnealer) (g' : Random.rng) (e : LoopEnd) :
  NoDup (ids (agents self)) ->
  Forall (fun a => status a = completed -> current_node a = goal_node a)
         (agents self) ->
  run math_exp self g = Ok (self', g', e) ->
  Forall (fun a => status a = completed -> current_node a = goal_node a)
         (agents self').
Proof.
  intros Hi Hinv H.
  apply (run_preserves
           (fun ags => NoDup (ids ags)
                       /\ Forall (fun a => status a = completed
                                           -> current_node a = goal_node a)
                                 ags)) in H.
  - exact (proj2 H).
  - clear. intros self1 tick g self2 g' [Hi Hinv] H. split.
    + now rewrite (run_tick_ids _ _ _ _ _ H).
    + destruct (run_tick_outcomes _ _ _ _ _ Hi H) as (pm & _ & HF).
      revert Hinv. clear - HF.
      induction HF as [|a a' l l' Ha _ IH]; intros Hinv; constructor.
      * apply Forall_inv in Hinv.
        destruct (proposes a) eqn:Ep.
        -- destruct Ha as (n & _ & ->).
           apply proposes_true in Ep. destruct Ep as [Hs Hc].
           destruct (mem_str (id a) (_detect_collisions pm)); [congruence|].
           destruct (step_to_fields a n) as (_ & _ & -> & -> & _ & ->).
           destruct (Z.eqb_spec n (goal_node a)); [auto | congruence].
        -- destruct Ha as [_ ->]. unfold propose_agent, unblock.
           destruct (status a) eqn:Es; cbn.
           ++ destruct (Z.eqb_spec (current_node a) (goal_node a));
                cbn; [auto|]. rewrite Es. cbn. congruence.
           ++ rewrite Es. cbn. auto.
           ++ rewrite Es. cbn. discriminate.
      * apply IH. now apply Forall_inv_tail in Hinv.
  - now split.
Qed.

(** X20. With distinct agent ids, completed means arrived: if every agent
    marked completed stands on its goal node before a run, the same holds
    after it. *)
Theorem completed_means_at_goal (self : DynamicAnnealer) (g : Random.rng)
  (self' : DynamicAnnealer) (g' : Random.rng) (e : LoopEnd) :
  NoDup (ids (agents self)) ->
  Forall (fun a => status a = completed -> current_node a = goal_node a)
         (agents self) ->
  run math_exp self g = Ok (self', g', e) ->
  Forall (fun a => status a = completed -> current_node a = goal_node a)
         (agents self').
Proof. exact (run_completed_at_goal self g self' g' e). Qed.

End PerAgentRun.

Lemma twin_ids_distinct : NoDup (ids (agents twin_annealer)).
Proof. repeat constructor; cbn; intuition discriminate. Qed.

Lemma relay_ids_distinct : NoDup (ids (agents relay_annealer)).
Proof. repeat constructor; cbn; intuition discriminate. Qed.

Lemma pair_ids_distinct : NoDup (ids (agents pair_annealer)).
Proof. repeat constructor; cbn; intuition discriminate. Qed.

Lemma tick_acts_agent_by_agent_witness :
  NoDup (ids (agents twin_annealer))
  /\ exists self' g',
      run_tick exp_lower twin_annealer 0 twin_tape = Ok (self', g')
      /\ exists proposed_moves,
        NoDup (keys proposed_moves)
        /\ Forall2 (fun a a' =>
                      if proposes a
                      then exists n,
                          PyDict.get String.eqb proposed_moves (id a) = Some n
                          /\ a' = (if mem_str (id a)
                                       (_detect_collisions proposed_moves)
                                   then a else step_to a n)
                      else PyDict.get String.eqb proposed_moves (id a) = None
                           /\ a' = unblock (propose_agent a))
                   (agents twin_annealer) (agents self').
Proof.
  split; [exact twin_ids_distinct|].
  eexists. eexists. split; [vm_compute; reflexivity|].
  refine (tick_acts_agent_by_agent exp_lower twin_annealer 0 twin_tape _ _
                                   twin_ids_distinct _).
  vm_compute. reflexivity.
Defined.

(** The agent that has arrived is returned as it was by the first tick and
    by the run of three ticks, while the walker next to it moves. *)
Lemma completed_agents_stay_put_witness :
  NoDup (ids (agents relay_annealer))
  /\ agents relay_annealer = [arrived; walker]
  /\ status arrived = completed
  /\ (exists self' g',
         run_tick exp_lower relay_annealer 0 tape = Ok (self', g')
         /\ Forall2 (fun a a' => status a = completed -> a' = a)
                    (agents relay_annealer) (agents self')
         /\ agents self' = [arrived; step_to walker 3])
  /\ exists self' g' e,
      run exp_lower relay_annealer tape = Ok (self', g', e)
      /\ ticks_done e = 3%nat
      /\ Forall2 (fun a a' => status a = completed -> a' = a)
                 (agents relay_annealer) (agents self')
      /\ exists a1, agents self' = [arrived; a1] /\ route a1 = [1; 3; 2; 3].
Proof.
  destruct (completed_agents_stay_put exp_lower relay_annealer
                                      relay_ids_distinct) as [Htick Hrun].
  split; [exact relay_ids_distinct|]. split; [reflexivity|].
  split; [reflexivity|]. split.
  - eexists. eexists. split; [vm_compute; reflexivity|]. split.
    + refine (Htick 0 tape _ _ _). vm_compute. reflexivity.
    + vm_compute. reflexivity.
  - eexists. eexists. eexists. split; [vm_compute; reflexivity|].
    split; [reflexivity|]. split.
    + refine (Hrun tape _ _ _ _). vm_compute. reflexivity.
    + eexists. split; [vm_compute; reflexivity | reflexivity].
Defined.

(** One agent has arrived before the run and the other arrives in its first
    tick: both are completed at the end, each on its goal node. *)
Lemma completed_means_at_goal_witness :
  NoDup (ids (agents pair_annealer))
  /\ Forall (fun a => status a = completed -> current_node a = goal_node a)
            (agents pair_annealer)
  /\ map status (agents pair_annealer) = [completed; active]
  /\ exists self' g' e,
      run exp_lower pair_annealer tape = Ok (self', g', e)
      /\ map status (agents self') = [completed; completed]
      /\ map route (agents self') = [[1; 3]; [1; 3]]
      /\ map goal_node (agents self') = [3; 3]
      /\ Forall (fun a => status a = completed
                          -> current_node a = goal_node a)
                (agents self').
Proof.
  assert (H0 : Forall (fun a => status a = completed
                                -> current_node a = goal_node a)
                      (agents pair_annealer))
    by (repeat constructor; cbn; discriminate).
  split; [exact pair_ids_distinct|]. split; [exact H0|].
  split; [reflexivity|].
  eexists. eexists. eexists. split; [vm_compute; reflexivity|].
  split; [reflexivity|]. split; [reflexivity|]. split; [reflexivity|].
  refine (completed_means_at_goal exp_lower pair_annealer tape _ _ _
                                  pair_ids_distinct H0 _).
  vm_compute. reflexivity.
Defined.

(** ** The graph during a run *)

Section World.
Variable math_exp : Q -> result Q.

Lemma run_tick_world (self : DynamicAnnealer) (tick : Z) (g : Random.rng)
  (self' : DynamicAnnealer) (g' : Random.rng) :
  run_tick math_exp self tick g = Ok (self', g') ->
  fire_event self tick = Ok (problem self')
  /\ event_callback self' = event_callback self.
Proof.
  intros H. split; [|exact (proj1 (run_tick_config math_exp _ _ _ _ _ H))].
  destruct (run_tick_phases _ _ _ _ _ _ H)
    as (self2 & pm & self3 & pm3 & self4 & H2 & H3 & H4 & ->).
  unfold tick_propose in H2. bind_cases H2. bind_cases H2.
  destruct a0 as [[[ags2 pm2] g2'] sols2]. injection H2 as <- _ _.
  unfold tick_arbitrate in H3. bind_cases H3. destruct a0 as [pm' ags].
  injection H3 as <- _.
  unfold tick_commit in H4. bind_cases H4. injection H4 as <-.
  reflexivity.
Qed.

Lemma run_loop_world (P : Problem -> Prop) (h : option Hook) ticks :
  (forall callback tick p p',
      h = Some callback -> In tick ticks -> P p -> callback tick p = Ok p' ->
      P p') ->
  forall self g prev done self' g' e,
    event_callback self = h -> P (problem self) ->
    run_loop math_exp ticks self g prev done = Ok (self', g', e) ->
    P (problem self').
Proof.
  induction ticks as [|tick ticks IH];
    intros Hstep self g prev done self' g' e Hh HP H; cbn [run_loop] in H.
  - now injection H as <- _ _.
  - bind_cases H. destruct a as [self1 g1].
    destruct (run_tick_world _ _ _ _ _ E) as [Hw Hc].
    assert (HP1 : P (problem self1)).
    { unfold fire_event in Hw. rewrite Hh in Hw. destruct h as [callback|].
      - eapply Hstep; [reflexivity | now left | exact HP | exact Hw].
      - injection Hw as <-. exact HP. }
    destruct (all_completed (agents self1)).
    + now injection H as <- _ _.
    + refine (IH _ self1 g1 _ _ self' g' e _ HP1 H); [|congruence].
      intros callback t p p' Hcb Ht. eapply Hstep; [exact Hcb | now right].
Qed.

Lemma in_range (n tick : Z) : In tick (range n) -> 0 <= tick < n.
Proof.
  unfold range. rewrite in_map_iff. intros (k & <- & Hk).
  apply in_seq in Hk. lia.
Qed.

(** With the hook of [dynamic_solve], the graph at the end of the loop by
    the number of ticks done. *)
Lemma run_loop_on_tick (k : nat) :
  forall (done : nat) self g prev self' g' e,
    event_callback self = Some on_tick ->
    run_loop math_exp (map Z.of_nat (seq done k)) self g prev done
    = Ok (self', g', e) ->
    problem self' = if ((done <=? 10) && (10 <? ticks_done e))%nat
                    then remove_edge (problem self) 1 2
                    else problem self.
Proof.
  induction k as [|k IH]; intros done self g prev self' g' e Hh H;
    cbn [seq map run_loop] in H.
  - injection H as <- _ <-. cbn [ticks_done].
    destruct (Nat.leb_spec done 10), (Nat.ltb_spec 10 done);
      cbn [andb]; try reflexivity; lia.
  - bind_cases H. destruct a as [self1 g1].
    destruct (run_tick_world _ _ _ _ _ E) as [Hw Hc].
    unfold fire_event in Hw. rewrite Hh in Hw. unfold on_tick in Hw.
    injection Hw as Hw.
    destruct (all_completed (agents self1)).
    + injection H as <- _ <-. cbn [ticks_done]. rewrite <- Hw.
      destruct (Z.eqb_spec (Z.of_nat done) 10), (Nat.leb_spec done 10),
        (Nat.ltb_spec 10 (S done)); cbn [andb]; try reflexivity; lia.
    + pose proof (run_loop_end math_exp _ _ _ _ _ _ _ _ H) as (Hd & _).
      apply IH in H; [|congruence]. rewrite H, <- Hw.
      destruct (Z.eqb_spec (Z.of_nat done) 10), (Nat.leb_spec (S done) 10),
        (Nat.leb_spec done 10), (Nat.ltb_spec 10 (ticks_done e));
        cbn [andb]; try reflexivity; lia.
Qed.

(** X21. The scheduler itself never changes the graph: the problem after a
    tick is what the hook returned for it, every property of the problem
    that the hook preserves on the ticks of the run holds after the run,
    and without a hook a run returns the problem it was given. *)
Theorem graph_changes_only_through_the_hook (self : DynamicAnnealer) :
  (forall tick g self' g',
      run_tick math_exp self tick g = Ok (self', g') ->
      fire_event self tick = Ok (problem self'))
  /\ (forall (P : Problem -> Prop) g self' g' e,
         (forall callback tick p p',
             event_callback self = Some callback ->
             0 <= tick < max_tick self ->
             P p -> callback tick p = Ok p' -> P p') ->
         P (problem self) ->
         run math_exp self g = Ok (self', g', e) ->
         P (problem self'))
  /\ (forall g self' g' e,
         event_callback self = None ->
         run math_exp self g = Ok (self', g', e) ->
         problem self' = problem self).
Proof.
  assert (Hrun : forall (P : Problem -> Prop) g self' g' e,
             (forall callback tick p p',
                 event_callback self = Some callback ->
                 0 <= tick < max_tick self ->
                 P p -> callback tick p = Ok p' -> P p') ->
             P (problem self) ->
             run math_exp self g = Ok (self', g', e) ->
             P (problem self')).
  { intros P g self' g' e Hstep HP H. unfold run in H. bind_cases H.
    destruct a as [[self1 g1] e1].
    destruct (loop_tick e1); [|discriminate]. injection H as <- _ _.
    eapply (run_loop_world P (event_callback self));
      [|reflexivity|exact HP|exact E].
    intros callback tick p p' Hcb Ht. apply Hstep; [exact Hcb|].
    now apply in_range. }
  split; [|split].
  - intros tick g self' g' H. exact (proj1 (run_tick_world _ _ _ _ _ H)).
  - exact Hrun.
  - intros g self' g' e Hnone H.
    apply (Hrun (fun p => p = problem self)) in H; [assumption| |reflexivity].
    intros callback tick p p' Hcb. congruence.
Qed.

(** X22. Under the hook of [dynamic_solve] a run changes the graph in one
    way only: once tick 10 has run, the edge 1 -> 2 is gone.  A run of at
    most ten ticks returns the problem unchanged; a longer one returns it
    with that edge removed, the nodes and every other edge as before. *)
Theorem edge_one_two_goes_at_tick_ten (self : DynamicAnnealer)
  (g : Random.rng) (self' : DynamicAnnealer) (g' : Random.rng) (e : LoopEnd) :
  event_callback self = Some on_tick ->
  run math_exp self g = Ok (self', g', e) ->
  problem self' = (if (10 <? ticks_done e)%nat
                   then remove_edge (problem self) 1 2 else problem self)
  /\ nodes (problem self') = nodes (problem self)
  /\ (forall u v, (u =? 1) && (v =? 2) = false ->
                  distance (problem self') u v = distance (problem self) u v)
  /\ ((10 < ticks_done e)%nat -> has_edge (graph (problem self')) 1 2 = false).
Proof.
  intros Hh H. unfold run, range in H. bind_cases H.
  destruct a as [[self1 g1] e1].
  destruct (loop_tick e1); [|discriminate]. injection H as <- _ <-.
  apply run_loop_on_tick in E; [|assumption]. cbn [Nat.leb andb] in E.
  split; [exact E|]. rewrite E.
  destruct (Nat.ltb_spec 10 (ticks_done e1)) as [Hlt|Hle].
  - split; [|split].
    + unfold remove_edge. now destruct (has_edge (graph (problem self)) 1 2).
    + intros u v Huv. rewrite remove_edge_distance_eq.
      rewrite (Z.eqb_sym 1 u), (Z.eqb_sym 2 v). now rewrite Huv.
    + intros _.
      pose proof (remove_edge_distance_eq (problem self) 1 2 1 2) as Hd.
      cbn [Z.eqb andb Pos.eqb] in Hd. unfold distance in Hd.
      unfold has_edge.
      now destruct (edge_lookup
                      (g_edges (graph (remove_edge (problem self) 1 2)))
                      (1, 2)).
  - split; [reflexivity|]. split; [reflexivity | lia].
Qed.

End World.

Lemma edge_one_two_goes_at_tick_ten_witness :
  event_callback patrol_annealer = Some on_tick
  /\ exists self' g' e,
      run exp_lower patrol_annealer [] = Ok (self', g', e)
      /\ ticks_done e = 12%nat
      /\ has_edge (graph (problem patrol_annealer)) 1 2 = true
      /\ has_edge (graph (problem self')) 1 2 = false.
Proof.
  split; [reflexivity|].
  eexists. eexists. eexists. split; [vm_compute; reflexivity|].
  split; [reflexivity|]. split; [reflexivity|].
  refine (proj2 (proj2 (proj2
            (edge_one_two_goes_at_tick_ten exp_lower patrol_annealer [] _ _
               _
               eq_refl _))) _).
  - vm_compute. reflexivity.
  - cbn. lia.
Defined.

(** ** The file-based runner *)

Lemma check_ids_spec (node_ids : list Z) (ags : list Agent) :
  (Forall (fun a => In (start_node a) node_ids /\ In (goal_node a) node_ids)
          ags -> check_ids node_ids ags = Ok tt)
  /\ (~ Forall (fun a => In (start_node a) node_ids
                         /\ In (goal_node a) node_ids) ags ->
      check_ids node_ids ags = Raise ValueError).
Proof.
  induction ags as [|a ags [IH1 IH2]]; cbn [check_ids].
  - split; [reflexivity|]. intros H. exfalso. apply H. constructor.
  - destruct (mem_Z (start_node a) node_ids) eqn:Es;
      destruct (mem_Z (goal_node a) node_ids) eqn:Eg; cbn [negb orb].
    + apply mem_Z_In in Es, Eg. split.
      * intros H. apply IH1. now inversion H.
      * intros H. apply IH2. intros Hall. apply H. now constructor.
    + split; [|reflexivity]. intros H. inversion H as [|? ? [_ Hg] _]; subst.
      apply mem_Z_In in Hg. congruence.
    + split; [|reflexivity]. intros H. inversion H as [|? ? [Hs _] _]; subst.
      apply mem_Z_In in Hs. congruence.
    + split; [|reflexivity]. intros H. inversion H as [|? ? [Hs _] _]; subst.
      apply mem_Z_In in Hs. congruence.
Qed.

Lemma check_ids_ok (node_ids : list Z) (ags : list Agent) (u : unit) :
  check_ids node_ids ags = Ok u ->
  Forall (fun a => In (start_node a) node_ids /\ In (goal_node a) node_ids)
         ags.
Proof.
  induction ags as [|a ags IH]; cbn [check_ids]; intros H; constructor.
  - destruct (mem_Z (start_node a) node_ids) eqn:Es;
      destruct (mem_Z (goal_node a) node_ids) eqn:Eg; cbn [negb orb] in H;
      try discriminate.
    apply mem_Z_In in Es, Eg. now split.
  - apply IH.
    destruct (negb (mem_Z (start_node a) node_ids)
              || negb (mem_Z (goal_node a) node_ids));
      [discriminate | assumption].
Qed.

Lemma known_nodes_Forall (cfg : Config) :
  known_nodes cfg
  <-> Forall (fun a => In (start_node a) (nodes (load_problem cfg))
                       /\ In (goal_node a) (nodes (load_problem cfg)))
             (load_agents_from_config cfg).
Proof.
  unfold known_nodes, load_agents_from_config, load_problem.
  cbn [nodes Problem_init]. rewrite Forall_map, Forall_forall.
  split; intros H row Hrow; exact (H row Hrow).
Qed.

Lemma dict_set_fresh {V : Type} (d : list (string * V)) (k : string) (v : V) :
  ~ In k (keys d) -> PyDict.set String.eqb d k v = d ++ [(k, v)].
Proof.
  unfold keys. induction d as [|[k0 v0] d IH]; cbn [PyDict.set map fst In app];
    [reflexivity|].
  intros H. destruct (String.eqb_spec k0 k) as [->|_]; [tauto|].
  f_equal. apply IH. tauto.
Qed.

Lemma dict_get_set {V : Type} (d : list (string * V)) (k k' : string)
  (v : V) :
  PyDict.get String.eqb (PyDict.set String.eqb d k v) k'
  = if String.eqb k k' then Some v else PyDict.get String.eqb d k'.
Proof.
  induction d as [|[k0 v0] d IH]; cbn [PyDict.set PyDict.get].
  - reflexivity.
  - destruct (String.eqb_spec k0 k) as [->|Hne]; cbn [PyDict.get].
    + now destruct (String.eqb k k').
    + rewrite IH. destruct (String.eqb_spec k0 k') as [<-|_]; [|reflexivity].
      destruct (String.eqb_spec k k0); [congruence | reflexivity].
Qed.

Lemma collect_results_distinct (ags : list Agent) :
  NoDup (ids ags) ->
  collect_results ags = map (fun a => (id a, (route a, status a))) ags.
Proof.
  unfold collect_results.
  enough (H : forall d : report,
             NoDup (keys d ++ ids ags) ->
             fold_left (fun d ag => PyDict.set String.eqb d (id ag)
                                               (route ag, status ag)) ags d
             = d ++ map (fun a => (id a, (route a, status a))) ags)
    by (intros Hnd; exact (H [] Hnd)).
  unfold ids, keys. induction ags as [|a ags IH]; intros d Hnd;
    cbn [fold_left map].
  - now rewrite app_nil_r.
  - assert (Hfresh : ~ In (id a) (keys d)).
    { intros Hin. apply NoDup_remove_2 in Hnd. apply Hnd.
      apply in_or_app. now left. }
    rewrite (dict_set_fresh _ _ _ Hfresh). rewrite IH.
    + now rewrite <- app_assoc.
    + unfold keys. rewrite map_app. cbn [map fst].
      rewrite <- app_assoc. exact Hnd.
Qed.

Lemma collect_results_member (ags : list Agent) (k : string) (rt : list Z)
  (st : Status) :
  PyDict.get String.eqb (collect_results ags) k = Some (rt, st) ->
  exists a, In a ags /\ id a = k /\ route a = rt /\ status a = st.
Proof.
  unfold collect_results.
  enough (H : forall d : report,
             PyDict.get String.eqb
               (fold_left (fun d ag => PyDict.set String.eqb d (id ag)
                                                  (route ag, status ag))
                          ags d) k = Some (rt, st) ->
             PyDict.get String.eqb d k = Some (rt, st)
             \/ exists a, In a ags /\ id a = k /\ route a = rt
                          /\ status a = st).
  { intros Hg. destruct (H [] Hg) as [H0|H0]; [discriminate | exact H0]. }
  induction ags as [|a ags IH]; intros d Hg; cbn [fold_left] in Hg.
  - now left.
  - destruct (IH _ Hg) as [H0|(b & Hb & Hrest)].
    + rewrite dict_get_set in H0.
      destruct (String.eqb_spec (id a) k) as [Hk|Hk].
      * injection H0 as <- <-. right. exists a. cbn [In]. auto.
      * now left.
    + right. exists b. cbn [In]. auto.
Qed.

Lemma dict_get_map (ags : list Agent) (a : Agent) :
  NoDup (ids ags) -> In a ags ->
  PyDict.get String.eqb (map (fun a => (id a, (route a, status a))) ags)
             (id a)
  = Some (route a, status a).
Proof.
  unfold ids. induction ags as [|b ags IH]; cbn [map In PyDict.get];
    intros Hnd Ha; [contradiction|].
  inversion Hnd as [|? ? Hnot Hnd']; subst.
  destruct Ha as [->|Ha]; [now rewrite String.eqb_refl|].
  destruct (String.eqb_spec (id b) (id a)) as [E|_]; [|now apply IH].
  exfalso. apply Hnot. rewrite E. now apply in_map.
Qed.

Lemma Forall2_and {A : Type} (R S : A -> A -> Prop) (l l' : list A) :
  Forall2 R l l' -> Forall2 S l l' -> Forall2 (fun a b => R a b /\ S a b) l l'.
Proof.
  intros HR. induction HR as [|a b l l' Hab _ IH]; intros HS;
    inversion HS; subst; constructor; auto.
Qed.

Lemma Forall2_right {A : Type} (R : A -> A -> Prop) (P : A -> Prop)
  (l l' : list A) :
  Forall2 R l l' -> Forall P l' -> Forall2 (fun a b => R a b /\ P b) l l'.
Proof.
  intros HR. induction HR as [|a b l l' Hab _ IH]; intros HP;
    inversion HP; subst; constructor; auto.
Qed.

Lemma Forall2_pick {A : Type} (R : A -> A -> Prop) (l l' : list A) (a : A) :
  Forall2 R l l' -> In a l -> exists b, In b l' /\ R a b.
Proof.
  intros HR. induction HR as [|x y l l' Hxy _ IH]; intros Ha; [contradiction|].
  destruct Ha as [->|Ha].
  - exists y. split; [now left | assumption].
  - destruct (IH Ha) as (b & Hb & Hab). exists b. split; [now right|assumption].
Qed.

Lemma load_agents_ids (cfg : Config) :
  ids (load_agents_from_config cfg) = map fst (cfg_agents cfg).
Proof.
  unfold ids, load_agents_from_config. rewrite map_map. reflexivity.
Qed.

Section RunnerFacts.
Variable math_exp : Q -> result Q.

Lemma dynamic_solve_run (cfg : Config) (budget : Z) (g : Random.rng)
  (results : report) (g' : Random.rng) :
  dynamic_solve math_exp cfg budget g = Ok (results, g') ->
  known_nodes cfg
  /\ exists self' e,
      run math_exp
          (DynamicAnnealer_init (load_problem cfg)
             (load_agents_from_config cfg) (Some on_tick) budget 200 100
             (9 # 10) (1 # 100) (1 # 10)) g = Ok (self', g', e)
      /\ results = collect_results (agents self').
Proof.
  unfold dynamic_solve. intros H. bind_cases H.
  split.
  - apply known_nodes_Forall. eapply check_ids_ok. exact E.
  - bind_cases H. destruct a0 as [[self' g1] e]. injection H as <- <-.
    now exists self', e.
Qed.

Lemma dynamic_solve_cases (cfg : Config) (budget : Z) (g : Random.rng) :
  (~ known_nodes cfg ->
   dynamic_solve math_exp cfg budget g = Raise ValueError)
  /\ (known_nodes cfg -> budget <= 0 ->
      dynamic_solve math_exp cfg budget g = Raise NameError)
  /\ (known_nodes cfg -> 1 <= budget ->
      (forall x, (x <= 0)%Q -> exists p, math_exp x = Ok p) ->
      exists results g',
        dynamic_solve math_exp cfg budget g = Ok (results, g')).
Proof.
  destruct (check_ids_spec (nodes (load_problem cfg))
                           (load_agents_from_config cfg)) as [Hgood Hbad].
  unfold dynamic_solve. split; [|split].
  - intros Hk. rewrite Hbad; [reflexivity|].
    intros Hall. apply Hk. now apply known_nodes_Forall.
  - intros Hk HT. rewrite (Hgood (proj1 (known_nodes_Forall cfg) Hk)).
    cbn [bind]. unfold run. cbn [max_tick DynamicAnnealer_init].
    now rewrite (range_nonpositive _ HT).
  - intros Hk HT Hexp. rewrite (Hgood (proj1 (known_nodes_Forall cfg) Hk)).
    cbn [bind].
    destruct (cfg_agents cfg) as [|row rows] eqn:Erows.
    + unfold load_agents_from_config. rewrite Erows. cbn [map].
      rewrite (run_no_agents math_exp _ g (load_problem cfg));
        [cbn; now do 2 eexists | reflexivity | exact HT | reflexivity].
    + match goal with
      | |- context [run math_exp ?s g] =>
          destruct (run_ok math_exp Hexp s g) as (self' & g' & e & E);
            [|exact HT|rewrite E; cbn; now do 2 eexists]
      end.
      split; [|split; [|split]].
      * cbn. destruct (Hk row) as [Hs _]; [rewrite Erows; now left|].
        intros Hnil. rewrite Hnil in Hs. exact Hs.
      * apply Qle_bool_iff. reflexivity.
      * apply Qle_bool_iff. reflexivity.
      * exact on_tick_behaves.
Qed.

Lemma dynamic_solve_results (cfg : Config) (budget : Z) (g : Random.rng)
  (results : report) (g' : Random.rng) :
  NoDup (map fst (cfg_agents cfg)) ->
  dynamic_solve math_exp cfg budget g = Ok (results, g') ->
  keys results = map fst (cfg_agents cfg)
  /\ forall row,
      In row (cfg_agents cfg) ->
      exists rt st,
        PyDict.get String.eqb results (fst row) = Some (rt, st)
        /\ PyList.get rt 0 = Ok (fst (snd row))
        /\ (1 <= length rt <= 1 + Z.to_nat budget)%nat
        /\ st <> blocked
        /\ (st = completed -> PyList.get_last rt = Ok (snd (snd row))).
Proof.
  intros Hnd H. destruct (dynamic_solve_run _ _ _ _ _ H)
    as (Hk & self' & e & Hrun & ->).
  set (self := DynamicAnnealer_init _ _ _ _ _ _ _ _ _) in Hrun.
  assert (Hags : agents self = load_agents_from_config cfg) by reflexivity.
  pose proof (run_evolves math_exp _ _ _ _ _ Hrun) as Hev.
  pose proof (evolves_ids _ _ Hev) as Hids.
  rewrite Hags, load_agents_ids in Hids.
  assert (Hnd0 : NoDup (ids (agents self)))
    by (rewrite Hags, load_agents_ids; exact Hnd).
  assert (Hnd' : NoDup (ids (agents self'))) by (now rewrite Hids).
  rewrite (collect_results_distinct _ Hnd').
  split.
  { unfold keys. rewrite map_map. exact Hids. }
  assert (Hinv0 : Forall route_inv (agents self)).
  { rewrite Hags. unfold load_agents_from_config. apply Forall_map.
    apply Forall_forall. intros r _. apply Agent_init_route_inv. }
  assert (Hgoal0 : Forall (fun a => status a = completed
                                    -> current_node a = goal_node a)
                          (agents self)).
  { rewrite Hags. unfold load_agents_from_config. apply Forall_map.
    apply Forall_forall. intros r _. cbn. discriminate. }
  destruct (Forall2_evolves_extends _ _ Hev) as [Hext Hinv].
  specialize (Hinv Hinv0).
  pose proof (run_completed_at_goal math_exp _ _ _ _ _ Hnd0 Hgoal0 Hrun)
    as Hgoal.
  pose proof (run_end math_exp _ _ _ _ _ Hrun) as (Hd & _ & _ & _ & Hnb).
  pose proof (run_hops math_exp _ _ _ _ _ Hrun) as Hhops.
  pose proof (Forall2_right _ _ _ _
                (Forall2_right _ _ _ _
                   (Forall2_right _ _ _ _ (Forall2_and _ _ _ _ Hext Hhops)
                                  Hinv) Hgoal) Hnb) as Hall.
  intros row Hrow.
  assert (Hin : In (Agent_init (fst row) (fst (snd row)) (snd (snd row)))
                   (agents self)).
  { rewrite Hags. unfold load_agents_from_config.
    apply (in_map (fun row => Agent_init (fst row) (fst (snd row))
                                         (snd (snd row)))).
    exact Hrow. }
  destruct (Forall2_pick _ _ _ _ Hall Hin)
    as (a' & Ha' & ((((Hi & Hs & Hg & _) & (ext & Hr & Hl))
                     & (Hne & Hfirst & Hlast)) & Hcg) & Hb).
  cbn [id start_node goal_node route Agent_init] in Hi, Hs, Hg, Hr.
  exists (route a'), (status a'). rewrite <- Hi.
  split; [now apply dict_get_map|].
  split; [now rewrite Hfirst, Hs|].
  split.
  { rewrite Hr. cbn [app length].
    cbn [max_tick DynamicAnnealer_init] in Hd. subst self.
    cbn [max_tick DynamicAnnealer_init] in Hd. lia. }
  split; [exact Hb|].
  intros Hc. rewrite Hlast, (Hcg Hc), Hg. reflexivity.
Qed.

(** X23. [dynamic_solve] checks the agents before anything runs: it raises
    [ValueError] when some agent starts or ends at a node the configuration
    does not list.  Otherwise it raises [NameError] for a tick budget below
    one and, for a budget of at least one, returns a report. *)
Theorem dynamic_solve_outcomes (cfg : Config) (budget : Z)
  (g : Random.rng) :
  (~ known_nodes cfg ->
   dynamic_solve math_exp cfg budget g = Raise ValueError)
  /\ (known_nodes cfg -> budget <= 0 ->
      dynamic_solve math_exp cfg budget g = Raise NameError)
  /\ (known_nodes cfg -> 1 <= budget ->
      (forall x, (x <= 0)%Q -> exists p, math_exp x = Ok p) ->
      exists results g',
        dynamic_solve math_exp cfg budget g = Ok (results, g')).
Proof. exact (dynamic_solve_cases cfg budget g). Qed.

(** X24. With distinct agent ids the report of [dynamic_solve] has one
    entry per agent row, in the order of the configuration.  The reported
    route starts at the agent's start node and holds at most one node per
    tick of the budget after it; the reported status is never blocked, and
    the route of an agent reported completed ends at its goal. *)
Theorem dynamic_solve_report (cfg : Config) (budget : Z) (g : Random.rng)
  (results : report) (g' : Random.rng) :
  NoDup (map fst (cfg_agents cfg)) ->
  dynamic_solve math_exp cfg budget g = Ok (results, g') ->
  keys results = map fst (cfg_agents cfg)
  /\ forall row,
      In row (cfg_agents cfg) ->
      exists rt st,
        PyDict.get String.eqb results (fst row) = Some (rt, st)
        /\ PyList.get rt 0 = Ok (fst (snd row))
        /\ (1 <= length rt <= 1 + Z.to_nat budget)%nat
        /\ st <> blocked
        /\ (st = completed -> PyList.get_last rt = Ok (snd (snd row))).
Proof. exact (dynamic_solve_results cfg budget g results g'). Qed.

(** X25. What [optimize_routes] returns does not show the solve: it fails
    exactly as [dynamic_solve] does, and when it returns, its routes are
    those of agents loaded afresh from the configuration.  Every reported
    route is the one-node list of a start node of the configuration and
    every status is active, the cost is the placeholder 0 and the meta
    counts are those of the configuration. *)
Theorem optimize_routes_reports_fresh_agents (cfg : Config) (budget : Z)
  (g : Random.rng) :
  (forall e, dynamic_solve math_exp cfg budget g = Raise e ->
             optimize_routes math_exp cfg budget g = Raise e)
  /\ (forall results g',
         dynamic_solve math_exp cfg budget g = Ok (results, g') ->
         exists sol,
           optimize_routes math_exp cfg budget g = Ok (sol, g')
           /\ agent_routes sol
              = collect_results (load_agents_from_config cfg)
           /\ (forall i rt st,
                  PyDict.get String.eqb (agent_routes sol) i = Some (rt, st) ->
                  st = active
                  /\ exists start goal,
                      In (i, (start, goal)) (cfg_agents cfg)
                      /\ rt = [start])
           /\ (placeholder_cost sol == 0)%Q
           /\ num_agents sol = length (cfg_agents cfg)
           /\ num_nodes sol = length (cfg_nodes cfg)).
Proof.
  unfold optimize_routes. split.
  - intros e ->. reflexivity.
  - intros results g' ->. cbn [bind]. eexists. split; [reflexivity|].
    cbn [agent_routes placeholder_cost num_agents num_nodes format_solution].
    split; [reflexivity|]. split; [|split; [reflexivity|split]].
    + intros i rt st Hg. apply collect_results_member in Hg.
      destruct Hg as (a & Ha & <- & <- & <-).
      unfold load_agents_from_config in Ha. apply in_map_iff in Ha.
      destruct Ha as ([i [s gl]] & <- & Hrow). cbn.
      split; [reflexivity|]. now exists s, gl.
    + unfold load_agents_from_config. now rewrite length_map.
    + reflexivity.
Qed.

End RunnerFacts.

Lemma ring_config_ids : NoDup (map fst (cfg_agents ring_config)).
Proof. repeat constructor; cbn; intuition discriminate. Qed.

Lemma dynamic_solve_report_witness :
  NoDup (map fst (cfg_agents ring_config))
  /\ dynamic_solve exp_lower ring_config 5 []
     = Ok ([("A1"%string, ([1; 3], completed));
            ("A2"%string, ([3; 2], completed))], [])
  /\ exists rt st,
      PyDict.get String.eqb
                 [("A1"%string, ([1; 3], completed));
                  ("A2"%string, ([3; 2], completed))] "A1"%string
      = Some (rt, st)
      /\ PyList.get rt 0 = Ok 1
      /\ (1 <= length rt <= 1 + Z.to_nat 5)%nat
      /\ st <> blocked
      /\ (st = completed -> PyList.get_last rt = Ok 3).
Proof.
  assert (H : dynamic_solve exp_lower ring_config 5 []
              = Ok ([("A1"%string, ([1; 3], completed));
                     ("A2"%string, ([3; 2], completed))], []))
    by (vm_compute; reflexivity).
  split; [exact ring_config_ids|]. split; [exact H|].
  exact (proj2 (dynamic_solve_report exp_lower ring_config 5 [] _ _
                  ring_config_ids H)
               ("A1"%string, (1, 3)) (or_introl eq_refl)).
Defined.

Lemma optimize_routes_reports_fresh_agents_witness :
  dynamic_solve exp_lower ring_config 5 []
  = Ok ([("A1"%string, ([1; 3], completed));
         ("A2"%string, ([3; 2], completed))], [])
  /\ exists sol,
      optimize_routes exp_lower ring_config 5 [] = Ok (sol, [])
      /\ agent_routes sol
         = [("A1"%string, ([1], active)); ("A2"%string, ([3], active))].
Proof.
  assert (H : dynamic_solve exp_lower ring_config 5 []
              = Ok ([("A1"%string, ([1; 3], completed));
                     ("A2"%string, ([3; 2], completed))], []))
    by (vm_compute; reflexivity).
  split; [exact H|].
  destruct (proj2 (optimize_routes_reports_fresh_agents exp_lower
                     ring_config 5 []) _ _ H)
    as (sol & Hsol & Hroutes & _).
  exists sol. split; [exact Hsol|]. rewrite Hroutes. reflexivity.
Defined.

(** ** Event bus *)

Lemma list_remove_spec (l : list string) (x : string) :
  (~ In x l -> EventBus.list_remove l x = Raise ValueError)
  /\ (In x l ->
      exists pre post,
        l = pre ++ x :: post /\ ~ In x pre
        /\ EventBus.list_remove l x = Ok (pre ++ post)).
Proof.
  induction l as [|y l [IH1 IH2]]; cbn [EventBus.list_remove In].
  - split; [reflexivity | intros []].
  - destruct (String.eqb_spec y x) as [->|Hne].
    + split; [tauto|]. intros _. exists [], l. cbn. auto.
    + split.
      * intros H. rewrite IH1; [reflexivity | tauto].
      * intros [E|H]; [congruence|].
        destruct (IH2 H) as (pre & post & -> & Hpre & ->).
        exists (y :: pre), post. cbn [app In bind].
        split; [reflexivity|]. split; [tauto | reflexivity].
Qed.

Lemma publish_subscribe (subs : EventBus.registry)
  (event_name callback other : string) :
  EventBus.publish (EventBus.subscribe subs event_name callback) other
  = if String.eqb event_name other
    then EventBus.publish subs other ++ [callback]
    else EventBus.publish subs other.
Proof.
  unfold EventBus.publish, EventBus.subscribe.
  destruct (PyDict.get String.eqb subs event_name) as [l|] eqn:E.
  - rewrite E, dict_get_set.
    destruct (String.eqb_spec event_name other) as [<-|_]; [|reflexivity].
    now rewrite E.
  - rewrite (dict_get_set subs event_name event_name), String.eqb_refl.
    cbn [app]. rewrite !dict_get_set.
    destruct (String.eqb_spec event_name other) as [<-|_]; [|reflexivity].
    now rewrite E.
Qed.

(** X26. The event bus keeps, per event name, the callbacks in subscription
    order, and an event name does not see the callbacks of another.
    [subscribe] appends, also a callback that is subscribed already.
    [unsubscribe] drops the first subscription of the callback; it raises
    [ValueError] when the event name is known and the callback is not
    subscribed to it, and does nothing for an event name never subscribed
    to.  So unsubscribing right after subscribing a callback that was not
    subscribed restores what [publish] calls, and unsubscribing it once
    more raises. *)
Theorem event_bus_subscriptions (subs : EventBus.registry)
  (event_name callback : string) :
  (forall other,
      EventBus.publish (EventBus.subscribe subs event_name callback) other
      = if String.eqb event_name other
        then EventBus.publish subs other ++ [callback]
        else EventBus.publish subs other)
  /\ (PyDict.get String.eqb subs event_name = None ->
      EventBus.unsubscribe subs event_name callback = Ok subs)
  /\ (PyDict.get String.eqb subs event_name <> None ->
      ~ In callback (EventBus.publish subs event_name) ->
      EventBus.unsubscribe subs event_name callback = Raise ValueError)
  /\ (In callback (EventBus.publish subs event_name) ->
      exists subs' pre post,
        EventBus.unsubscribe subs event_name callback = Ok subs'
        /\ EventBus.publish subs event_name = pre ++ callback :: post
        /\ ~ In callback pre
        /\ EventBus.publish subs' event_name = pre ++ post
        /\ forall other, other <> event_name ->
                         EventBus.publish subs' other
                         = EventBus.publish subs other)
  /\ (~ In callback (EventBus.publish subs event_name) ->
      exists subs',
        EventBus.unsubscribe (EventBus.subscribe subs event_name callback)
                             event_name callback = Ok subs'
        /\ (forall other, EventBus.publish subs' other
                          = EventBus.publish subs other)
        /\ EventBus.unsubscribe subs' event_name callback
           = Raise ValueError).
Proof.
  assert (Hun : forall s : EventBus.registry,
             In callback (EventBus.publish s event_name) ->
             exists subs' pre post,
               EventBus.unsubscribe s event_name callback = Ok subs'
               /\ EventBus.publish s event_name = pre ++ callback :: post
               /\ ~ In callback pre
               /\ PyDict.get String.eqb subs' event_name = Some (pre ++ post)
               /\ forall other, other <> event_name ->
                                EventBus.publish subs' other
                                = EventBus.publish s other).
  { intros s Hin. unfold EventBus.publish, EventBus.unsubscribe in *.
    destruct (PyDict.get String.eqb s event_name) as [l|] eqn:E;
      [|contradiction].
    destruct (proj2 (list_remove_spec l callback) Hin)
      as (pre & post & -> & Hpre & ->).
    cbn [bind]. eexists. exists pre, post. split; [reflexivity|].
    split; [reflexivity|]. split; [assumption|].
    split; [now rewrite dict_get_set, String.eqb_refl|].
    intros other Hne. rewrite dict_get_set.
    destruct (String.eqb_spec event_name other); [congruence | reflexivity]. }
  split; [|split; [|split; [|split]]].
  - intros other. apply publish_subscribe.
  - intros E. unfold EventBus.unsubscribe. now rewrite E.
  - intros E Hnot. unfold EventBus.unsubscribe, EventBus.publish in *.
    destruct (PyDict.get String.eqb subs event_name) as [l|]; [|congruence].
    now rewrite (proj1 (list_remove_spec l callback) Hnot).
  - intros Hin.
    destruct (Hun subs Hin) as (subs' & pre & post & H1 & H2 & H3 & H4 & H5).
    exists subs', pre, post. repeat (split; [assumption|]).
    split; [|assumption]. unfold EventBus.publish. now rewrite H4.
  - intros Hnot.
    assert (Hin : In callback
                     (EventBus.publish
                        (EventBus.subscribe subs event_name callback)
                        event_name)).
    { rewrite publish_subscribe, String.eqb_refl. apply in_or_app.
      right. now left. }
    destruct (Hun _ Hin) as (subs' & pre & post & H1 & H2 & H3 & H4 & H5).
    rewrite publish_subscribe, String.eqb_refl in H2.
    assert (Hpp : pre = EventBus.publish subs event_name /\ post = []).
    { clear - H2 H3 Hnot. revert pre H2 H3.
      induction (EventBus.publish subs event_name) as [|y l IH];
        intros pre H2 H3.
      - destruct pre as [|z pre]; cbn in H2.
        + injection H2 as <-. auto.
        + injection H2 as <- H2. now destruct pre.
      - destruct pre as [|z pre]; cbn in H2.
        + injection H2 as -> _. exfalso. apply Hnot. now left.
        + injection H2 as <- H2.
          destruct (IH (fun H => Hnot (or_intror H)) pre H2
                       (fun H => H3 (or_intror H))) as [-> ->].
          auto. }
    destruct Hpp as [-> ->]. rewrite app_nil_r in H4.
    exists subs'. split; [assumption|]. split.
    + intros other. destruct (String.eqb_spec other event_name) as [->|Hne].
      * unfold EventBus.publish at 1. now rewrite H4.
      * rewrite (H5 other Hne), publish_subscribe.
        destruct (String.eqb_spec event_name other); [congruence|reflexivity].
    + unfold EventBus.unsubscribe. rewrite H4.
      now rewrite (proj1 (list_remove_spec _ callback) Hnot).
Qed.
